(** * repopackager: the scan / discovery pipeline

    A shallow embedding of the classes [Package], [Repository] and
    [PackageManager] and of the helpers [EEQueue], [isDirectory] and
    [doesPathExist] of the common module, followed by the properties of
    the natural-language specification that concern them.

    Conventions.
    - An [async] method is a computation in a state-and-exception monad:
      [await] is sequencing, a rejected promise is a thrown exception.
      One scan runs from start to end without interleaving with another.
    - JS objects that are shared by reference ([Package] instances) live in
      a heap and are named by their address.
    - [EventEmitter.emit] is synchronous: it appends the event to a trace
      and runs the listeners registered for that event name, in order.
    - The filesystem is a snapshot: a finite tree of nodes, each of which
      says how [stat], [readdir] and [readFile] answer there.
    - The keys of [configParseRules] are arbitrary strings, and [_parse]
      assigns to [this[key]]. What that does when the key names a field,
      an accessor or a method of the object is followed for the keys
      listed at [assign]; the properties that depend on it are stated for
      rules whose keys name no member of the object ([plain_rules]).
    - The keys of [_repos] are arbitrary strings as well; the properties
      of the manager are stated for names other than __proto__, whose
      assignment sets the prototype of the table instead of an entry. *)

From Stdlib Require Import Ascii String.
From stdpp Require Import base option list strings gmap.

Set Warnings "-register-all".

Open Scope string_scope.
Open Scope list_scope.
Open Scope nat_scope.

(** ** Exceptions and the monad *)

Inductive Error :=
| IOError (code : string)               (* an error of the fs module *)
| RejectedFalse                         (* the value [false], as thrown by [doesPathExist] *)
| TypeError (what : string)
| SyntaxError (pattern : string)        (* new RegExp on an invalid pattern *)
| RangeError                            (* maximum call stack size exceeded *)
| PackageMissingRequirementError
| RepositoryNotUniquePackageError.

Global Instance Error_eq_dec : EqDecision Error.
Proof. solve_decision. Defined.

Inductive Result (A : Type) :=
| Ok (a : A)
| Throw (e : Error).
Arguments Ok {A} a.
Arguments Throw {A} e.

Definition M (St A : Type) : Type := St -> Result A * St.

Definition ret {St A} (a : A) : M St A := fun s => (Ok a, s).
Definition throw {St A} (e : Error) : M St A := fun s => (Throw e, s).
Definition bind {St A B} (m : M St A) (k : A -> M St B) : M St B :=
  fun s => match m s with
           | (Ok a, s') => k a s'
           | (Throw e, s') => (Throw e, s')
           end.

Notation "x <- c ;; k" := (bind c (fun x => k))
  (at level 100, c at next level, right associativity).
Notation "c ;;; k" := (bind c (fun _ => k))
  (at level 100, right associativity).

Definition gets {St A} (f : St -> A) : M St A := fun s => (Ok (f s), s).
Definition modify {St} (f : St -> St) : M St unit := fun s => (Ok tt, f s).

(** [try { m } catch (err) { h err }]: what [m] did to the state before it
    threw stays done. *)
Definition try_catch {St A} (m : M St A) (h : Error -> M St A) : M St A :=
  fun s => match m s with
           | (Ok a, s') => (Ok a, s')
           | (Throw e, s') => h e s'
           end.

(** Calling an [async] function without awaiting it, as [emit] does with an
    [async] listener: the body runs, an exception ends up in a promise
    nobody looks at. *)
Definition detached {St} (m : M St unit) : M St unit :=
  fun s => (Ok tt, (m s).2).

(** [for (let x of xs) body] *)
Definition for_of {St A} (xs : list A) (body : A -> M St unit) : M St unit :=
  (fix each (xs : list A) : M St unit :=
     match xs with
     | [] => ret tt
     | x :: xs' => body x ;;; each xs'
     end) xs.
Arguments for_of : simpl never.

Definition when {St} (b : bool) (m : M St unit) : M St unit :=
  if b then m else ret tt.

(** ** Paths and strings *)

(** An absolute, normalised path is the list of its components;
    [render] gives the string the code sees. *)
Abbreviation Path := (list string) (only parsing).

Definition render (p : Path) : string :=
  match p with
  | [] => "/"
  | _ => foldr (fun c acc => "/" +:+ c +:+ acc) "" p
  end.

(** path.resolve(directory, file), path.join(directory, file) for a file
    name returned by readdir; path.dirname; path.basename. *)
Definition path_resolve (directory : Path) (file : string) : Path := directory ++ [file].
Definition path_join (directory : Path) (file : string) : Path :=
  if String.eqb file "" then directory else directory ++ [file].
Definition path_dirname (p : Path) : Path := removelast p.
Definition path_basename (p : Path) : string := List.last p "".

(** String.prototype.replace(pattern, "") with a string pattern: the first
    occurrence of [pattern] is removed. *)
Definition replace_first (pattern s : string) : string :=
  match String.index 0 pattern s with
  | Some i => String.substring 0 i s +:+
              String.substring (i + String.length pattern)
                        (String.length s - (i + String.length pattern)) s
  | None => s
  end.

(** ** The platform: regular expressions and trimming

    [new_RegExp source flags] is [None] when the constructor throws a
    SyntaxError; otherwise it is the compiled expression, which maps a
    subject to [null] ([None]) or to the array of a match: the whole match
    at index 0, then the capture groups, an unmatched group being
    [undefined] ([None]). *)
Class Platform := {
  new_RegExp : string -> string -> option (string -> option (list (option string)));
  trim : string -> string
}.

(** ** The filesystem *)

Inductive Node :=
| File (contents : string)                  (* regular file, readable *)
| UnreadableFile (code : string)            (* regular file, readFile fails *)
| Dir (entries : list (string * Node))      (* directory, in readdir order *)
| UnreadableDir (code : string)             (* directory, readdir fails *)
| Special                                   (* stat succeeds: neither file nor directory *)
| Broken (code : string).                   (* stat fails; "ENOENT" where nothing exists *)

Fixpoint find_entry (file : string) (entries : list (string * Node)) : option Node :=
  match entries with
  | [] => None
  | (f, n) :: rest => if String.eqb f file then Some n else find_entry file rest
  end.

(** What the filesystem holds at a path. *)
Fixpoint resolve (root : Node) (p : Path) : Node :=
  match p with
  | [] => root
  | c :: p' =>
      match root with
      | Dir entries =>
          match find_entry c entries with
          | Some n => resolve n p'
          | None => Broken "ENOENT"
          end
      | Broken code => Broken code
      | _ => Broken "ENOTDIR"
      end
  end.

Section Fs.
Context {St : Type}.

(** fs.stat, answered by the node at the path *)
Definition stat (n : Node) : M St Node :=
  match n with
  | Broken code => throw (IOError code)
  | _ => ret n
  end.

Definition stats_isDirectory (n : Node) : bool :=
  match n with Dir _ | UnreadableDir _ => true | _ => false end.

Definition stats_isFile (n : Node) : bool :=
  match n with File _ | UnreadableFile _ => true | _ => false end.

(** common.ts: [if (err) reject(err); resolve(stats && stats.isDirectory())] *)
Definition isDirectory (n : Node) : M St bool :=
  try_catch (stats <- stat n ;; ret (stats_isDirectory stats))
            (fun err => throw err).

(** common.ts: [if (err) reject(false); resolve(stats && stats.isFile())] *)
Definition doesPathExist (n : Node) : M St bool :=
  try_catch (stats <- stat n ;; ret (stats_isFile stats))
            (fun err => throw RejectedFalse).

(** fs.readdir: the names, each with the node a later stat will see *)
Definition readdirAsync (n : Node) : M St (list (string * Node)) :=
  match n with
  | Dir entries => ret entries
  | UnreadableDir code => throw (IOError code)
  | Broken code => throw (IOError code)
  | File _ | UnreadableFile _ | Special => throw (IOError "ENOTDIR")
  end.

(** fs.readFile(path, "utf8") *)
Definition readFileAsync (n : Node) : M St string :=
  match n with
  | File contents => ret contents
  | UnreadableFile code => throw (IOError code)
  | Dir _ | UnreadableDir _ => throw (IOError "EISDIR")
  | Special => throw (IOError "EINVAL")
  | Broken code => throw (IOError code)
  end.
End Fs.

(** ** Data model *)

(** The address of a [Package] object in the heap. *)
Abbreviation ref := nat (only parsing).

(** A key of [configParseRules]: the two that [isValid] reads, or any
    other string. *)
Inductive Property :=
| name
| guid
| other (key : string).

Global Instance Property_eq_dec : EqDecision Property.
Proof. solve_decision. Defined.

(** A rule is a pattern string or a nested object; the list is in [for in]
    order. *)
Inductive Rule :=
| Pattern (source : string)
| Group (rules : list (Property * Rule)).

Abbreviation Rules := (list (Property * Rule)) (only parsing).

(** The methods of [Repository] that [_walkPkgDir] binds as listeners. *)
Inductive RepositoryListener :=
| bound_onPkgError
| bound_onPkgCreated.

Module Package.
Record t := mk {
  _rawConfigContents : option string;      (* [None] is undefined *)
  _absoluteDirPath : Path;
  _configFile : string;
  _hasWalked : bool;                       (* undefined is [false] *)
  _lastWalk : option nat;
  path : string;
  name : option string;
  guid : option string;
  items : option (list string);
  (* the own data properties that the rules have made besides the fields
     above; one of them hides the inherited member of its name *)
  others : gmap string (option string);
  listeners : list (string * RepositoryListener)
}.

Definition set_rawConfigContents v p :=
  mk v (_absoluteDirPath p) (_configFile p) (_hasWalked p) (_lastWalk p) (path p)
     (name p) (guid p) (items p) (others p) (listeners p).
Definition set_hasWalked v p :=
  mk (_rawConfigContents p) (_absoluteDirPath p) (_configFile p) v (_lastWalk p) (path p)
     (name p) (guid p) (items p) (others p) (listeners p).
Definition set_lastWalk v p :=
  mk (_rawConfigContents p) (_absoluteDirPath p) (_configFile p) (_hasWalked p) v (path p)
     (name p) (guid p) (items p) (others p) (listeners p).
Definition set_name v p :=
  mk (_rawConfigContents p) (_absoluteDirPath p) (_configFile p) (_hasWalked p) (_lastWalk p) (path p)
     v (guid p) (items p) (others p) (listeners p).
Definition set_guid v p :=
  mk (_rawConfigContents p) (_absoluteDirPath p) (_configFile p) (_hasWalked p) (_lastWalk p) (path p)
     (name p) v (items p) (others p) (listeners p).
Definition set_items v p :=
  mk (_rawConfigContents p) (_absoluteDirPath p) (_configFile p) (_hasWalked p) (_lastWalk p) (path p)
     (name p) (guid p) v (others p) (listeners p).
Definition set_others v p :=
  mk (_rawConfigContents p) (_absoluteDirPath p) (_configFile p) (_hasWalked p) (_lastWalk p) (path p)
     (name p) (guid p) (items p) v (listeners p).
Definition set_listeners v p :=
  mk (_rawConfigContents p) (_absoluteDirPath p) (_configFile p) (_hasWalked p) (_lastWalk p) (path p)
     (name p) (guid p) (items p) (others p) v.
End Package.

Module EEQueue.
Record t := mk {
  queue : list Path;
  (* the listeners registered by [once("emptied", ...)] and not yet run;
     each is [_onWalkQueueEmptied] bound to the owning repository *)
  once_emptied : nat
}.
End EEQueue.

Record RepoPackageDefinition := {
  configFileName : option string;
  configParseRules : Rules;
  pd_ignore : list string
}.

Record RepoSettings := {
  rs_name : string;
  rs_dir : Path;
  rs_ignore : list string;
  rs_packageDefinition : RepoPackageDefinition
}.

(** The methods of [PackageManager] that [addRepository] binds as
    listeners, and a listener the caller of the library attached, which is
    taken to return normally and to leave the objects alone. *)
Inductive Listener :=
| bound_onRepoError
| bound_onRepoReady
| bound_onPackageAdded
| external.

Module Repository.
Record t := mk {
  _hasCompletedScan : bool;                (* undefined is [false] *)
  _walkQueue : EEQueue.t;
  name : string;
  lastscan : option nat;
  dir : Path;
  packageDefinition : RepoPackageDefinition;
  packages : gmap string ref;
  invalidPackages : list ref;
  listeners : list (string * Listener)
}.

Definition set_hasCompletedScan v r :=
  mk v (_walkQueue r) (name r) (lastscan r) (dir r) (packageDefinition r)
     (packages r) (invalidPackages r) (listeners r).
Definition set_walkQueue v r :=
  mk (_hasCompletedScan r) v (name r) (lastscan r) (dir r) (packageDefinition r)
     (packages r) (invalidPackages r) (listeners r).
Definition set_lastscan v r :=
  mk (_hasCompletedScan r) (_walkQueue r) (name r) v (dir r) (packageDefinition r)
     (packages r) (invalidPackages r) (listeners r).
Definition set_packages v r :=
  mk (_hasCompletedScan r) (_walkQueue r) (name r) (lastscan r) (dir r) (packageDefinition r)
     v (invalidPackages r) (listeners r).
Definition set_invalidPackages v r :=
  mk (_hasCompletedScan r) (_walkQueue r) (name r) (lastscan r) (dir r) (packageDefinition r)
     (packages r) v (listeners r).
Definition set_listeners v r :=
  mk (_hasCompletedScan r) (_walkQueue r) (name r) (lastscan r) (dir r) (packageDefinition r)
     (packages r) (invalidPackages r) v.
End Repository.

(** ** Events *)

Inductive Source :=
| from_package (pkg : ref)
| from_queue
| from_repository (name : string)
| from_manager.

Inductive Arg :=
| an_error (e : Error)
| a_package (pkg : ref)
| a_repository (name : string)
| an_item (file : Path)
| details (manager : bool) (repository : option string) (package : option ref).

Record Event := emitted {
  source : Source;
  event : string;
  args : list Arg
}.

Global Instance Source_eq_dec : EqDecision Source.
Proof. solve_decision. Defined.
Global Instance Arg_eq_dec : EqDecision Arg.
Proof. solve_decision. Defined.
Global Instance Event_eq_dec : EqDecision Event.
Proof. solve_decision. Defined.

Inductive LogEntry :=
| log_error (e : Error)                      (* console.log(err) *)
| log_package_added (pkg : ref).             (* console.log(`New package added: ...`) *)

(** ** The state a scan runs in *)

Record State := mkState {
  this : Repository.t;
  heap : list Package.t;
  trace : list Event;
  console : list LogEntry;
  clock : nat;
  (* the event names for which the caller attached a listener to the manager *)
  manager_listens : list string
}.

Definition set_this v s :=
  mkState v (heap s) (trace s) (console s) (clock s) (manager_listens s).
Definition set_heap v s :=
  mkState (this s) v (trace s) (console s) (clock s) (manager_listens s).
Definition set_trace v s :=
  mkState (this s) (heap s) v (console s) (clock s) (manager_listens s).
Definition set_console v s :=
  mkState (this s) (heap s) (trace s) v (clock s) (manager_listens s).
Definition set_clock v s :=
  mkState (this s) (heap s) (trace s) (console s) v (manager_listens s).

(** What a method of [Package] that raises no event can touch: its own
    object and the console. *)
Record Frame := mkFrame {
  self : Package.t;
  stdout : list LogEntry
}.

Definition update_self (f : Package.t -> Package.t) : M Frame unit :=
  modify (fun fr => mkFrame (f (self fr)) (stdout fr)).
Definition console_log (e : LogEntry) : M Frame unit :=
  modify (fun fr => mkFrame (self fr) (stdout fr ++ [e])).

(** Run a method on the object at [pkg]. *)
Definition on_package {A} (pkg : ref) (m : M Frame A) : M State A :=
  fun s =>
    match heap s !! pkg with
    | Some p =>
        let '(r, fr) := m (mkFrame p (console s)) in
        (r, set_console (stdout fr) (set_heap (<[pkg := self fr]> (heap s)) s))
    | None => (Throw (TypeError "undefined is not an object"), s)
    end.

Definition deref (pkg : ref) : M State Package.t :=
  fun s =>
    match heap s !! pkg with
    | Some p => (Ok p, s)
    | None => (Throw (TypeError "undefined is not an object"), s)
    end.

(** [new Date]: the clock is read and moves on. *)
Definition new_Date : M State nat :=
  fun s => (Ok (clock s), set_clock (Datatypes.S (clock s)) s).

Definition update_this (f : Repository.t -> Repository.t) : M State unit :=
  modify (fun s => set_this (f (this s)) s).

Definition record (e : Event) : M State unit :=
  modify (fun s => set_trace (trace s ++ [e]) s).

(** ** Package *)

(** The truth value JS gives to a string-or-undefined. *)
Definition truthy (v : option string) : bool :=
  match v with
  | Some s => negb (String.eqb s "")
  | None => false
  end.

(** get isValid *)
Definition isValid (p : Package.t) : bool :=
  if truthy (Package.guid p) && truthy (Package.name p) then true else false.

(** constructor(repoPath, packagePath) *)
Definition new_Package (repoPath packagePath : Path) : Package.t :=
  Package.mk None (path_dirname packagePath) (path_basename packagePath) false None
             (replace_first (render repoPath) (render (path_dirname packagePath)))
             None None None ∅ [].

(** The property key of a rule, as the string it is in the rules object. *)
Definition key_of (property : Property) : string :=
  match property with
  | name => "name"
  | guid => "guid"
  | other key => key
  end.

(** The members that [Package] declares with a getter and no setter. *)
Definition getter_only : list string := ["isValid"; "lastWalk"].

(** What [this[property] = v] leaves of the object, for a key that is no
    getter. The keys name, guid, _rawConfigContents and _hasWalked are
    those of the fields, [_hasWalked] being read for its truth value
    only; with any other key the assignment makes or sets a data
    property of its own. For the keys _absoluteDirPath, _configFile,
    _lastWalk, path and items, which are fields of another type here,
    and for _events and domain, which [emit] reads, that data property
    does not stand for what the code then does. *)
Definition assign (property : Property) (v : option string) (p : Package.t) : Package.t :=
  if String.eqb (key_of property) "name" then Package.set_name v p
  else if String.eqb (key_of property) "guid" then Package.set_guid v p
  else if String.eqb (key_of property) "_rawConfigContents"
  then Package.set_rawConfigContents v p
  else if String.eqb (key_of property) "_hasWalked"
  then Package.set_hasWalked (truthy v) p
  else Package.set_others (<[key_of property := v]> (Package.others p)) p.

(** [this[property] = v]: the code is strict, so that assigning to a
    member that has only a getter throws. *)
Definition assign_to (property : Property) (v : option string) : M Frame unit :=
  if bool_decide (key_of property ∈ getter_only)
  then throw (TypeError ("Cannot set property " +:+ key_of property
                         +:+ " of #<Package> which has only a getter"))
  else update_self (assign property v).

(** [this[key](...)] for a method that [Package] inherits: a data
    property of that name hides the method and cannot be called. *)
Definition method {A} (key : string) (m : M Frame A) : M Frame A :=
  p <- gets self ;;
  if bool_decide (is_Some (Package.others p !! key))
  then throw (TypeError ("this." +:+ key +:+ " is not a function"))
  else m.

Section PackageMethods.
Context `{Platform}.
(** the filesystem snapshot, as seen from the root *)
Variable fs : Node.

(** subject.match(pattern) with a string pattern: an expression without
    flags is compiled from it. *)
Definition String_match {St} (subject pattern : string)
  : M St (option (list (option string))) :=
  match new_RegExp pattern "" with
  | None => throw (SyntaxError pattern)
  | Some re => ret (re subject)
  end.

Definition _readConfigFile : M Frame bool :=
  p <- gets self ;;
  let absolutePath := path_join (Package._absoluteDirPath p) (Package._configFile p) in
  doesPathExists <- doesPathExist (resolve fs absolutePath) ;;
  when (negb (truthy (Package._rawConfigContents p)) && doesPathExists)
       (contents <- readFileAsync (resolve fs absolutePath) ;;
        update_self (Package.set_rawConfigContents (Some contents))) ;;;
  (* this._rawConfigContents !== null: the field is undefined or a string *)
  ret true.

(** [stack] bounds the depth of nested calls: the engine throws a
    RangeError when its call stack is full. The guard
    [if (this._rawConfigContents === null) return] never fires, the field
    being undefined or a string. *)
Fixpoint _parse (stack : nat) (rules : Rules) : M Frame unit :=
  match stack with
  | 0 => throw RangeError
  | Datatypes.S stack' =>
      for_of rules (fun '(property, rule) =>
        match rule with
        | Group _ =>
            (* this[property] = await this._parse(rules); continue; *)
            method "_parse" (_parse stack' rules) ;;;
            assign_to property None
        | Pattern source =>
            match new_RegExp source "i" with
            | None => throw (SyntaxError source)
            | Some pattern =>
                p <- gets self ;;
                match Package._rawConfigContents p with
                | None => throw (TypeError "Cannot read property 'match' of undefined")
                | Some contents =>
                    match pattern contents with
                    | None => ret tt
                    | Some matches =>
                        match matches !! 1 with
                        | Some (Some group) =>
                            assign_to property (Some (trim group))
                        | _ => throw (TypeError "Cannot read property 'trim' of undefined")
                        end
                    end
                end
            end
        end)
  end.

(** this.items.push(item) *)
Definition items_push (item : string) : M Frame unit :=
  p <- gets self ;;
  match Package.items p with
  | Some l => update_self (Package.set_items (Some (l ++ [item])))
  | None => throw (TypeError "Cannot read property 'push' of undefined")
  end.

(** [_search(directory, filter)]; [node] is what the filesystem holds at
    [directory], so that readdir and stat are answered by it and by its
    children. *)
Fixpoint _search (node : Node) (directory : Path) (filter : string) {struct node}
  : M Frame unit :=
  update_self (Package.set_items (Some [])) ;;;
  try_catch
    (match node with
     | Dir files =>
         for_of files (fun '(file, child) =>
           let fullPath := path_resolve directory file in
           is_dir <- isDirectory child ;;
           if is_dir : bool then _search child fullPath filter
           else
             m <- String_match (render fullPath) filter ;;
             match m with
             | None => ret tt
             | Some _ =>
                 p <- gets self ;;
                 let itemRelativePath :=
                   replace_first (render (Package._absoluteDirPath p)) (render fullPath) in
                 items_push itemRelativePath
             end)
     | _ => files <- readdirAsync node ;; ret tt
     end)
    (fun err => console_log (log_error err)).

(** The call [this._search()] of [walk]: the directory defaults to the
    package directory, the filter to ".+". *)
Definition _search0 : M Frame unit :=
  method "_search"
    (p <- gets self ;;
     _search (resolve fs (Package._absoluteDirPath p)) (Package._absoluteDirPath p) ".+").
End PackageMethods.

(** ** EventEmitter *)

(** With no listener for "error", [emit] throws its first argument. *)
Definition unhandled (a : list Arg) : Error :=
  match a with
  | an_error e :: _ => e
  | _ => TypeError "Unhandled error"
  end.

Definition listeners_for {L} (ev : string) (table : list (string * L)) : list L :=
  (filter (fun l => String.eqb l.1 ev = true) table).*2.

(** The listeners registered for [ev] run in the order of registration;
    an exception of one of them leaves [emit]. *)
Definition dispatch {L} (ev : string) (a : list Arg) (table : list (string * L))
    (call : L -> list Arg -> M State unit) : M State unit :=
  match listeners_for ev table with
  | [] => if String.eqb ev "error" then throw (unhandled a) else ret tt
  | ls => for_of ls (fun l => call l a)
  end.

(** ** PackageManager: the listeners of [addRepository] *)

Definition emit_manager (ev : string) (a : list Arg) : M State unit :=
  record (emitted from_manager ev a) ;;;
  listens <- gets manager_listens ;;
  dispatch ev a (map (fun e => (e, tt)) listens) (fun _ _ => ret tt).

Definition _onRepoReady (repo : string) : M State unit :=
  emit_manager "repoReady" [details true (Some repo) None].

Definition _onRepoError (err : Error) : M State unit :=
  emit_manager "error" [an_error err].

(** [details = details || {}; details["manager"] = this] *)
Definition _onPackageAdded (d : option Arg) : M State unit :=
  match d with
  | Some (details _ repository package) =>
      emit_manager "packageAdded" [details true repository package]
  | _ => emit_manager "packageAdded" [details true None None]
  end.

(** A listener is called with the arguments of [emit]. [addRepository]
    registers each of its listeners for one event; only the arguments of
    the events of [Repository] are considered. *)
Definition call_listener (l : Listener) (a : list Arg) : M State unit :=
  match l, a with
  | bound_onRepoError, an_error err :: _ => _onRepoError err
  | bound_onRepoReady, a_repository repo :: _ => _onRepoReady repo
  | bound_onPackageAdded, _ => _onPackageAdded (head a)
  | external, _ => ret tt
  | _, _ => throw (TypeError "listener called with arguments of another event")
  end.

(** ** Repository *)

(** constructor(options); [ignore] is declared and never assigned. *)
Definition new_Repository (options : RepoSettings) : Repository.t :=
  Repository.mk false (EEQueue.mk [] 0) (rs_name options) None (rs_dir options)
                (rs_packageDefinition options) ∅ [] [].

(** The members every plain object inherits from Object.prototype: reading
    one of these keys on [packages] gives a function or an object. *)
Definition Object_prototype : list string :=
  [ "constructor"; "__defineGetter__"; "__defineSetter__"; "hasOwnProperty";
    "__lookupGetter__"; "__lookupSetter__"; "isPrototypeOf";
    "propertyIsEnumerable"; "toString"; "valueOf"; "__proto__";
    "toLocaleString" ].

(** The truth value of [table[key]] for a hashtable of objects. *)
Definition truthy_at {V} (table : gmap string V) (key : string) : bool :=
  bool_decide (is_Some (table !! key)) || bool_decide (key ∈ Object_prototype).

(** What reading [table[key]] gives for a hashtable of objects: an entry
    of its own, a member inherited from Object.prototype, or undefined. *)
Inductive Member (V : Type) :=
| undefined
| own (v : V)
| inherited (key : string).
Arguments undefined {V}.
Arguments own {V} v.
Arguments inherited {V} key.

Definition member_at {V} (table : gmap string V) (key : string) : Member V :=
  match table !! key with
  | Some v => own v
  | None => if bool_decide (key ∈ Object_prototype) then inherited key else undefined
  end.

(** The property key a string-or-undefined is converted to. *)
Definition property_key (v : option string) : string :=
  match v with
  | Some s => s
  | None => "undefined"
  end.

Definition emit_repository (ev : string) (a : list Arg) : M State unit :=
  r <- gets this ;;
  record (emitted (from_repository (Repository.name r)) ev a) ;;;
  dispatch ev a (Repository.listeners r) call_listener.

Definition invalidPackages_push (pkg : ref) : M State unit :=
  update_this (fun r =>
    Repository.set_invalidPackages (Repository.invalidPackages r ++ [pkg]) r).

Definition _addPkg (pkg : ref) : M State unit :=
  p <- deref pkg ;;
  r <- gets this ;;
  if truthy_at (Repository.packages r) (property_key (Package.guid p)) then
    invalidPackages_push pkg ;;;
    emit_repository "error" [an_error RepositoryNotUniquePackageError; a_package pkg]
  else
    update_this (fun r =>
      Repository.set_packages
        (<[property_key (Package.guid p) := pkg]> (Repository.packages r)) r) ;;;
    emit_repository "packageAdded" [details false (Some (Repository.name r)) (Some pkg)] ;;;
    modify (fun s => set_console (console s ++ [log_package_added pkg]) s).

Definition _onWalkQueueEmptied : M State unit :=
  r <- gets this ;;
  when (negb (Repository._hasCompletedScan r))
       (emit_repository "ready" [a_repository (Repository.name r)]) ;;;
  update_this (Repository.set_hasCompletedScan true) ;;;
  now <- new_Date ;;
  update_this (Repository.set_lastscan (Some now)).

Definition _onPkgCreated (pkg : ref) : M State unit :=
  _addPkg pkg.

Definition _onPkgError (err : Error) (pkg : ref) : M State unit :=
  p <- deref pkg ;;
  when (negb (isValid p)) (invalidPackages_push pkg) ;;;
  emit_repository "error" [an_error err].

(** The listeners of a package are those of [_walkPkgDir], each registered
    for the event whose arguments it expects. *)
Definition call_repository_listener (l : RepositoryListener) (a : list Arg) : M State unit :=
  match l, a with
  | bound_onPkgError, [an_error err; a_package pkg] => _onPkgError err pkg
  | bound_onPkgCreated, a_package pkg :: _ => _onPkgCreated pkg
  | _, _ => throw (TypeError "listener called with arguments of another event")
  end.

(** [this.emit(ev, ...)] of the [Package] at [pkg]: the method is that of
    EventEmitter unless a data property named emit hides it. *)
Definition emit_package (pkg : ref) (ev : string) (a : list Arg) : M State unit :=
  p <- deref pkg ;;
  if bool_decide (is_Some (Package.others p !! "emit"))
  then throw (TypeError "this.emit is not a function")
  else
    record (emitted (from_package pkg) ev a) ;;;
    dispatch ev a (Package.listeners p) call_repository_listener.

(** [on(ev, listener)] of the [Package] at [pkg] *)
Definition package_on (pkg : ref) (ev : string) (l : RepositoryListener) : M State unit :=
  on_package pkg
    (update_self (fun p => Package.set_listeners (Package.listeners p ++ [(ev, l)]) p)).

(** ** EEQueue, as the [_walkQueue] of the repository *)

Definition update_walkQueue (f : EEQueue.t -> EEQueue.t) : M State unit :=
  update_this (fun r => Repository.set_walkQueue (f (Repository._walkQueue r)) r).

Definition walkQueue_length : M State nat :=
  gets (fun s => length (EEQueue.queue (Repository._walkQueue (this s)))).

Fixpoint times {St} (n : nat) (m : M St unit) : M St unit :=
  match n with
  | 0 => ret tt
  | Datatypes.S n' => m ;;; times n' m
  end.

(** [emit] of the queue: only "emptied" ever has listeners, the one-shot
    ones of [scan], which are [async] and are removed as they are called. *)
Definition emit_queue (ev : string) (a : list Arg) : M State unit :=
  record (emitted from_queue ev a) ;;;
  if String.eqb ev "emptied" then
    n <- gets (fun s => EEQueue.once_emptied (Repository._walkQueue (this s))) ;;
    update_walkQueue (fun q => EEQueue.mk (EEQueue.queue q) 0) ;;;
    times n (detached _onWalkQueueEmptied)
  else ret tt.

(** once("emptied", listener) *)
Definition once_emptied : M State unit :=
  update_walkQueue (fun q => EEQueue.mk (EEQueue.queue q) (Datatypes.S (EEQueue.once_emptied q))).

Definition push (item : Path) : M State unit :=
  update_walkQueue (fun q => EEQueue.mk (EEQueue.queue q ++ [item]) (EEQueue.once_emptied q)) ;;;
  emit_queue "enqueued" [an_item item].

(** [queue.shift()] gives undefined on an empty queue. *)
Definition next : M State (option Path) :=
  item <- gets (fun s => head (EEQueue.queue (Repository._walkQueue (this s)))) ;;
  update_walkQueue (fun q => EEQueue.mk (tail (EEQueue.queue q)) (EEQueue.once_emptied q)) ;;;
  emit_queue "dequeued" [] ;;;
  len <- walkQueue_length ;;
  when (bool_decide (len = 0)) (emit_queue "emptied" []) ;;;
  ret item.

(** ** The scan *)

Section Scan.
Context `{Platform}.
Variable fs : Node.
(** the stack depth left to [_parse] when [walk] calls it *)
Variable stack : nat.

(** walk(rules). [_readConfigFile] and [_parse] are called as the
    methods of the class: [_walkPkgDir] calls [walk] on an object it has
    just made, which has no data property yet. [_search] is called after
    the rules have been applied, and is looked up then. *)
Definition walk (pkg : ref) (rules : Rules) : M State unit :=
  on_package pkg (_readConfigFile fs) ;;;
  on_package pkg (_parse stack rules) ;;;
  on_package pkg (_search0 fs) ;;;
  p <- deref pkg ;;
  if negb (isValid p) then
    emit_package pkg "error" [an_error PackageMissingRequirementError; a_package pkg]
  else
    (if Package._hasWalked p then
       emit_package pkg "updated" [a_package pkg]
     else
       on_package pkg (update_self (Package.set_hasWalked true)) ;;;
       emit_package pkg "created" [a_package pkg]) ;;;
    now <- new_Date ;;
    on_package pkg (update_self (Package.set_lastWalk (Some now))).

(** new Package(...): the object gets the next free address. *)
Definition allocate (p : Package.t) : M State ref :=
  fun s => (Ok (length (heap s)), set_heap (heap s ++ [p]) s).

(** [file] is what [next()] returned. *)
Definition _walkPkgDir (file : option Path) : M State unit :=
  match file with
  | None => throw (TypeError "Path must be a string. Received undefined")
  | Some file =>
      r <- gets this ;;
      repoPackage <- allocate (new_Package (Repository.dir r) file) ;;
      package_on repoPackage "error" bound_onPkgError ;;;
      package_on repoPackage "created" bound_onPkgCreated ;;;
      walk repoPackage (configParseRules (Repository.packageDefinition r))
  end.

(** [while (this._walkQueue.length) { ... }]; [fuel] bounds the number
    of iterations. The result tells how the loop ended: [true] when its
    condition failed, [false] when the bound was reached first. *)
Fixpoint while_walkQueue (fuel : nat) : M State bool :=
  len <- walkQueue_length ;;
  if bool_decide (len = 0) then ret true
  else
    match fuel with
    | 0 => ret false
    | Datatypes.S fuel' =>
        dir <- next ;;
        _walkPkgDir dir ;;;
        while_walkQueue fuel'
    end.

(** No iteration adds to the queue, so that its length at entry bounds
    the iterations (lemma [processWalkQueue_bound]). *)
Definition _processWalkQueue : M State unit :=
  len <- walkQueue_length ;;
  while_walkQueue len ;;;
  ret tt.

(** [this.packageDefinition.configFileName || "README.md"] *)
Definition metadata_filter (r : Repository.t) : string :=
  if truthy (configFileName (Repository.packageDefinition r))
  then property_key (configFileName (Repository.packageDefinition r))
  else "README.md".

(** [_populateWalkQueue(directory, filter)]; [node] is what the
    filesystem holds at [directory]. The parameter [filter] is
    overwritten on entry. *)
Fixpoint _populateWalkQueue (node : Node) (directory : Path) {struct node}
  : M State unit :=
  r <- gets this ;;
  let filter := metadata_filter r in
  try_catch
    (match node with
     | Dir files =>
         for_of files (fun '(file, child) =>
           let fullName := path_resolve directory file in
           is_dir <- isDirectory child ;;
           if is_dir : bool then _populateWalkQueue child fullName
           else
             m <- String_match (render fullName) filter ;;
             match m with
             | None => ret tt
             | Some _ => push fullName
             end)
     | _ => files <- readdirAsync node ;; ret tt
     end)
    (fun err => emit_repository "error" [an_error err]).

Definition scan : M State unit :=
  r <- gets this ;;
  emit_repository "scanning" [a_repository (Repository.name r)] ;;;
  once_emptied ;;;
  _populateWalkQueue (resolve fs (Repository.dir r)) (Repository.dir r) ;;;
  _processWalkQueue.
End Scan.

(** ** PackageManager *)

Module PackageManager.
(** The manager with its repositories and the world they share. *)
Record t := mk {
  _repos : gmap string Repository.t;
  heap : list Package.t;
  trace : list Event;
  console : list LogEntry;
  clock : nat;
  listens : list string
}.
End PackageManager.

(** [new PackageManager()], with the event names the caller listens for *)
Definition new_PackageManager (listens : list string) : PackageManager.t :=
  PackageManager.mk ∅ [] [] [] 0 listens.

(** The state in which a method of the repository [r] of [m] runs, and the
    manager after it has run. *)
Definition enter (m : PackageManager.t) (r : Repository.t) : State :=
  mkState r (PackageManager.heap m) (PackageManager.trace m) (PackageManager.console m)
          (PackageManager.clock m) (PackageManager.listens m).

Definition leave (m : PackageManager.t) (repo : string) (s : State) : PackageManager.t :=
  PackageManager.mk (<[repo := this s]> (PackageManager._repos m))
                    (heap s) (trace s) (console s) (clock s) (manager_listens s).

(** [on(ev, listener)] of a repository *)
Definition repository_on (ev : string) (l : Listener) (r : Repository.t) : Repository.t :=
  Repository.set_listeners (Repository.listeners r ++ [(ev, l)]) r.

(** [this._repos[repo.name] = repo] and the three [on] calls. The
    assignment makes or replaces an entry of the table for every name
    but __proto__, which would replace the prototype of the table
    instead: the table [_repos] of the model describes the managers that
    have no repository of that name. *)
Definition addRepository (options : RepoSettings) : M PackageManager.t unit :=
  modify (fun m =>
    let repo := new_Repository options in
    let repo := repository_on "error" bound_onRepoError repo in
    let repo := repository_on "ready" bound_onRepoReady repo in
    let repo := repository_on "addedPackage" bound_onPackageAdded repo in
    PackageManager.mk (<[Repository.name repo := repo]> (PackageManager._repos m))
                      (PackageManager.heap m) (PackageManager.trace m)
                      (PackageManager.console m) (PackageManager.clock m)
                      (PackageManager.listens m)).

(** [return this._repos[name]]: for the name of a member that the table
    inherits, the result is that member and no repository. *)
Definition getRepository (repo : string) : M PackageManager.t (Member Repository.t) :=
  gets (fun m => member_at (PackageManager._repos m) repo).

(** [return this._repos[repo].invalidPackages]: an inherited member has
    no such property and the result is undefined ([None]). *)
Definition getRepositoryInvalidPackages (repo : string)
  : M PackageManager.t (option (list ref)) :=
  r <- getRepository repo ;;
  match r with
  | own r => ret (Some (Repository.invalidPackages r))
  | inherited _ => ret None
  | undefined => throw (TypeError "Cannot read property 'invalidPackages' of undefined")
  end.

(** [!!this._repos[repoName]] *)
Definition _doesRepoExist (repoName : string) : M PackageManager.t bool :=
  gets (fun m => truthy_at (PackageManager._repos m) repoName).

Section Manager.
Context `{Platform}.
Variable fs : Node.
Variable stack : nat.

(** [if (this._doesRepoExist(repo)) this._repos[repo].scan()]: the scan
    is not awaited, so that its rejection is nobody's. The promise of
    [scanRepository] settles before the scan has gone past its first
    [await]; the state given here is the one the scan it started ends
    in, by the convention that a scan is followed from start to end. *)
Definition scanRepository (repo : string) : M PackageManager.t unit :=
  exists_ <- _doesRepoExist repo ;;
  if exists_ : bool then
    r <- getRepository repo ;;
    match r with
    | own r => modify (fun m => leave m repo (scan fs stack (enter m r)).2)
    | inherited _ => throw (TypeError "this._repos[repo].scan is not a function")
    | undefined => throw (TypeError "Cannot read property 'scan' of undefined")
    end
  else ret tt.
End Manager.

(** ** A platform to run examples on

    A small regular-expression engine, exact on the fragment the examples
    use and refusing every other pattern: a pattern is a run of literal
    characters, such a run followed by one greedy any-characters group, or
    the pattern of [_search0]. Only ASCII is considered. *)
Module Toy.
Definition chars (s : string) : list ascii := list_ascii_of_string s.
Definition text (l : list ascii) : string := string_of_list_ascii l.

Definition is_line_terminator (c : ascii) : bool :=
  bool_decide (nat_of_ascii c = 10) || bool_decide (nat_of_ascii c = 13).

Definition is_white_space (c : ascii) : bool :=
  let n := nat_of_ascii c in
  bool_decide (9 ≤ n ≤ 13)%nat || bool_decide (n = 32).

(** a character that stands for itself in a pattern *)
Definition is_literal (c : ascii) : bool :=
  let n := nat_of_ascii c in
  bool_decide (48 ≤ n ≤ 57)%nat || bool_decide (65 ≤ n ≤ 90)%nat
  || bool_decide (97 ≤ n ≤ 122)%nat
  || bool_decide (n = 32) || bool_decide (n = 58) || bool_decide (n = 61)
  || bool_decide (n = 95).

Definition lower (c : ascii) : ascii :=
  let n := nat_of_ascii c in
  if bool_decide (65 ≤ n ≤ 90)%nat then ascii_of_nat (n + 32) else c.

Definition same (ignore_case : bool) (a b : ascii) : bool :=
  if ignore_case then bool_decide (lower a = lower b) else bool_decide (a = b).

(** [subject] starts with [literal]: the text matched and what follows *)
Fixpoint starts_with (ignore_case : bool) (literal subject : list ascii)
  : option (list ascii * list ascii) :=
  match literal, subject with
  | [], _ => Some ([], subject)
  | l :: literal', c :: subject' =>
      if same ignore_case l c then
        match starts_with ignore_case literal' subject' with
        | Some (m, rest) => Some (c :: m, rest)
        | None => None
        end
      else None
  | _ :: _, [] => None
  end.

(** the leftmost occurrence of [literal] in [subject] *)
Fixpoint search (ignore_case : bool) (literal subject : list ascii)
  : option (list ascii * list ascii) :=
  match starts_with ignore_case literal subject with
  | Some found => Some found
  | None =>
      match subject with
      | [] => None
      | _ :: subject' => search ignore_case literal subject'
      end
  end.

Fixpoint line (subject : list ascii) : list ascii :=
  match subject with
  | [] => []
  | c :: subject' => if is_line_terminator c then [] else c :: line subject'
  end.

Fixpoint skip_terminators (subject : list ascii) : list ascii :=
  match subject with
  | [] => []
  | c :: subject' => if is_line_terminator c then skip_terminators subject' else subject
  end.

Definition group : list ascii := chars "(.*)".

Definition exec (ignore_case : bool) (source : list ascii) (subject : string)
  : option (option (list (option string))) :=
  if bool_decide (source = chars ".+") then
    Some (match line (skip_terminators (chars subject)) with
          | [] => None
          | l => Some [Some (text l)]
          end)
  else if forallb is_literal source then
    Some (match search ignore_case source (chars subject) with
          | Some (m, _) => Some [Some (text m)]
          | None => None
          end)
  else
    let literal := take (length source - length group) source in
    if forallb is_literal literal && bool_decide (drop (length literal) source = group) then
      Some (match search ignore_case literal (chars subject) with
            | Some (m, rest) => Some [Some (text (m ++ line rest)); Some (text (line rest))]
            | None => None
            end)
    else None.

Definition new_RegExp (source flags : string)
  : option (string -> option (list (option string))) :=
  let ignore_case := String.eqb flags "i" in
  if String.eqb flags "" || ignore_case then
    match exec ignore_case (chars source) "" with
    | Some _ => Some (fun subject => default None (exec ignore_case (chars source) subject))
    | None => None
    end
  else None.

Fixpoint trim_start (l : list ascii) : list ascii :=
  match l with
  | [] => []
  | c :: l' => if is_white_space c then trim_start l' else l
  end.

Definition trim (s : string) : string :=
  text (reverse (trim_start (reverse (trim_start (chars s))))).

Definition platform : Platform := Build_Platform new_RegExp trim.
End Toy.

(** ** Example trees *)

Definition nl : string := String (ascii_of_nat 10) "".

Definition rules_name_guid : Rules :=
  [(name, Pattern "name=(.*)"); (guid, Pattern "guid=(.*)")].

Definition definition_PACKAGE (rules : Rules) : RepoPackageDefinition :=
  Build_RepoPackageDefinition (Some "PACKAGE") rules [].

Definition settings_main (rules : Rules) : RepoSettings :=
  Build_RepoSettings "main" ["repo"] [] (definition_PACKAGE rules).

(** A repository on its own: the listeners [addRepository] gives it, and a
    caller that listens for the manager's "error". *)
Definition managed (options : RepoSettings) : Repository.t :=
  repository_on "addedPackage" bound_onPackageAdded
    (repository_on "ready" bound_onRepoReady
       (repository_on "error" bound_onRepoError (new_Repository options))).

Definition initial (r : Repository.t) (listens : list string) : State :=
  mkState r [] [] [] 0 listens.

(** /repo/alpha/PACKAGE and /repo/beta/PACKAGE, with distinct identifiers *)
Definition tree_alpha_beta : Node :=
  Dir [("repo", Dir [
    ("alpha", Dir [("PACKAGE", File ("Name=Alpha" +:+ nl +:+ "Guid= A1 " +:+ nl))]);
    ("beta", Dir [("PACKAGE", File ("name=Beta" +:+ nl +:+ "guid=B2"));
                  ("notes", File "text")])])].

(** two packages that declare the identifier DUP *)
Definition tree_dup : Node :=
  Dir [("repo", Dir [
    ("first", Dir [("PACKAGE", File ("name=One" +:+ nl +:+ "guid=DUP"))]);
    ("second", Dir [("PACKAGE", File ("name=Two" +:+ nl +:+ "guid=DUP"))])])].

(** a metadata file without a name *)
Definition tree_nameless : Node :=
  Dir [("repo", Dir [("anon", Dir [("PACKAGE", File "guid=N0")])])].

(** a package directory with a file next to a sub-directory *)
Definition tree_nested : Node :=
  Dir [("repo", Dir [
    ("pkg", Dir [("PACKAGE", File ("name=P" +:+ nl +:+ "guid=G"));
                 ("a", File "a");
                 ("sub", Dir [("b", File "b")]);
                 ("c", File "c")])])].


(** no file called PACKAGE at all *)
Definition tree_no_candidate : Node :=
  Dir [("repo", Dir [("docs", Dir [("notes", File "text")]); ("LICENSE", File "MIT")])].

(** rules with a nested group *)
Definition rules_nested : Rules :=
  [(name, Pattern "name=(.*)"); (other "info", Group [(guid, Pattern "guid=(.*)")])].

(** the frame of the package of /repo/pkg/PACKAGE once its metadata is read *)
Definition frame_read (contents : string) : Frame :=
  mkFrame (Package.set_rawConfigContents (Some contents)
             (new_Package ["repo"] ["repo"; "pkg"; "PACKAGE"])) [].

(** the manager of one repository, whose caller listens for "error" *)
Definition manager_main : PackageManager.t :=
  (addRepository (settings_main rules_name_guid) (new_PackageManager ["error"])).2.

(** * Vocabulary of the properties *)

(** ** The keys of the rules

    [this[property] = value] makes or sets a data property that nothing
    else reads or calls when [property] names no member that the object
    has or inherits. The members are the fields, accessors and methods of
    [Package], those of EventEmitter, and those of Object.prototype. *)
Definition Package_members : list string :=
  [ "_rawConfigContents"; "_absoluteDirPath"; "_configFile"; "_hasWalked"; "_lastWalk";
    "path"; "name"; "guid"; "items";
    "isValid"; "lastWalk"; "walk"; "_parse"; "_search"; "_readConfigFile" ].

Definition EventEmitter_members : list string :=
  [ "domain"; "_events"; "_eventsCount"; "_maxListeners";
    "setMaxListeners"; "getMaxListeners"; "emit"; "addListener"; "on";
    "prependListener"; "once"; "prependOnceListener"; "removeListener"; "off";
    "removeAllListeners"; "listeners"; "rawListeners"; "listenerCount"; "eventNames" ].

(** A key whose assignment is that of a field of its own: the name, the
    identifier, or a key that names no member. *)
Definition plain (property : Property) : bool :=
  match property with
  | name | guid => true
  | other key =>
      bool_decide (key ∉ Package_members ++ EventEmitter_members ++ Object_prototype)
  end.

(** Rules whose keys are all plain. *)
Definition plain_rules (rules : Rules) : bool :=
  forallb (fun r => plain r.1) rules.

(** The rules of the repository are plain. *)
Definition plainly_configured (s : State) : Prop :=
  plain_rules (configParseRules (Repository.packageDefinition (this s))) = true.

(** No data property that the rules gave the package hides a member of
    the object. *)
Definition unshadowed (p : Package.t) : Prop :=
  ∀ key, is_Some (Package.others p !! key) → plain (other key) = true.

(** The events of a trace with a given emitter and name. *)
Definition events_of (src : Source) (ev : string) (t : list Event) : list Event :=
  filter (fun e => source e = src ∧ event e = ev) t.

(** What a computation appended to the trace. *)
Definition appended {A} (m : M State A) (s : State) : list Event :=
  drop (length (trace s)) (trace (m s).2).

(** An invariant of the state that a computation keeps, however it ends. *)
Definition stable {St A} (I : St → Prop) (m : M St A) : Prop :=
  ∀ s, I s → I (m s).2.

Definition from_the_manager (e : Event) : Prop := source e = from_manager.

(** Only the trace changed, by the events [t]. *)
Definition traced (s : State) (t : list Event) : State :=
  set_trace (trace s ++ t) s.

(** The listeners [_walkPkgDir] registers, and the package it builds. *)
Definition listeners_of_walkPkgDir : list (string * RepositoryListener) :=
  [("error", bound_onPkgError); ("created", bound_onPkgCreated)].

Definition discovered (repoPath file : Path) : Package.t :=
  Package.set_listeners listeners_of_walkPkgDir (new_Package repoPath file).

(** What the methods of [Package] that raise no event leave alone,
    whatever the rules. *)
Definition untouched (p : Package.t) (fr : Frame) : Prop :=
  Package.listeners (self fr) = Package.listeners p
  ∧ Package._lastWalk (self fr) = Package._lastWalk p
  ∧ Package._absoluteDirPath (self fr) = Package._absoluteDirPath p
  ∧ Package._configFile (self fr) = Package._configFile p
  ∧ Package.path (self fr) = Package.path p.

(** What they leave alone when the rules are plain: no member is hidden
    and [_hasWalked] is as in [p]. *)
Definition intact (p : Package.t) (fr : Frame) : Prop :=
  unshadowed (self fr) ∧ Package._hasWalked (self fr) = Package._hasWalked p.

Definition push_invalid (pkg : ref) (r : Repository.t) : Repository.t :=
  Repository.set_invalidPackages (Repository.invalidPackages r ++ [pkg]) r.

Definition index (key : string) (pkg : ref) (r : Repository.t) : Repository.t :=
  Repository.set_packages (<[key := pkg]> (Repository.packages r)) r.

(** The state once the object allocated by [_walkPkgDir] has become [p]. *)
Definition located (s : State) (p : Package.t) (out : list LogEntry) : State :=
  mkState (this s) (heap s ++ [p]) (trace s) out (clock s) (manager_listens s).

(** The state when [walk] is over: the time of the walk is recorded only
    if the listeners let [emit] return. *)
Definition finished (o : Result unit) (s : State) (r : Repository.t) (p : Package.t)
    (t : list Event) (out : list LogEntry) : State :=
  match o with
  | Ok _ => mkState r (heap s ++ [Package.set_lastWalk (Some (clock s)) p]) (trace s ++ t)
                    out (Datatypes.S (clock s)) (manager_listens s)
  | Throw _ => mkState r (heap s ++ [p]) (trace s ++ t) out (clock s) (manager_listens s)
  end.

(** Every entry of the index is a valid package, kept under its own
    identifier. *)
Definition index_valid (s : State) : Prop :=
  ∀ key pkg, Repository.packages (this s) !! key = Some pkg →
    ∃ p, heap s !! pkg = Some p ∧ isValid p = true ∧ Package.guid p = Some key.

(** The object [pkg] has been allocated and the index does not hold it. *)
Definition unindexed (pkg : ref) (s : State) : Prop :=
  pkg < length (heap s) ∧ ∀ key, Repository.packages (this s) !! key ≠ Some pkg.

(** A repository as the constructor leaves it, with any listeners, in a
    world where nothing has happened yet. *)
Definition fresh (options : RepoSettings) (table : list (string * Listener))
    (listens : list string) : State :=
  initial (Repository.set_listeners table (new_Repository options)) listens.

(** What a repository does, one thing after the other: whole scans, and
    the steps of the loop of [_processWalkQueue] taken one by one, so that
    the states in the middle of a scan are histories too. *)
Inductive Activity :=
| a_scan (fs : Node) (stack : nat)
| a_next
| a_walkPkgDir (fs : Node) (stack : nat) (dir : option Path).

Definition perform `{Platform} (a : Activity) : M State unit :=
  match a with
  | a_scan fs stack => scan fs stack
  | a_next => next ;;; ret tt
  | a_walkPkgDir fs stack dir => _walkPkgDir fs stack dir
  end.

Fixpoint after `{Platform} (history : list Activity) (s : State) : State :=
  match history with
  | [] => s
  | a :: rest => after rest (perform a s).2
  end.

(** The listeners [addRepository] registers. *)
Definition managed_listeners : list (string * Listener) :=
  [("error", bound_onRepoError); ("ready", bound_onRepoReady);
   ("addedPackage", bound_onPackageAdded)].

(** The listeners a repository can have: those of [addRepository] and
    those of the caller of the library. *)
Definition tame (table : list (string * Listener)) : Prop :=
  ∀ ev l, (ev, l) ∈ table → l = external ∨ (ev, l) ∈ managed_listeners.

Definition from_a_repository (e : Event) : bool :=
  match source e with
  | from_repository _ => true
  | _ => false
  end.

(** The "ready" signals of repositories in a trace. *)
Definition readies (t : list Event) : list Event :=
  filter (fun e => from_a_repository e = true ∧ event e = "ready") t.

(** The "emptied" signals of the queue in a trace. *)
Definition emptyings (t : list Event) : list Event :=
  events_of from_queue "emptied" t.

(** Since the state [s0] the index, the flag and the time of the last
    scan are as they were, and neither "ready" nor "emptied" was
    signalled. *)
Definition idle (s0 s : State) : Prop :=
  Repository.packages (this s) = Repository.packages (this s0)
  ∧ Repository.lastscan (this s) = Repository.lastscan (this s0)
  ∧ Repository._hasCompletedScan (this s) = Repository._hasCompletedScan (this s0)
  ∧ ∃ t, trace s = trace s0 ++ t ∧ readies t = [] ∧ emptyings t = [].

(** "ready" has been signalled once when [_hasCompletedScan] is set, and
    not at all when it is unset. *)
Definition ready_exactly (s : State) : Prop :=
  tame (Repository.listeners (this s))
  ∧ length (readies (trace s))
    = if Repository._hasCompletedScan (this s) then 1 else 0.

(** Since [s0], [_hasCompletedScan] has been set and the time of the last
    scan is a time since [s0]. *)
Definition drained (s0 s : State) : Prop :=
  tame (Repository.listeners (this s))
  ∧ clock s0 ≤ clock s
  ∧ (∃ t, trace s = trace s0 ++ t)
  ∧ Repository._hasCompletedScan (this s) = true
  ∧ ∃ c, Repository.lastscan (this s) = Some c ∧ clock s0 ≤ c.

(** Where a scan stands that began in [s0]: the queue has not signalled
    "emptied" since and a listener of [scan] waits for it, or the
    repository is [drained]. *)
Definition draining (s0 s : State) : Prop :=
  tame (Repository.listeners (this s))
  ∧ clock s0 ≤ clock s
  ∧ ∃ t, trace s = trace s0 ++ t
         ∧ ((emptyings t = [] ∧ 1 ≤ EEQueue.once_emptied (Repository._walkQueue (this s)))
            ∨ (Repository._hasCompletedScan (this s) = true
               ∧ ∃ c, Repository.lastscan (this s) = Some c ∧ clock s0 ≤ c)).

(** An event that is no signal of a package and no "packageAdded" of a
    repository. *)
Definition calm (e : Event) : Prop :=
  match source e with
  | from_package _ => False
  | from_repository _ => event e ≠ "packageAdded"
  | _ => True
  end.

(** Between two states the packages, the index, [invalidPackages], the
    settings and the listeners are the same, and the trace has grown by
    calm events only. *)
Definition quiet_step (s s' : State) : Prop :=
  Repository.packages (this s') = Repository.packages (this s)
  ∧ Repository.invalidPackages (this s') = Repository.invalidPackages (this s)
  ∧ Repository.name (this s') = Repository.name (this s)
  ∧ Repository.dir (this s') = Repository.dir (this s)
  ∧ Repository.packageDefinition (this s') = Repository.packageDefinition (this s)
  ∧ Repository.listeners (this s') = Repository.listeners (this s)
  ∧ manager_listens s' = manager_listens s
  ∧ heap s' = heap s
  ∧ console s' = console s
  ∧ ∃ u, trace s' = trace s ++ u ∧ Forall calm u.

(** The signals of a walk that finds a valid package whose identifier is
    taken. *)
Definition created (pkg : ref) : Event :=
  emitted (from_package pkg) "created" [a_package pkg].

Definition collision (n : string) (pkg : ref) : Event :=
  emitted (from_repository n) "error"
    [an_error RepositoryNotUniquePackageError; a_package pkg].

(** A package that read, extracted and listed, and is valid, has an
    identifier that reads as taken in [table]. *)
Definition known (table : gmap string ref) (v : Result unit * Package.t) : Prop :=
  v.1 = Ok tt → isValid v.2 = true →
  truthy_at table (property_key (Package.guid v.2)) = true.

(** Every key that reads as taken in [table] does so in the index. *)
Definition grown (table : gmap string ref) (s : State) : Prop :=
  ∀ key, truthy_at table key = true →
    truthy_at (Repository.packages (this s)) key = true.

(** The settings and the listeners are those of [s0]. *)
Definition configured (s0 s : State) : Prop :=
  Repository.name (this s) = Repository.name (this s0)
  ∧ Repository.dir (this s) = Repository.dir (this s0)
  ∧ Repository.packageDefinition (this s) = Repository.packageDefinition (this s0)
  ∧ Repository.listeners (this s) = Repository.listeners (this s0)
  ∧ manager_listens s = manager_listens s0.

(** Since [s0] the index is the same, no package was announced as added
    and none as updated, and every package that announced itself is in
    [invalidPackages], its collision signalled. *)
Definition collisions (s0 s : State) : Prop :=
  Repository.packages (this s) = Repository.packages (this s0)
  ∧ configured s0 s
  ∧ ∃ u, trace s = trace s0 ++ u
      ∧ events_of (from_repository (Repository.name (this s0))) "packageAdded" u = []
      ∧ (∀ pkg a, emitted (from_package pkg) "updated" a ∉ u)
      ∧ ∀ pkg, created pkg ∈ u →
          pkg ∈ Repository.invalidPackages (this s)
          ∧ collision (Repository.name (this s0)) pkg ∈ u.

(** Two runs of a computation from related states end alike: with the
    same result, in related states. *)
Definition rel {St A} (R : St → St → Prop) (m : M St A) : Prop :=
  ∀ s t, R s t → (m s).1 = (m t).1 ∧ R (m s).2 (m t).2.

(** Two frames of the same object. *)
Definition same_self (fr1 fr2 : Frame) : Prop := self fr1 = self fr2.

Definition walkQueue (s : State) : list Path :=
  EEQueue.queue (Repository._walkQueue (this s)).

(** Two states of a repository with the same settings and listeners and
    the same candidates in the queue. *)
Definition agree (s t : State) : Prop :=
  Repository.name (this s) = Repository.name (this t)
  ∧ Repository.dir (this s) = Repository.dir (this t)
  ∧ Repository.packageDefinition (this s) = Repository.packageDefinition (this t)
  ∧ Repository.listeners (this s) = Repository.listeners (this t)
  ∧ manager_listens s = manager_listens t
  ∧ walkQueue s = walkQueue t.

Section Vocabulary.
Context `{Platform}.
Variable fs : Node.
Variable stack : nat.

(** The loop of [_populateWalkQueue] over the entries of a directory,
    for a given filter. *)
Definition populate_entries (filter : string) (files : list (string * Node))
    (directory : Path) : M State unit :=
  for_of files (fun '(file, child) =>
    let fullName := path_resolve directory file in
    is_dir <- isDirectory child ;;
    if is_dir : bool then _populateWalkQueue child fullName
    else
      m <- String_match (render fullName) filter ;;
      match m with
      | None => ret tt
      | Some _ => push fullName
      end).

(** The scan up to the loop over the queue. *)
Definition discovery : M State unit :=
  r <- gets this ;;
  emit_repository "scanning" [a_repository (Repository.name r)] ;;;
  once_emptied ;;;
  _populateWalkQueue (resolve fs (Repository.dir r)) (Repository.dir r).

(** The first three steps of [walk], as one method. *)
Definition extraction_and_listing (rules : Rules) : M Frame unit :=
  _readConfigFile fs ;;; _parse stack rules ;;; _search0 fs.

(** [walk] once the object has read, extracted and listed. *)
Definition settle (pkg : ref) : M State unit :=
  p <- deref pkg ;;
  if negb (isValid p) then
    emit_package pkg "error" [an_error PackageMissingRequirementError; a_package pkg]
  else
    (if Package._hasWalked p then
       emit_package pkg "updated" [a_package pkg]
     else
       on_package pkg (update_self (Package.set_hasWalked true)) ;;;
       emit_package pkg "created" [a_package pkg]) ;;;
    now <- new_Date ;;
    on_package pkg (update_self (Package.set_lastWalk (Some now))).

(** What the package of [file] makes of its directory, in the state [s]. *)
Definition local_phase (s : State) (file : Path) : Result unit * Frame :=
  extraction_and_listing (configParseRules (Repository.packageDefinition (this s)))
    (mkFrame (discovered (Repository.dir (this s)) file) (console s)).

(** The same for a repository at [dir] with the rules [rules], whatever
    the console holds: how the three steps end, and the object then. *)
Definition verdict (dir : Path) (rules : Rules) (file : Path) : Result unit * Package.t :=
  let x := extraction_and_listing rules (mkFrame (discovered dir file) []) in
  (x.1, self x.2).

Definition verdict_in (s : State) (file : Path) : Result unit * Package.t :=
  verdict (Repository.dir (this s))
    (configParseRules (Repository.packageDefinition (this s))) file.

(** The signal of a walk of a package that has walked before. *)
Definition updated (pkg : ref) : Event :=
  emitted (from_package pkg) "updated" [a_package pkg].

(** The ways [_walkPkgDir] goes for a file: the outcome and the state it
    leaves. With plain rules the last two do not occur. *)
Inductive walked (s : State) (file : Path) : Result unit → State → Prop :=
| walked_aborted e fr :
    local_phase s file = (Throw e, fr) →
    walked s file (Throw e) (located s (self fr) (stdout fr))
| walked_invalid fr o t :
    local_phase s file = (Ok tt, fr) →
    isValid (self fr) = false →
    Forall from_the_manager t →
    walked s file o
      (mkState (push_invalid (length (heap s)) (this s)) (heap s ++ [self fr])
         (trace s ++
            emitted (from_package (length (heap s))) "error"
              [an_error PackageMissingRequirementError; a_package (length (heap s))]
            :: emitted (from_repository (Repository.name (this s))) "error"
                 [an_error PackageMissingRequirementError]
            :: t)
         (stdout fr) (clock s) (manager_listens s))
| walked_duplicate fr o t :
    local_phase s file = (Ok tt, fr) →
    isValid (self fr) = true →
    truthy_at (Repository.packages (this s)) (property_key (Package.guid (self fr))) = true →
    Forall from_the_manager t →
    walked s file o
      (finished o s (push_invalid (length (heap s)) (this s))
         (Package.set_hasWalked true (self fr))
         (emitted (from_package (length (heap s))) "created" [a_package (length (heap s))]
          :: emitted (from_repository (Repository.name (this s))) "error"
               [an_error RepositoryNotUniquePackageError; a_package (length (heap s))]
          :: t)
         (stdout fr))
| walked_added fr o t :
    local_phase s file = (Ok tt, fr) →
    isValid (self fr) = true →
    truthy_at (Repository.packages (this s)) (property_key (Package.guid (self fr))) = false →
    Forall from_the_manager t →
    walked s file o
      (finished o s (index (property_key (Package.guid (self fr))) (length (heap s)) (this s))
         (Package.set_hasWalked true (self fr))
         (emitted (from_package (length (heap s))) "created" [a_package (length (heap s))]
          :: emitted (from_repository (Repository.name (this s))) "packageAdded"
               [details false (Some (Repository.name (this s))) (Some (length (heap s)))]
          :: t)
         (match o with
          | Ok _ => stdout fr ++ [log_package_added (length (heap s))]
          | Throw _ => stdout fr
          end))
| walked_mute fr :
    local_phase s file = (Ok tt, fr) →
    is_Some (Package.others (self fr) !! "emit") →
    walked s file (Throw (TypeError "this.emit is not a function"))
      (located s
         (if isValid (self fr) && negb (Package._hasWalked (self fr))
          then Package.set_hasWalked true (self fr) else self fr)
         (stdout fr))
| walked_updated fr :
    local_phase s file = (Ok tt, fr) →
    isValid (self fr) = true →
    Package._hasWalked (self fr) = true →
    walked s file (Ok tt)
      (finished (Ok tt) s (this s) (self fr) [updated (length (heap s))] (stdout fr)).
End Vocabulary.


(** ** The states and files of the examples *)

Definition metadata_of (d : string) : Path := ["repo"; d; "PACKAGE"].

(** the repository "main" of [addRepository], before any scan *)
Definition fresh_main : State :=
  fresh (settings_main rules_name_guid) managed_listeners ["error"].

(** once the first of the two packages of [tree_dup] has been walked *)
Definition after_first_of_dup : State :=
  after (H:=Toy.platform) [a_walkPkgDir tree_dup 100 (Some (metadata_of "first"))] fresh_main.

(** once [tree_alpha_beta] has been scanned *)
Definition scanned_alpha_beta : State :=
  after (H:=Toy.platform) [a_scan tree_alpha_beta 100] fresh_main.


(** a repository whose directory cannot be listed *)
Definition tree_unlistable : Node :=
  Dir [("repo", UnreadableDir "EACCES")].

(** rules with one more key, the name of a method that the package
    inherits, and the repository "main" with these rules *)
Definition rules_emit : Rules :=
  rules_name_guid ++ [(other "emit", Pattern "guid=(.*)")].

Definition fresh_emit : State :=
  fresh (settings_main rules_emit) managed_listeners ["error"].
(** * Further vocabulary: what the properties below are stated with *)

(** The package [p] at [pkg] is in the index under [key]. *)
Definition kept (key : string) (pkg : ref) (p : Package.t) (s : State) : Prop :=
  Repository.packages (this s) !! key = Some pkg ∧ heap s !! pkg = Some p.

(** Every object that the repository has filed is filed once: the
    addresses in the index and in [invalidPackages] are allocated, none
    is in both, none is twice in [invalidPackages] and none is under two
    keys of the index. *)
Definition sorted_out (s : State) : Prop :=
  (∀ key pkg, Repository.packages (this s) !! key = Some pkg → pkg < length (heap s))
  ∧ Forall (fun pkg => pkg < length (heap s)) (Repository.invalidPackages (this s))
  ∧ NoDup (Repository.invalidPackages (this s))
  ∧ (∀ key pkg, Repository.packages (this s) !! key = Some pkg →
       pkg ∉ Repository.invalidPackages (this s))
  ∧ (∀ key1 key2 pkg, Repository.packages (this s) !! key1 = Some pkg →
       Repository.packages (this s) !! key2 = Some pkg → key1 = key2).

(** a package that declares the identifier toString *)
Definition tree_inherited : Node :=
  Dir [("repo", Dir [("odd", Dir [("PACKAGE", File ("name=Odd" +:+ nl +:+ "guid=toString"))])])].

(** ** Looking packages up *)

(** [Repository.getPackage(guid)]: [return this.packages[guid]] *)
Definition getPackage (guid : string) : M State (Member ref) :=
  gets (fun s => member_at (Repository.packages (this s)) guid).

(** [PackageManager.getRepositoryPackage(guid, repoName)] *)
Definition getRepositoryPackage (guid repoName : string)
  : M PackageManager.t (Member ref) :=
  repo <- getRepository repoName ;;
  match repo with
  | own repo => ret (member_at (Repository.packages repo) guid)
  | inherited _ => throw (TypeError "repo.getPackage is not a function")
  | undefined => throw (TypeError "Cannot read property 'getPackage' of undefined")
  end.

(** The object at [pkg] is in [invalidPackages] or in the index. *)
Definition filed (pkg : ref) (s : State) : Prop :=
  pkg ∈ Repository.invalidPackages (this s)
  ∨ ∃ key, Repository.packages (this s) !! key = Some pkg.

(** The object at [pkg] is the package of the metadata file [file]. *)
Definition package_of (file : Path) (pkg : ref) (s : State) : Prop :=
  ∃ p, heap s !! pkg = Some p
       ∧ Package._absoluteDirPath p = path_dirname file
       ∧ Package._configFile p = path_basename file.

(** once the candidates of [tree_alpha_beta] are in the queue *)
Definition candidates_alpha_beta : State :=
  (discovery (H:=Toy.platform) tree_alpha_beta fresh_main).2.

(** ** Who hears an error *)

(** Two states with the same listeners, of the repository and of the
    manager. *)
Definition alike (s t : State) : Prop :=
  Repository.listeners (this s) = Repository.listeners (this t)
  ∧ manager_listens s = manager_listens t.

(** The repository has the listeners of [addRepository] and somebody
    listens for the "error" of the manager. *)
Definition attentive (s : State) : Prop :=
  Repository.listeners (this s) = managed_listeners ∧ "error" ∈ manager_listens s.

(** the repository "main" of a manager nobody listens to *)
Definition deaf_main : State :=
  fresh (settings_main rules_name_guid) managed_listeners [].

(** a package directory whose PACKAGE is itself a directory, and one whose
    PACKAGE is gone by the time it is walked *)
Definition tree_PACKAGE_is_a_directory : Node :=
  Dir [("repo", Dir [("pkg", Dir [("PACKAGE", Dir [])])])].


(** with the object of a metadata file at /repo/[d]/PACKAGE allocated *)
Definition allocated (d : string) : State :=
  located fresh_main (discovered ["repo"] (metadata_of d)) [].

(** The table of the manager has the prototype of every plain object:
    no repository was added under the name __proto__. *)
Definition ordinary (m : PackageManager.t) : Prop :=
  PackageManager._repos m !! "__proto__" = None.

(** ** The rules and the fields they set *)

Definition rule_keys (rules : Rules) : list string :=
  map (fun r => key_of r.1) rules.

(** One of the two fields that [isValid] reads, and its key. *)
Definition required (which : bool) (p : Package.t) : option string :=
  if which then Package.name p else Package.guid p.

Definition required_key (which : bool) : string :=
  if which then "name" else "guid".

(** rules that extract the identifier only *)
Definition rules_guid_only : Rules := [(guid, Pattern "guid=(.*)")].

(** What a pattern rule extracts from the contents: nothing when the
    pattern does not match, the first group, trimmed, when it does; the
    constructor of the expression and [trim] on a group that is undefined
    throw. *)
Definition extract `{Platform} (contents source : string) : Result (option string) :=
  match new_RegExp source "i" with
  | None => Throw (SyntaxError source)
  | Some pattern =>
      match pattern contents with
      | None => Ok None
      | Some matches =>
          match matches !! 1 with
          | Some (Some group) => Ok (Some (trim group))
          | _ => Throw (TypeError "Cannot read property 'trim' of undefined")
          end
      end
  end.

(** What [_parse] does with one rule, [stack] being what is left for the
    call of itself. *)
Definition parse_rule `{Platform} (stack : nat) (rules : Rules) (r : Property * Rule)
  : M Frame unit :=
  let '(property, rule) := r in
  match rule with
  | Group _ => method "_parse" (_parse stack rules) ;;; assign_to property None
  | Pattern source =>
      match new_RegExp source "i" with
      | None => throw (SyntaxError source)
      | Some pattern =>
          p <- gets self ;;
          match Package._rawConfigContents p with
          | None => throw (TypeError "Cannot read property 'match' of undefined")
          | Some contents =>
              match pattern contents with
              | None => ret tt
              | Some matches =>
                  match matches !! 1 with
                  | Some (Some group) => assign_to property (Some (trim group))
                  | _ => throw (TypeError "Cannot read property 'trim' of undefined")
                  end
              end
          end
      end
  end.

(** Rules that are patterns for the name or the identifier. *)
Definition flat (rules : Rules) : Prop :=
  Forall (fun r => (r.1 = name ∨ r.1 = guid) ∧ ∃ source, r.2 = Pattern source) rules.

(** The value of a required field after the rules: that of the last of
    its rules that extracts one, else the value [before]. *)
Definition last_extracted `{Platform} (contents : string) (rules : Rules) (which : bool)
    (before : option string) : option string :=
  foldl (fun acc r =>
           match r.2 with
           | Pattern source =>
               if bool_decide (key_of r.1 = required_key which) then
                 match extract contents source with
                 | Ok (Some v) => Some v
                 | _ => acc
                 end
               else acc
           | Group _ => acc
           end) before rules.

(** ** What the walk of the tree finds *)

(** A tree in which [stat] succeeds everywhere and every directory can
    be listed. *)
Fixpoint listable (node : Node) : bool :=
  match node with
  | Dir entries => forallb (fun e => listable e.2) entries
  | File _ | UnreadableFile _ | Special => true
  | UnreadableDir _ | Broken _ => false
  end.

(** The paths below [directory] that are no directories and whose full
    name the filter accepts, depth first, each directory in the order of
    [readdir]. *)
Fixpoint candidates (accepts : string → bool) (node : Node) (directory : Path)
    {struct node} : list Path :=
  match node with
  | Dir entries =>
      flat_map (fun '(file, child) =>
                  if stats_isDirectory child
                  then candidates accepts child (directory ++ [file])
                  else if accepts (render (directory ++ [file]))
                       then [directory ++ [file]] else [])
               entries
  | _ => []
  end.

(** The state once [item] has been pushed on the queue. *)
Definition pushed (s : State) (item : Path) : State :=
  mkState
    (Repository.set_walkQueue
       (EEQueue.mk (EEQueue.queue (Repository._walkQueue (this s)) ++ [item])
                   (EEQueue.once_emptied (Repository._walkQueue (this s))))
       (this s))
    (heap s) (trace s ++ [emitted from_queue "enqueued" [an_item item]])
    (console s) (clock s) (manager_listens s).

(** Whether an expression matches. *)
Definition accepted (re : string → option (list (option string))) (subject : string) : bool :=
  bool_decide (is_Some (re subject)).

(** ** When "ready" is signalled *)

Definition ready (n : string) : Event :=
  emitted (from_repository n) "ready" [a_repository n].

(** Since [s0], "ready" has been signalled and [_hasCompletedScan] is
    set. *)
Definition announced (s0 s : State) : Prop :=
  Repository._hasCompletedScan (this s) = true
  ∧ ∃ u, trace s = trace s0 ++ u ∧ ready (Repository.name (this s0)) ∈ u.

(** a tree with one package, and the state of a first scan of it once its
    candidate is in the queue *)
Definition tree_single : Node :=
  Dir [("repo", Dir [("only", Dir [("PACKAGE", File ("name=Only" +:+ nl +:+ "guid=O1"))])])].

Definition candidates_single : State :=
  (discovery (H:=Toy.platform) tree_single fresh_main).2.

(** ** Relative paths *)


(** The repository has not completed a scan and a listener of [scan]
    waits for "emptied". *)
Definition waiting (s : State) : Prop :=
  tame (Repository.listeners (this s))
  ∧ Repository._hasCompletedScan (this s) = false
  ∧ 0 < EEQueue.once_emptied (Repository._walkQueue (this s)).

(** Since [s0], "ready" has been signalled, [_hasCompletedScan] is set
    and the time of the last scan is a time since [s0]. *)
Definition completed (s0 s : State) : Prop :=
  Repository._hasCompletedScan (this s) = true
  ∧ clock s0 ≤ clock s
  ∧ (∃ c, Repository.lastscan (this s) = Some c ∧ clock s0 ≤ c)
  ∧ ∃ u, trace s = trace s0 ++ u ∧ ready (Repository.name (this s0)) ∈ u.

(** the first package of [tree_alpha_beta], walked once, on its own *)
Definition walked_alpha : State :=
  after (H:=Toy.platform) [a_walkPkgDir tree_alpha_beta 100 (Some (metadata_of "alpha"))]
    fresh_main.
(** * Properties *)

(** ** The monad *)

Lemma for_of_nil {St A} (body : A → M St unit) : for_of [] body = ret tt.
Proof. reflexivity. Qed.

Lemma for_of_cons {St A} (x : A) xs (body : A → M St unit) :
  for_of (x :: xs) body = (body x ;;; for_of xs body).
Proof. reflexivity. Qed.

Lemma bind_ok {St A B} (m : M St A) (k : A → M St B) s a s' :
  m s = (Ok a, s') → bind m k s = k a s'.
Proof. unfold bind. by intros ->. Qed.

Lemma bind_throw {St A B} (m : M St A) (k : A → M St B) s e s' :
  m s = (Throw e, s') → bind m k s = (Throw e, s').
Proof. unfold bind. by intros ->. Qed.

Section Stable.
Context {St : Type}.
Implicit Types I : St → Prop.

Lemma stable_ret {A} I (a : A) : stable I (ret a).
Proof. by intros s. Qed.

Lemma stable_throw {A} I e : stable I (throw e : M St A).
Proof. by intros s. Qed.

Lemma stable_gets {A} I (f : St → A) : stable I (gets f).
Proof. by intros s. Qed.

Lemma stable_modify I (f : St → St) : (∀ s, I s → I (f s)) → stable I (modify f).
Proof. intros Hf s Hs. by apply Hf. Qed.

Lemma stable_bind {A B} I (m : M St A) (k : A → M St B) :
  stable I m → (∀ a, stable I (k a)) → stable I (bind m k).
Proof.
  intros Hm Hk s Hs. unfold bind. specialize (Hm s Hs).
  destruct (m s) as [[a|e] s']; simpl in *; [by apply Hk | done].
Qed.

Lemma stable_try_catch {A} I (m : M St A) h :
  stable I m → (∀ e, stable I (h e)) → stable I (try_catch m h).
Proof.
  intros Hm Hh s Hs. unfold try_catch. specialize (Hm s Hs).
  destruct (m s) as [[a|e] s']; simpl in *; [done | by apply Hh].
Qed.

Lemma stable_for_of {A} I (xs : list A) body :
  (∀ x, x ∈ xs → stable I (body x)) → stable I (for_of xs body).
Proof.
  induction xs as [|x xs IH]; intros Hb; [apply stable_ret|].
  rewrite for_of_cons. apply stable_bind.
  - apply Hb. by left.
  - intros _. apply IH. intros y Hy. apply Hb. by right.
Qed.

Lemma stable_when I b (m : M St unit) : stable I m → stable I (when b m).
Proof. destruct b; [done | intros _; apply stable_ret]. Qed.

Lemma stable_detached I (m : M St unit) : stable I m → stable I (detached m).
Proof. intros Hm s Hs. by apply Hm. Qed.

Lemma stable_times I n (m : M St unit) : stable I m → stable I (times n m).
Proof.
  intros Hm. induction n as [|n IH]; [apply stable_ret|].
  simpl. apply stable_bind; auto.
Qed.

Lemma stable_stat I n : stable I (stat n).
Proof. destruct n; by intros s. Qed.

Lemma stable_isDirectory I n : stable I (isDirectory n).
Proof. destruct n; by intros s. Qed.

Lemma stable_doesPathExist I n : stable I (doesPathExist n).
Proof. destruct n; by intros s. Qed.

Lemma stable_readdirAsync I n : stable I (readdirAsync n).
Proof. destruct n; by intros s. Qed.

Lemma stable_readFileAsync I n : stable I (readFileAsync n).
Proof. destruct n; by intros s. Qed.

Lemma stable_String_match `{Platform} I subject pattern :
  stable I (String_match subject pattern).
Proof. unfold String_match. destruct (new_RegExp _ _); by intros s. Qed.
End Stable.

Lemma method_run {A} key (m : M Frame A) fr :
  method key m fr
  = if bool_decide (is_Some (Package.others (self fr) !! key))
    then (Throw (TypeError ("this." +:+ key +:+ " is not a function")), fr)
    else m fr.
Proof. unfold method, bind, gets. simpl. by case_bool_decide. Qed.

Lemma stable_method {A} (I : Frame → Prop) key (m : M Frame A) :
  stable I m → stable I (method key m).
Proof.
  intros Hm. unfold method. apply stable_bind; [apply stable_gets|]. intros p.
  destruct (bool_decide _); [apply stable_throw | exact Hm].
Qed.

Create HintDb stable discriminated.
#[export] Hint Resolve stable_ret stable_throw stable_gets stable_stat stable_isDirectory
  stable_doesPathExist stable_readdirAsync stable_readFileAsync stable_String_match : stable.

(** One step through the structure of a computation. *)
Ltac stable_step :=
  lazymatch goal with
  | |- stable _ (bind _ _) => apply stable_bind; [| intros ?]
  | |- stable _ (try_catch _ _) => apply stable_try_catch; [| intros ?]
  | |- stable _ (when _ _) => apply stable_when
  | |- stable _ (detached _) => apply stable_detached
  | |- stable _ (times _ _) => apply stable_times
  | |- stable _ (method _ _) => apply stable_method
  | |- stable _ (if ?b then _ else _) =>
      first [ let v := eval vm_compute in b in
              lazymatch v with
              | true => change b with true
              | false => change b with false
              end; cbv iota
            | destruct b ]
  | |- stable _ (match ?x with _ => _ end) => destruct x
  | |- stable _ _ => solve [auto with stable]
  end.

(** ** The filesystem *)

Lemma Node_induction (P : Node → Prop) :
  (∀ c, P (File c)) → (∀ c, P (UnreadableFile c)) →
  (∀ files, Forall (fun e => P e.2) files → P (Dir files)) →
  (∀ c, P (UnreadableDir c)) → P Special → (∀ c, P (Broken c)) →
  ∀ n, P n.
Proof.
  intros HF HU HD HUD HS HB. fix IH 1.
  intros [c|c|files|c| |c]; [apply HF | apply HU | | apply HUD | apply HS | apply HB].
  apply HD. induction files as [|[f n] files IHf]; constructor; [apply IH | apply IHf].
Qed.

(** ** What the methods of a package leave alone *)

Lemma stable_update_self (I : Frame → Prop) f :
  (∀ fr, I fr → I (mkFrame (f (self fr)) (stdout fr))) → stable I (update_self f).
Proof. intros Hf. by apply stable_modify. Qed.

Lemma untouched_assign p property v :
  stable (untouched p) (assign_to property v).
Proof.
  unfold assign_to. destruct (bool_decide _); [apply stable_throw|].
  apply stable_update_self. intros [q out] Hq. unfold assign.
  by repeat destruct (String.eqb _ _).
Qed.

Lemma untouched_console_log p e : stable (untouched p) (console_log e).
Proof. by apply stable_modify. Qed.

#[export] Hint Resolve untouched_assign untouched_console_log : stable.

(** A plain key is the name, the identifier or the key of a data property
    that hides nothing. *)
Lemma assign_plain property v p :
  plain property = true →
  assign property v p
  = match property with
    | name => Package.set_name v p
    | guid => Package.set_guid v p
    | other key => Package.set_others (<[key := v]> (Package.others p)) p
    end.
Proof.
  destruct property as [| |key]; [done|done|]. intros Hkey. unfold assign. simpl.
  repeat match goal with
         | |- context [String.eqb key ?k] =>
             destruct (String.eqb_spec key k) as [->|_];
               [vm_compute in Hkey; discriminate Hkey|]
         end.
  done.
Qed.

Lemma plain_no_getter property :
  plain property = true → bool_decide (key_of property ∈ getter_only) = false.
Proof.
  intros Hkey. apply bool_decide_eq_false. unfold getter_only.
  rewrite !elem_of_cons, elem_of_nil. intros [Heq|[Heq|[]]];
    destruct property; try discriminate Heq; simpl in Heq; subst;
    vm_compute in Hkey; discriminate Hkey.
Qed.

Lemma intact_assign p property v :
  plain property = true → stable (intact p) (assign_to property v).
Proof.
  intros Hkey. unfold assign_to. rewrite (plain_no_getter _ Hkey).
  apply stable_update_self. intros [q out] [Hq Hw]. rewrite (assign_plain _ _ _ Hkey).
  destruct property as [| |key]; [done|done|]. split; [|done].
  intros k [w Hk]. simpl in Hk. destruct (decide (k = key)) as [->|Hne]; [done|].
  rewrite lookup_insert_ne in Hk by done. apply Hq. by exists w.
Qed.

Lemma intact_console_log p e : stable (intact p) (console_log e).
Proof. by apply stable_modify. Qed.

Section PackageFrame.
Context `{Platform}.
Variable fs : Node.

Lemma untouched_readConfigFile p : stable (untouched p) (_readConfigFile fs).
Proof.
  unfold _readConfigFile. repeat stable_step. by apply stable_update_self.
Qed.

Lemma untouched_parse p depth rules : stable (untouched p) (_parse depth rules).
Proof.
  induction depth as [|n IH]; [apply stable_throw|].
  simpl. apply stable_for_of. intros [property rule] _. destruct rule.
  - repeat stable_step.
  - apply stable_bind; [apply stable_method, IH|]. intros _. apply untouched_assign.
Qed.

Lemma plain_rules_elem rules property rule :
  plain_rules rules = true → (property, rule) ∈ rules → plain property = true.
Proof.
  unfold plain_rules. rewrite forallb_forall. intros Hall Hin.
  apply (Hall (property, rule)). by apply list_elem_of_In.
Qed.

Lemma intact_parse p depth rules :
  plain_rules rules = true → stable (intact p) (_parse depth rules).
Proof.
  intros Hplain. induction depth as [|n IH]; [apply stable_throw|].
  simpl. apply stable_for_of. intros [property rule] Hin.
  pose proof (plain_rules_elem _ _ _ Hplain Hin) as Hkey. destruct rule.
  - repeat stable_step. by apply intact_assign.
  - apply stable_bind; [apply stable_method, IH|]. intros _. by apply intact_assign.
Qed.

Lemma untouched_items_push p item : stable (untouched p) (items_push item).
Proof. unfold items_push. repeat stable_step. by apply stable_update_self. Qed.

Lemma untouched_search p node : ∀ directory filter,
  stable (untouched p) (_search node directory filter).
Proof.
  induction node as [c|c|files IH|c| |c] using Node_induction; intros directory filter;
    simpl; (apply stable_bind; [by apply stable_update_self|]); intros _;
    (apply stable_try_catch; [|intros; apply untouched_console_log]);
    try (by intros s).
  apply stable_for_of. intros [file child] Hin.
  apply stable_bind; [apply stable_isDirectory|]. intros [|].
  - rewrite Forall_forall in IH. apply (IH _ Hin).
  - apply stable_bind; [apply stable_String_match|]. intros [m|]; [|apply stable_ret].
    apply stable_bind; [apply stable_gets|]. intros q. apply untouched_items_push.
Qed.

Lemma untouched_extraction_and_listing p depth rules :
  stable (untouched p) (extraction_and_listing fs depth rules).
Proof.
  unfold extraction_and_listing.
  apply stable_bind; [apply untouched_readConfigFile|]. intros _.
  apply stable_bind; [apply untouched_parse|]. intros _.
  unfold _search0. apply stable_method. apply stable_bind; [apply stable_gets|]. intros q.
  apply untouched_search.
Qed.

Lemma intact_search p node : ∀ directory filter,
  stable (intact p) (_search node directory filter).
Proof.
  induction node as [c|c|files IH|c| |c] using Node_induction; intros directory filter;
    simpl; (apply stable_bind; [by apply stable_update_self|]); intros _;
    (apply stable_try_catch; [|intros; apply intact_console_log]);
    try (by intros s).
  apply stable_for_of. intros [file child] Hin.
  apply stable_bind; [apply stable_isDirectory|]. intros [|].
  - rewrite Forall_forall in IH. apply (IH _ Hin).
  - apply stable_bind; [apply stable_String_match|]. intros [m|]; [|apply stable_ret].
    apply stable_bind; [apply stable_gets|]. intros q.
    unfold items_push. repeat stable_step. by apply stable_update_self.
Qed.

(** With plain rules the three steps hide no member and leave
    [_hasWalked] as it is. *)
Lemma intact_extraction_and_listing p depth rules :
  plain_rules rules = true →
  stable (intact p) (extraction_and_listing fs depth rules).
Proof.
  intros Hplain. unfold extraction_and_listing.
  apply stable_bind.
  { unfold _readConfigFile. repeat stable_step. by apply stable_update_self. }
  intros _. apply stable_bind; [by apply intact_parse|]. intros _.
  unfold _search0. apply stable_method. apply stable_bind; [apply stable_gets|]. intros q.
  apply intact_search.
Qed.
End PackageFrame.

(** ** Field extraction *)

Lemma for_of_app_throws {St A} (pre post : list A) x (body : A → M St unit) :
  (∀ s, (body x s).1 ≠ Ok tt) →
  ∀ s, (for_of (pre ++ x :: post) body s).1 ≠ Ok tt.
Proof.
  intros Hx. induction pre as [|y pre IH]; intros s.
  - rewrite app_nil_l, for_of_cons. unfold bind. specialize (Hx s).
    destruct (body x s) as [[[]|e] s']; simpl in *; done.
  - change ((y :: pre) ++ x :: post) with (y :: (pre ++ x :: post)).
    rewrite for_of_cons. unfold bind.
    destruct (body y s) as [[[]|e] s']; simpl; [apply IH | done].
Qed.

(** C5 (the code departs from it). Whenever the rules hold a nested
    group, [_parse] does not return: for the group it calls itself on the
    whole rules again, not on the group, and so on until the stack is
    exhausted, whatever its depth. The nested rules are never applied. *)
Theorem parse_nested_group_never_returns `{Platform} stack pre property group post fr :
  (_parse stack (pre ++ (property, Group group) :: post) fr).1 ≠ Ok tt.
Proof.
  revert fr. induction stack as [|stack IH]; intros fr; [done|].
  simpl. apply (for_of_app_throws pre post (property, Group group)).
  intros s. unfold bind. rewrite method_run. case_bool_decide; [done|].
  specialize (IH s).
  destruct (_parse stack _ s) as [[[]|e] s']; simpl in *; done.
Qed.

(** On the example rules the exception is the RangeError of the engine. *)
Example parse_nested_overflows stack :
  (_parse (H:=Toy.platform) stack rules_nested
          (frame_read ("name=P" +:+ nl +:+ "guid=G"))).1 = Throw RangeError.
Proof.
  assert (Hgen : ∀ fr,
    Package._rawConfigContents (self fr) = Some ("name=P" +:+ nl +:+ "guid=G") →
    Package.others (self fr) = ∅ →
    (_parse (H:=Toy.platform) stack rules_nested fr).1 = Throw RangeError).
  { induction stack as [|stack IH]; intros fr Hfr Hnone; [done|].
    destruct fr as [p out]. simpl in Hfr, Hnone.
    simpl. unfold rules_nested at 1. rewrite !for_of_cons.
    unfold bind at 1. simpl. unfold bind at 1. unfold gets at 1. simpl. rewrite Hfr.
    vm_compute (Toy.exec _ _ _). simpl.
    unfold assign_to at 1. change (bool_decide (key_of name ∈ getter_only)) with false.
    cbv iota.
    unfold bind at 1. unfold update_self at 1, modify at 1. simpl.
    unfold bind at 1. rewrite method_run. simpl. rewrite Hnone.
    rewrite bool_decide_eq_false_2 by (rewrite lookup_empty; by intros [? ?]).
    match goal with |- context [_parse stack rules_nested ?f] => specialize (IH f) end.
    destruct (_parse stack rules_nested _) as [[[]|e] s']; simpl in *.
    - discriminate IH; done.
    - apply IH; done. }
  apply Hgen; done.
Qed.

(** ** The listing *)

(** C6 (the code departs from it). [_search] empties [items] on every
    call, the recursive ones included: whatever [items] held when a
    directory is entered makes no difference to what the call leaves, so
    that the files listed before a sub-directory are forgotten. On the
    example /repo/pkg holds PACKAGE, a, sub/b and c; all are files and
    pass the filter, and [items] ends up without PACKAGE and a. *)
Theorem search_forgets_files_before_a_subdirectory :
  (∀ `{Platform} node directory filter p out listed,
     _search node directory filter (mkFrame (Package.set_items listed p) out)
     = _search node directory filter (mkFrame p out))
  ∧ let fr := (_search0 (H:=Toy.platform) tree_nested
                 (mkFrame (new_Package ["repo"] ["repo"; "pkg"; "PACKAGE"]) [])).2 in
    Package.items (self fr) = Some ["/sub/b"; "/c"]
    ∧ resolve tree_nested ["repo"; "pkg"; "a"] = File "a"
    ∧ String_match (H:=Toy.platform) (St:=Frame) "/repo/pkg/a" ".+" fr
      = (Ok (Some [Some "/repo/pkg/a"]), fr)
    ∧ stdout fr = [].
Proof.
  split.
  - intros H node directory filter p out listed. by destruct node, p.
  - vm_compute. done.
Qed.

(** ** The manager's listeners *)

(** C8 (the code departs from it). [addRepository] listens for
    "addedPackage", the repository emits "packageAdded": with the
    listeners that [addRepository] gives a repository, "packageAdded" is
    heard by nobody and the manager's [_onPackageAdded] never runs. On the
    example, after the scan of two valid packages the repository has
    announced both and the manager none, while "ready" was passed on. *)
Theorem manager_never_hears_packageAdded :
  (∀ options m,
     ∃ r, PackageManager._repos (addRepository options m).2 !! rs_name options = Some r
          ∧ Repository.listeners r = managed_listeners)
  ∧ (∀ s a,
       Repository.listeners (this s) = managed_listeners →
       emit_repository "packageAdded" a s
       = (Ok tt,
          traced s [emitted (from_repository (Repository.name (this s))) "packageAdded" a]))
  ∧ let m := (scanRepository (H:=Toy.platform) tree_alpha_beta 100 "main" manager_main).2 in
    events_of (from_repository "main") "packageAdded" (PackageManager.trace m)
    = [ emitted (from_repository "main") "packageAdded" [details false (Some "main") (Some 0)];
        emitted (from_repository "main") "packageAdded" [details false (Some "main") (Some 1)] ]
    ∧ events_of from_manager "packageAdded" (PackageManager.trace m) = []
    ∧ events_of from_manager "repoReady" (PackageManager.trace m)
      = [ emitted from_manager "repoReady" [details true (Some "main") None] ].
Proof.
  split; [|split].
  - intros options m. eexists. split; [apply lookup_insert_eq | reflexivity].
  - intros s a Hl. unfold emit_repository, bind, gets, record, modify, dispatch. simpl.
    by rewrite Hl.
  - vm_compute. done.
Qed.

(** ** Emitting *)

Lemma traced_nil s : traced s [] = s.
Proof. destruct s. unfold traced, set_trace. simpl. by rewrite app_nil_r. Qed.

Lemma traced_traced s t u : traced (traced s t) u = traced s (t ++ u).
Proof. unfold traced, set_trace. simpl. by rewrite app_assoc. Qed.

Lemma appended_app {A} (m : M State A) s t :
  trace (m s).2 = trace s ++ t → appended m s = t.
Proof. intros Ht. unfold appended. by rewrite Ht, drop_app_length. Qed.

Lemma record_run e s : record e s = (Ok tt, traced s [e]).
Proof. reflexivity. Qed.

Lemma emit_manager_run ev a s :
  ∃ o, emit_manager ev a s = (o, traced s [emitted from_manager ev a]).
Proof.
  unfold emit_manager. rewrite (bind_ok _ _ _ _ _ (record_run _ s)).
  unfold bind, gets, dispatch. simpl.
  destruct (listeners_for _ _) as [|l ls] eqn:E.
  - destruct (String.eqb ev "error"); eauto.
  - generalize (l :: ls). intros xs. clear E.
    generalize (traced s [emitted from_manager ev a]).
    induction xs as [|x xs IH]; intros s0; [eauto|].
    rewrite for_of_cons. unfold bind at 1. simpl. apply IH.
Qed.

Lemma call_listener_run l a s :
  ∃ o t, call_listener l a s = (o, traced s t) ∧ Forall from_the_manager t.
Proof.
  assert (Hth : ∀ e, ∃ o t, (throw e : M State unit) s = (o, traced s t)
                            ∧ Forall from_the_manager t).
  { intros e. exists (Throw e), []. by rewrite traced_nil. }
  assert (Hem : ∀ ev a', ∃ o t, emit_manager ev a' s = (o, traced s t)
                               ∧ Forall from_the_manager t).
  { intros ev a'. destruct (emit_manager_run ev a' s) as [o Ho].
    exists o, [emitted from_manager ev a']. split; [done|]. by repeat constructor. }
  destruct l; simpl.
  - destruct a as [|[] ?]; auto. apply Hem.
  - destruct a as [|[] ?]; auto. apply Hem.
  - unfold _onPackageAdded. destruct (head a) as [[]|]; apply Hem.
  - exists (Ok tt), []. by rewrite traced_nil.
Qed.

Lemma for_of_traced {A} (P : Event → Prop) (xs : list A) (body : A → M State unit) :
  (∀ x s, ∃ o t, body x s = (o, traced s t) ∧ Forall P t) →
  ∀ s, ∃ o t, for_of xs body s = (o, traced s t) ∧ Forall P t.
Proof.
  intros Hb. induction xs as [|x xs IH]; intros s.
  - exists (Ok tt), []. by rewrite traced_nil.
  - rewrite for_of_cons. destruct (Hb x s) as (o & t & Hx & Ht).
    destruct o as [[]|e].
    + rewrite (bind_ok _ _ _ _ _ Hx). destruct (IH (traced s t)) as (o' & t' & Hr & Ht').
      exists o', (t ++ t'). rewrite Hr, traced_traced. split; [done|]. by apply Forall_app.
    + rewrite (bind_throw _ _ _ _ _ Hx). eauto.
Qed.

Lemma emit_repository_this ev a s :
  emit_repository ev a s
  = (record (emitted (from_repository (Repository.name (this s))) ev a) ;;;
     dispatch ev a (Repository.listeners (this s)) call_listener) s.
Proof. reflexivity. Qed.

(** [emit] of the repository records the event, then whatever the
    manager's listeners emit in turn; nothing else changes. *)
Lemma emit_repository_run ev a s :
  ∃ o t, emit_repository ev a s
         = (o, traced s (emitted (from_repository (Repository.name (this s))) ev a :: t))
         ∧ Forall from_the_manager t.
Proof.
  unfold emit_repository. unfold bind at 1, gets at 1.
  rewrite (bind_ok _ _ _ _ _ (record_run _ s)).
  set (s1 := traced s _).
  assert (∃ o t, dispatch ev a (Repository.listeners (this s)) call_listener s1
                 = (o, traced s1 t)
                 ∧ Forall from_the_manager t) as (o & t & Hd & Ht).
  { unfold dispatch. destruct (listeners_for _ _) as [|l ls].
    - exists (if String.eqb ev "error" then Throw (unhandled a) else Ok tt), [].
      rewrite traced_nil. by destruct (String.eqb ev "error").
    - apply for_of_traced. intros. apply call_listener_run. }
  exists o, t. rewrite Hd. unfold s1. by rewrite traced_traced.
Qed.

(** ** The heap *)

Lemma on_package_last {A} (m : M Frame A) s h p :
  heap s = h ++ [p] →
  on_package (length h) m s
  = ((m (mkFrame p (console s))).1,
     set_console (stdout (m (mkFrame p (console s))).2)
       (set_heap (h ++ [self (m (mkFrame p (console s))).2]) s)).
Proof.
  intros Hh. unfold on_package. rewrite Hh.
  rewrite lookup_app_r, Nat.sub_diag by lia. simpl.
  destruct (m _) as [r fr]. simpl.
  rewrite insert_app_r_alt, Nat.sub_diag by lia. done.
Qed.

Lemma on_package_seq {A B} (m : M Frame A) (k : M Frame B) s h p :
  heap s = h ++ [p] →
  (on_package (length h) m ;;; on_package (length h) k) s
  = on_package (length h) (m ;;; k) s.
Proof.
  intros Hh. rewrite (on_package_last (m ;;; k) s h p Hh).
  unfold bind at 1. rewrite (on_package_last m s h p Hh).
  unfold bind. destruct (m _) as [[a|e] [q out]]; simpl; [|reflexivity].
  rewrite (on_package_last k _ h q) by reflexivity. simpl.
  destruct (k _) as [r fr']; simpl. reflexivity.
Qed.

Lemma deref_run s pkg p : heap s !! pkg = Some p → deref pkg s = (Ok p, s).
Proof. unfold deref. by intros ->. Qed.

(** ** The listeners of the repository *)

Lemma onPkgError_run err pkg p s :
  heap s !! pkg = Some p →
  _onPkgError err pkg s
  = emit_repository "error" [an_error err]
      (if isValid p then s else set_this (push_invalid pkg (this s)) s).
Proof.
  intros Hp. unfold _onPkgError. rewrite (bind_ok _ _ _ _ _ (deref_run s pkg p Hp)).
  by destruct (isValid p).
Qed.

Lemma addPkg_run pkg p s :
  heap s !! pkg = Some p →
  _addPkg pkg s
  = if truthy_at (Repository.packages (this s)) (property_key (Package.guid p)) then
      emit_repository "error" [an_error RepositoryNotUniquePackageError; a_package pkg]
        (set_this (push_invalid pkg (this s)) s)
    else
      (emit_repository "packageAdded"
         [details false (Some (Repository.name (this s))) (Some pkg)] ;;;
       modify (fun s => set_console (console s ++ [log_package_added pkg]) s))
        (set_this (index (property_key (Package.guid p)) pkg (this s)) s).
Proof.
  intros Hp. unfold _addPkg. rewrite (bind_ok _ _ _ _ _ (deref_run s pkg p Hp)).
  unfold bind at 1, gets at 1. by destruct (truthy_at _ _).
Qed.

(** ** One candidate *)

Section Walk.
Context `{Platform}.
Variable fs : Node.
Variable stack : nat.

Lemma walk_settle pkg rules :
  walk fs stack pkg rules
  = (on_package pkg (_readConfigFile fs) ;;;
     on_package pkg (_parse stack rules) ;;;
     on_package pkg (_search0 fs) ;;;
     settle pkg).
Proof. reflexivity. Qed.

(** [_walkPkgDir] allocates the package, lets it read, extract and list,
    and goes on to the signals only if that returned. *)
Lemma walkPkgDir_local s file :
  _walkPkgDir fs stack (Some file) s
  = match local_phase fs stack s file with
    | (Ok _, fr) => settle (length (heap s)) (located s (self fr) (stdout fr))
    | (Throw e, fr) => (Throw e, located s (self fr) (stdout fr))
    end.
Proof.
  destruct s as [r h t c k ml]. unfold local_phase, located. simpl.
  unfold _walkPkgDir. unfold bind at 1, gets at 1. simpl.
  unfold bind at 1, allocate at 1. simpl.
  unfold package_on.
  unfold bind at 1.
  rewrite (on_package_last _ _ h (new_Package (Repository.dir r) file)) by done.
  simpl.
  unfold bind at 1. rewrite (on_package_last _ _ h
    (Package.set_listeners [("error", bound_onPkgError)]
       (new_Package (Repository.dir r) file))) by done.
  simpl.
  rewrite walk_settle.
  set (p0 := discovered (Repository.dir r) file).
  change (set_console _ _) with (mkState r (h ++ [p0]) t c k ml).
  set (s0 := mkState _ _ _ _ _ _).
  assert (H0 : heap s0 = h ++ [p0]) by done.
  unfold extraction_and_listing.
  set (rules := configParseRules _).
  unfold bind at 1. rewrite (on_package_last _ s0 h p0 H0).
  unfold bind at 3.
  destruct (_readConfigFile fs _) as [[b|e] [p1 out1]]; simpl; [|done].
  unfold bind at 1. rewrite (on_package_last _ _ h p1) by done. simpl.
  unfold bind at 2.
  destruct (_parse stack rules _) as [[[]|e] [p2 out2]]; simpl; [|done].
  unfold bind at 1. rewrite (on_package_last _ _ h p2) by done. simpl.
  destruct (_search0 fs _) as [[[]|e] [p3 out3]]; simpl; done.
Qed.

(** [emit] of a package that is in the heap. *)
Lemma emit_package_run pkg p ev a s :
  heap s !! pkg = Some p →
  emit_package pkg ev a s
  = if bool_decide (is_Some (Package.others p !! "emit"))
    then (Throw (TypeError "this.emit is not a function"), s)
    else dispatch ev a (Package.listeners p) call_repository_listener
           (traced s [emitted (from_package pkg) ev a]).
Proof.
  intros Hp. unfold emit_package. rewrite (bind_ok _ _ _ _ _ (deref_run s pkg p Hp)).
  case_bool_decide; [done|]. by rewrite (bind_ok _ _ _ _ _ (record_run _ s)).
Qed.

(** Every run of [_walkPkgDir] on a file is one of those of [walked]. *)
Lemma walkPkgDir_walked s file :
  walked fs stack s file (_walkPkgDir fs stack (Some file) s).1
                         (_walkPkgDir fs stack (Some file) s).2.
Proof.
  destruct (_walkPkgDir fs stack (Some file) s) as [o' s'] eqn:Hrun. simpl. revert Hrun.
  rewrite walkPkgDir_local.
  pose proof (untouched_extraction_and_listing fs
    (discovered (Repository.dir (this s)) file) stack
    (configParseRules (Repository.packageDefinition (this s)))
    (mkFrame (discovered (Repository.dir (this s)) file) (console s))) as Hun.
  specialize (Hun ltac:(done)).
  fold (local_phase fs stack s file) in Hun.
  destruct (local_phase fs stack s file) as [[[]|e] [p out]] eqn:Hl; simpl in *;
    [|intros [= <- <-]; by apply (walked_aborted fs stack s file e (mkFrame p out))].
  destruct Hun as (Hlis & _). simpl in Hlis.
  set (pkg := length (heap s)) in *.
  assert (Hpkg : ∀ q o' t' c' k',
    heap (mkState o' (heap s ++ [q]) t' c' k' (manager_listens s)) !! pkg = Some q).
  { intros. simpl. by rewrite lookup_app_r, Nat.sub_diag by (unfold pkg; lia). }
  unfold settle, located.
  rewrite (bind_ok _ _ _ _ _ (deref_run _ pkg p (Hpkg _ _ _ _ _))).
  destruct (bool_decide (is_Some (Package.others p !! "emit"))) eqn:Hemit.
  { (* [emit] is hidden *)
    pose proof Hemit as Hmute. apply bool_decide_eq_true in Hmute.
    pose proof (walked_mute fs stack s file (mkFrame p out) Hl Hmute) as Hw.
    simpl in Hw. unfold located in Hw.
    destruct (isValid p) eqn:Hv; simpl in Hw |- *.
    - destruct (Package._hasWalked p) eqn:Hhw; simpl in Hw |- *.
      + unfold bind at 1. rewrite (emit_package_run _ p) by apply Hpkg. rewrite Hemit.
        by intros [= <- <-].
      + unfold bind at 1. unfold bind at 1.
        rewrite (on_package_last _ _ (heap s) p) by done. simpl.
        rewrite (emit_package_run _ (Package.set_hasWalked true p)) by apply Hpkg.
        simpl. rewrite Hemit. by intros [= <- <-].
    - rewrite (emit_package_run _ p) by apply Hpkg. rewrite Hemit.
      by intros [= <- <-]. }
  destruct (isValid p) eqn:Hv; simpl.
  - (* a valid package *)
    destruct (Package._hasWalked p) eqn:Hhw; simpl.
    { (* that has walked before *)
      unfold bind at 1. rewrite (emit_package_run _ p) by apply Hpkg. rewrite Hemit, Hlis.
      unfold dispatch. simpl.
      unfold bind at 1, new_Date at 1. simpl.
      rewrite (on_package_last _ _ (heap s) p) by done.
      simpl. intros [= <- <-].
      by apply (walked_updated fs stack s file (mkFrame p out)). }
    unfold bind at 1. unfold bind at 1.
    rewrite (on_package_last _ _ (heap s) p) by done. simpl.
    rewrite (emit_package_run _ (Package.set_hasWalked true p)) by apply Hpkg.
    simpl. rewrite Hemit.
    unfold traced, set_trace, set_console, set_heap. simpl.
    rewrite Hlis. unfold dispatch. simpl.
    rewrite for_of_cons, for_of_nil.
    unfold bind at 1. unfold call_repository_listener, _onPkgCreated.
    rewrite (addPkg_run _ (Package.set_hasWalked true p)) by apply Hpkg.
    simpl.
    destruct (truthy_at _ _) eqn:Htr.
    + unfold set_this. simpl.
      match goal with |- context [emit_repository ?ev ?a ?s0] =>
        destruct (emit_repository_run ev a s0) as (o & t & -> & Ht) end.
      unfold traced, set_trace. simpl.
      rewrite <- app_assoc. simpl.
      destruct o as [[]|e]; simpl.
      * unfold bind at 1, new_Date at 1. simpl.
        rewrite (on_package_last _ _ (heap s) (Package.set_hasWalked true p)) by done.
        simpl. intros [= <- <-].
        by apply (walked_duplicate fs stack s file (mkFrame p out) (Ok tt) t).
      * intros [= <- <-].
        by apply (walked_duplicate fs stack s file (mkFrame p out) (Throw e) t).
    + unfold set_this. simpl.
      unfold bind at 1.
      match goal with |- context [emit_repository ?ev ?a ?s0] =>
        destruct (emit_repository_run ev a s0) as (o & t & -> & Ht) end.
      unfold traced, set_trace. simpl.
      rewrite <- app_assoc. simpl.
      destruct o as [[]|e]; simpl.
      * unfold bind at 1, new_Date at 1. simpl.
        rewrite (on_package_last _ _ (heap s) (Package.set_hasWalked true p)) by done.
        simpl. intros [= <- <-].
        by apply (walked_added fs stack s file (mkFrame p out) (Ok tt) t).
      * intros [= <- <-].
        by apply (walked_added fs stack s file (mkFrame p out) (Throw e) t).
  - rewrite (emit_package_run _ p) by apply Hpkg. rewrite Hemit.
    unfold traced, set_trace. simpl.
    rewrite Hlis. unfold dispatch. simpl.
    rewrite for_of_cons, for_of_nil.
    unfold bind at 1. unfold call_repository_listener.
    rewrite (onPkgError_run _ _ p) by apply Hpkg. rewrite Hv.
    unfold set_this. simpl.
    match goal with |- context [emit_repository ?ev ?a ?s0] =>
      destruct (emit_repository_run ev a s0) as (o & t & -> & Ht) end.
    unfold traced, set_trace. simpl.
    rewrite <- app_assoc. simpl.
    destruct o as [[]|e]; simpl; intros [= <- <-];
      by apply (walked_invalid fs stack s file (mkFrame p out)).
Qed.
End Walk.

(** ** Invariants through the scan *)

Lemma stable_new_Date (I : State → Prop) :
  (∀ s, I s → I (set_clock (Datatypes.S (clock s)) s)) → stable I new_Date.
Proof. intros HI s Hs. by apply HI. Qed.

Lemma stable_deref (I : State → Prop) pkg : stable I (deref pkg).
Proof. intros s Hs. unfold deref. by destruct (heap s !! pkg). Qed.

#[export] Hint Resolve stable_deref : stable.

Create HintDb model discriminated.
#[export] Hint Unfold emit_manager _onRepoReady _onRepoError _onPackageAdded
  call_listener dispatch emit_repository invalidPackages_push _addPkg
  _onPkgCreated _onPkgError call_repository_listener
  emit_package update_walkQueue walkQueue_length emit_queue once_emptied push next
  update_this record : model.

(** Down to the assignments: what is left are goals [∀ s, I s → I (f s)],
    one for each assignment that the computation may make. *)
Ltac stable_walk :=
  repeat first
    [ lazymatch goal with
      | |- stable _ (for_of _ _) => apply stable_for_of; intros ? ?
      | |- stable _ (modify _) => apply stable_modify
      | |- stable _ new_Date => apply stable_new_Date
      end
    | stable_step
    | progress autounfold with model ].

(** An invariant that only reads the fields that the queue, the clock and
    the trace are not. *)
Ltac stable_frame := stable_walk; try (intros ? Hs; exact Hs).

Lemma stable_onWalkQueueEmptied (I : State → Prop) :
  (∀ s t, I s → I (traced s t)) →
  (∀ s f, I s → I (set_this (Repository.set_hasCompletedScan f (this s)) s)) →
  (∀ s c, I s → I (set_this (Repository.set_lastscan c (this s)) s)) →
  (∀ s c, I s → I (set_clock c s)) →
  stable I _onWalkQueueEmptied.
Proof.
  intros Htr Hflag Hlast Hclock. unfold _onWalkQueueEmptied.
  apply stable_bind; [apply stable_gets|]. intros r.
  apply stable_bind.
  { apply stable_when. intros s Hs.
    destruct (emit_repository_run "ready" [a_repository (Repository.name r)] s)
      as (o & t & -> & _). by apply Htr. }
  intros _. apply stable_bind; [apply stable_modify; intros s Hs; by apply Hflag|].
  intros _. apply stable_bind; [apply stable_new_Date; intros s Hs; by apply Hclock|].
  intros now. apply stable_modify. intros s Hs. by apply Hlast.
Qed.

Section Invariants.
Context `{Platform}.
Variable fs : Node.
Variable stack : nat.
Variable I : State → Prop.

Lemma stable_populateWalkQueue :
  (∀ a, stable I (emit_repository "error" a)) →
  (∀ item, stable I (push item)) →
  ∀ node directory, stable I (_populateWalkQueue node directory).
Proof.
  intros Herr Hpush.
  induction node as [c|c|files IH|c| |c] using Node_induction; intros directory;
    simpl; (apply stable_bind; [apply stable_gets|]); intros r;
    (apply stable_try_catch; [|intros; apply Herr]);
    try (by intros s).
  apply stable_for_of. intros [file child] Hin.
  apply stable_bind; [apply stable_isDirectory|]. intros [|].
  - rewrite Forall_forall in IH. apply (IH _ Hin).
  - apply stable_bind; [apply stable_String_match|]. intros [m|]; [apply Hpush|apply stable_ret].
Qed.

Lemma stable_while_walkQueue :
  stable I next →
  (∀ dir, stable I (_walkPkgDir fs stack dir)) →
  ∀ fuel, stable I (while_walkQueue fs stack fuel).
Proof.
  intros Hnext Hwalk. induction fuel as [|fuel IH]; simpl.
  - stable_walk.
  - apply stable_bind; [stable_walk|]. intros len.
    destruct (bool_decide _); [apply stable_ret|].
    apply stable_bind; [apply Hnext|]. intros dir.
    apply stable_bind; [apply Hwalk|]. intros _. apply IH.
Qed.

Lemma stable_scan :
  (∀ a, stable I (emit_repository "scanning" a)) →
  stable I once_emptied →
  (∀ a, stable I (emit_repository "error" a)) →
  (∀ item, stable I (push item)) →
  stable I next →
  (∀ dir, stable I (_walkPkgDir fs stack dir)) →
  stable I (scan fs stack).
Proof.
  intros Hscanning Honce Herr Hpush Hnext Hwalk. unfold scan.
  apply stable_bind; [apply stable_gets|]. intros r.
  apply stable_bind; [apply Hscanning|]. intros _.
  apply stable_bind; [apply Honce|]. intros _.
  apply stable_bind; [by apply stable_populateWalkQueue|]. intros _.
  unfold _processWalkQueue.
  apply stable_bind; [stable_walk|]. intros len.
  apply stable_bind; [by apply stable_while_walkQueue|]. intros _. apply stable_ret.
Qed.

(** [_walkPkgDir] keeps what each of the runs of [walked] keeps. *)
Lemma stable_walkPkgDir :
  (∀ s file o s', I s → walked fs stack s file o s' → I s') →
  ∀ dir, stable I (_walkPkgDir fs stack dir).
Proof.
  intros Hw [file|]; [|apply stable_throw].
  intros s Hs. eapply Hw; [done|]. apply walkPkgDir_walked.
Qed.
End Invariants.

(** The listeners under [emit] only add to the trace. *)
Lemma stable_emit_repository (I : State → Prop) ev a :
  (∀ s t, I s → I (traced s t)) → stable I (emit_repository ev a).
Proof.
  intros HI s Hs. destruct (emit_repository_run ev a s) as (o & t & -> & _).
  by apply HI.
Qed.

(** ** The index holds valid packages only *)

Lemma isValid_true p :
  isValid p = true ↔
  ∃ n g, Package.name p = Some n ∧ n ≠ "" ∧ Package.guid p = Some g ∧ g ≠ "".
Proof.
  unfold isValid, truthy. split.
  - destruct (Package.guid p) as [g|], (Package.name p) as [n|]; simpl;
      try done; try (by destruct (negb (String.eqb g ""))).
    destruct (String.eqb_spec g ""), (String.eqb_spec n ""); simpl; try done.
    intros _. by exists n, g.
  - intros (n & g & -> & Hn & -> & Hg).
    destruct (String.eqb_spec g ""), (String.eqb_spec n ""); done.
Qed.

Lemma isValid_false p :
  isValid p = false ↔ truthy (Package.name p) = false ∨ truthy (Package.guid p) = false.
Proof.
  unfold isValid. destruct (truthy (Package.guid p)), (truthy (Package.name p)); simpl;
    intuition congruence.
Qed.

Lemma index_valid_grown s r p t out c :
  index_valid s →
  Repository.packages r = Repository.packages (this s) →
  index_valid (mkState r (heap s ++ [p]) t out c (manager_listens s)).
Proof.
  intros Hs Hr key pkg Hk. simpl in *. rewrite Hr in Hk.
  destruct (Hs key pkg Hk) as (q & Hq & Hv). exists q. split; [|done].
  by apply lookup_app_l_Some.
Qed.

Lemma index_valid_added s p t out c :
  index_valid s →
  isValid p = true →
  index_valid
    (mkState (index (property_key (Package.guid p)) (length (heap s)) (this s))
             (heap s ++ [p]) t out c (manager_listens s)).
Proof.
  intros Hs Hp key pkg. simpl.
  destruct (proj1 (isValid_true p) Hp) as (n & g & Hn & _ & Hg & _).
  rewrite Hg. simpl. intros Hk.
  destruct (decide (g = key)) as [->|Hne].
  - rewrite lookup_insert_eq in Hk. injection Hk as <-.
    exists p. by rewrite lookup_app_r, Nat.sub_diag by lia.
  - rewrite lookup_insert_ne in Hk by done.
    destruct (Hs key pkg Hk) as (q & Hq & Hv). exists q. split; [|done].
    by apply lookup_app_l_Some.
Qed.

Section Index.
Context `{Platform}.

Lemma index_valid_walked fs stack s file o s' :
  index_valid s → walked fs stack s file o s' → index_valid s'.
Proof.
  intros Hs [e fr Hl|fr o' t Hl Hv Ht|fr o' t Hl Hv Htr Ht|fr o' t Hl Hv Htr Ht
     |fr Hl Hmute|fr Hl Hv Hhw].
  - by apply index_valid_grown.
  - by apply index_valid_grown.
  - destruct o'; by apply index_valid_grown.
  - destruct o'.
    + by apply (index_valid_added s
        (Package.set_lastWalk (Some (clock s)) (Package.set_hasWalked true (self fr)))).
    + by apply (index_valid_added s (Package.set_hasWalked true (self fr))).
  - by apply index_valid_grown.
  - by apply index_valid_grown.
Qed.

Lemma index_valid_next : stable index_valid next.
Proof.
  assert (stable index_valid _onWalkQueueEmptied) by (by apply stable_onWalkQueueEmptied).
  unfold next. stable_frame.
Qed.

Lemma index_valid_scan fs stack : stable index_valid (scan fs stack).
Proof.
  apply stable_scan.
  - intros a. by apply stable_emit_repository.
  - stable_frame.
  - intros a. by apply stable_emit_repository.
  - intros item. stable_frame.
  - apply index_valid_next.
  - apply stable_walkPkgDir. intros s file o s' Hs. by apply index_valid_walked.
Qed.

Lemma index_valid_perform a : stable index_valid (perform a).
Proof.
  destruct a as [fs stack| |fs stack dir]; simpl.
  - apply index_valid_scan.
  - apply stable_bind; [apply index_valid_next|]. intros. apply stable_ret.
  - apply stable_walkPkgDir. intros s file o s' Hs. by apply index_valid_walked.
Qed.

Lemma index_valid_after history : ∀ s, index_valid s → index_valid (after history s).
Proof.
  induction history as [|a history IH]; intros s Hs; [done|].
  simpl. apply IH. by apply index_valid_perform.
Qed.

(** C1. Whatever the trees, however many the scans and wherever a scan
    stands, every package in the index of a repository has a non-empty
    name and a non-empty identifier, the key it is kept under; and no
    object left without name or without identifier is in the index. *)
Theorem index_holds_valid_packages_only options table listens history :
  let s := after history (fresh options table listens) in
  (∀ key pkg, Repository.packages (this s) !! key = Some pkg →
     ∃ p n, heap s !! pkg = Some p ∧ isValid p = true
            ∧ Package.name p = Some n ∧ n ≠ ""
            ∧ Package.guid p = Some key ∧ key ≠ "")
  ∧ (∀ pkg p, heap s !! pkg = Some p →
       truthy (Package.name p) = false ∨ truthy (Package.guid p) = false →
       ∀ key, Repository.packages (this s) !! key ≠ Some pkg).
Proof.
  intros s.
  assert (Hs : index_valid s).
  { apply index_valid_after. intros key pkg Hk. simpl in Hk.
    by rewrite lookup_empty in Hk. }
  split.
  - intros key pkg Hk. destruct (Hs key pkg Hk) as (p & Hp & Hv & Hg).
    destruct (proj1 (isValid_true p) Hv) as (n & g & Hn & Hne & Hg' & Hge).
    exists p, n. rewrite Hg in Hg'. injection Hg' as ->. done.
  - intros pkg p Hp Hempty key Hk. destruct (Hs key pkg Hk) as (q & Hq & Hv & _).
    rewrite Hp in Hq. injection Hq as <-.
    apply isValid_false in Hempty. congruence.
Qed.
End Index.

(** ** Packages that are turned away *)

Lemma signals_manager pkg t :
  Forall from_the_manager t → filter (fun e => source e = from_package pkg) t = [].
Proof.
  induction 1 as [|e t He _ IH]; [done|].
  rewrite filter_cons_False; [exact IH|]. unfold from_the_manager in He. congruence.
Qed.

(** An object that the index does not hold once it is allocated is never
    indexed: the index takes the object that has just been allocated. *)
Section Unindexed.
Context `{Platform}.

Lemma unindexed_walked fs stack pkg s file o s' :
  unindexed pkg s → walked fs stack s file o s' → unindexed pkg s'.
Proof.
  intros [Hlt Hk] Hw.
  assert (Hgrown : ∀ r p t out c,
            Repository.packages r = Repository.packages (this s) →
            unindexed pkg (mkState r (heap s ++ [p]) t out c (manager_listens s))).
  { intros r p t out c Hr. split; simpl; [rewrite length_app; lia | by rewrite Hr]. }
  assert (Hadded : ∀ key p t out c,
            unindexed pkg (mkState (index key (length (heap s)) (this s))
                                   (heap s ++ [p]) t out c (manager_listens s))).
  { intros key p t out c. split; simpl; [rewrite length_app; lia|].
    intros key' [[_ Heq]|[_ Hk']]%lookup_insert_Some; [lia | by apply (Hk key')]. }
  destruct Hw as [e fr Hl|fr o' t Hl Hv Ht|fr o' t Hl Hv Htr Ht|fr o' t Hl Hv Htr Ht
     |fr Hl Hmute|fr Hl Hv Hhw];
    try destruct o'; try (by apply Hgrown); apply Hadded.
Qed.

Lemma unindexed_next pkg : stable (unindexed pkg) next.
Proof.
  assert (stable (unindexed pkg) _onWalkQueueEmptied) by (by apply stable_onWalkQueueEmptied).
  unfold next. stable_frame.
Qed.

Lemma unindexed_perform pkg a : stable (unindexed pkg) (perform a).
Proof.
  destruct a as [fs stack| |fs stack dir]; simpl.
  - apply stable_scan.
    + intros a. by apply stable_emit_repository.
    + stable_frame.
    + intros a. by apply stable_emit_repository.
    + intros item. stable_frame.
    + apply unindexed_next.
    + apply stable_walkPkgDir. intros s file o s' Hs. by apply unindexed_walked.
  - apply stable_bind; [apply unindexed_next|]. intros. apply stable_ret.
  - apply stable_walkPkgDir. intros s file o s' Hs. by apply unindexed_walked.
Qed.

Lemma unindexed_after pkg history : ∀ s, unindexed pkg s → unindexed pkg (after history s).
Proof.
  induction history as [|a history IH]; intros s Hs; [done|].
  simpl. apply IH. by apply unindexed_perform.
Qed.
End Unindexed.

Section Reject.
Context `{Platform}.
Variable fs : Node.
Variable stack : nat.

Lemma local_phase_untouched s file :
  untouched (discovered (Repository.dir (this s)) file) (local_phase fs stack s file).2.
Proof.
  unfold local_phase. by apply untouched_extraction_and_listing.
Qed.

Lemma local_phase_intact s file :
  plainly_configured s →
  intact (discovered (Repository.dir (this s)) file) (local_phase fs stack s file).2.
Proof.
  intros Hplain. unfold local_phase. apply intact_extraction_and_listing; [done|].
  split; [|done]. intros key [v Hv]. simpl in Hv. by rewrite lookup_empty in Hv.
Qed.

(** With plain rules, the package of a candidate that has read, extracted
    and listed has its [emit] and has not walked. *)
Lemma local_phase_plain s file r fr :
  plainly_configured s →
  local_phase fs stack s file = (r, fr) →
  ¬ is_Some (Package.others (self fr) !! "emit")
  ∧ Package._hasWalked (self fr) = false.
Proof.
  intros Hplain Hl. pose proof (local_phase_intact s file Hplain) as [Hun Hhw].
  rewrite Hl in Hun, Hhw. simpl in Hun, Hhw. split; [|done].
  intros Hmute. apply Hun in Hmute. vm_compute in Hmute. discriminate Hmute.
Qed.

Lemma index_valid_allocated s key pkg :
  index_valid s → Repository.packages (this s) !! key = Some pkg → pkg < length (heap s).
Proof.
  intros Hs Hk. destruct (Hs key pkg Hk) as (p & Hp & _). by apply lookup_lt_Some in Hp.
Qed.

(** C7. A package that has read, extracted and listed, and is left
    without name or without identifier: its only signal is one "error"
    with the missing requirement error and itself, so that it signals
    neither "created" nor "updated"; the time of its walk stays unset;
    the repository appends it to [invalidPackages], the index is as it
    was, and it never holds the package, whatever the repository does
    afterwards. The rules are plain ones: a rule whose key names a
    member of the package, such as emit, replaces that member and is not
    covered. *)
Theorem missing_requirement_is_signalled_once s file fr :
  plainly_configured s →
  index_valid s →
  local_phase fs stack s file = (Ok tt, fr) →
  truthy (Package.name (self fr)) = false ∨ truthy (Package.guid (self fr)) = false →
  let pkg := length (heap s) in
  let s' := (_walkPkgDir fs stack (Some file) s).2 in
  filter (fun e => source e = from_package pkg)
         (appended (_walkPkgDir fs stack (Some file)) s)
  = [emitted (from_package pkg) "error"
       [an_error PackageMissingRequirementError; a_package pkg]]
  ∧ (∃ p, heap s' !! pkg = Some p ∧ isValid p = false ∧ Package._lastWalk p = None)
  ∧ Repository.invalidPackages (this s') = Repository.invalidPackages (this s) ++ [pkg]
  ∧ Repository.packages (this s') = Repository.packages (this s)
  ∧ ∀ history key, Repository.packages (this (after history s')) !! key ≠ Some pkg.
Proof.
  intros Hplain Hs Hl Hempty pkg s'. apply isValid_false in Hempty.
  pose proof (local_phase_untouched s file) as Hun. rewrite Hl in Hun.
  destruct Hun as (_ & Hlw & _). simpl in Hlw.
  destruct (local_phase_plain s file _ _ Hplain Hl) as [Hemit Hunwalked].
  pose proof (walkPkgDir_walked fs stack s file) as Hw. fold s' in Hw.
  assert (Happ : ∀ t, trace s' = trace s ++ t →
                 appended (_walkPkgDir fs stack (Some file)) s = t).
  { intros t Ht. by apply appended_app. }
  destruct Hw as [e fr' Hl'|fr' o' t Hl' Hv Ht|fr' o' t Hl' Hv Htr Ht|fr' o' t Hl' Hv Htr Ht
     |fr' Hl' Hmute|fr' Hl' Hv Hhw];
    rewrite Hl in Hl'; try discriminate Hl'; injection Hl' as <-; try congruence.
  rewrite (Happ _ eq_refl). simpl. fold pkg.
  split; [|split; [|split; [done|split; [done|]]]].
  - rewrite filter_cons_True by done. rewrite filter_cons_False by done.
    f_equal. by apply signals_manager.
  - exists (self fr). split; [|done].
    unfold pkg. by rewrite lookup_app_r, Nat.sub_diag by lia.
  - intros history. apply unindexed_after. split; simpl.
    + rewrite length_app. simpl. unfold pkg. lia.
    + intros key Hk. apply (index_valid_allocated s key pkg Hs) in Hk. unfold pkg in Hk. lia.
Qed.

End Reject.

(** ** The signals of the emitters *)

Lemma readies_app t u : readies (t ++ u) = readies t ++ readies u.
Proof. apply filter_app. Qed.

Lemma readies_manager t : Forall from_the_manager t → readies t = [].
Proof.
  induction 1 as [|e t He _ IH]; [done|].
  unfold readies. rewrite filter_cons_False; [done|].
  intros [Hr _]. unfold from_a_repository in Hr. by rewrite He in Hr.
Qed.

Lemma readies_other e t :
  event e ≠ "ready" ∨ from_a_repository e = false →
  Forall from_the_manager t → readies (e :: t) = [].
Proof.
  intros He Ht. unfold readies. rewrite filter_cons_False.
  - by apply readies_manager.
  - intros [Hr Hev]. destruct He; congruence.
Qed.

Lemma for_of_ok {St A} (xs : list A) (body : A → M St unit) :
  (∀ x s, x ∈ xs → (body x s).1 = Ok tt) → ∀ s, (for_of xs body s).1 = Ok tt.
Proof.
  induction xs as [|x xs IH]; intros Hb s; [done|].
  rewrite for_of_cons. unfold bind. specialize (Hb x s ltac:(by left)) as Hx.
  destruct (body x s) as [[[]|e] s']; simpl in *; [|done].
  apply IH. intros y s0 Hy. apply Hb. by right.
Qed.

Lemma emit_manager_ok ev a s : ev ≠ "error" → (emit_manager ev a s).1 = Ok tt.
Proof.
  intros Hev. unfold emit_manager. rewrite (bind_ok _ _ _ _ _ (record_run _ s)).
  unfold bind, gets, dispatch. simpl.
  destruct (listeners_for _ _) as [|l ls].
  - by destruct (String.eqb_spec ev "error").
  - by apply for_of_ok.
Qed.

Lemma listeners_for_elem {L} ev (table : list (string * L)) l :
  l ∈ listeners_for ev table → (ev, l) ∈ table.
Proof.
  unfold listeners_for. intros Hl.
  apply list_elem_of_fmap in Hl as ([ev' l'] & -> & Hin).
  apply list_elem_of_filter in Hin as [Hev Hin]. simpl in *.
  apply String.eqb_eq in Hev. by subst.
Qed.

(** With the listeners a repository can have, its signals other than
    "error" are delivered: no listener throws. *)
Lemma emit_repository_ok s ev a :
  tame (Repository.listeners (this s)) →
  ev ≠ "error" →
  (ev = "ready" → ∃ n rest, a = a_repository n :: rest) →
  (emit_repository ev a s).1 = Ok tt.
Proof.
  intros Htame Hev Hready. rewrite emit_repository_this.
  rewrite (bind_ok _ _ _ _ _ (record_run _ s)).
  unfold dispatch.
  destruct (listeners_for _ _) as [|l ls] eqn:E; [by destruct (String.eqb_spec ev "error")|].
  apply for_of_ok. intros l' s' Hl'. rewrite <- E in Hl'.
  apply listeners_for_elem in Hl'.
  destruct (Htame _ _ Hl') as [->|Hm]; [done|].
  unfold managed_listeners in Hm. rewrite !elem_of_cons, elem_of_nil in Hm.
  destruct Hm as [Hm|[Hm|[Hm|[]]]]; injection Hm as -> ->; [done| |].
  - destruct (Hready eq_refl) as (n & rest & ->). simpl.
    unfold _onRepoReady. by apply emit_manager_ok.
  - simpl. unfold _onPackageAdded. destruct (head a) as [[]|]; by apply emit_manager_ok.
Qed.

Lemma emit_ready_ok s n :
  tame (Repository.listeners (this s)) →
  (emit_repository "ready" [a_repository n] s).1 = Ok tt.
Proof. intros Htame. apply emit_repository_ok; [done|done|]. intros _. by eexists _, _. Qed.
(** ** The signals of the queue *)

Lemma emptyings_app t u : emptyings (t ++ u) = emptyings t ++ emptyings u.
Proof. apply filter_app. Qed.

Lemma emptyings_other e : source e ≠ from_queue → emptyings [e] = [].
Proof. intros He. unfold emptyings, events_of. rewrite filter_cons_False; [done|]. by intros [? ?]. Qed.

Lemma emptyings_manager t : Forall from_the_manager t → emptyings t = [].
Proof.
  induction 1 as [|e t He _ IH]; [done|].
  unfold emptyings, events_of. rewrite filter_cons_False; [done|].
  intros [Hr _]. by rewrite He in Hr.
Qed.

(** With the flag set, [_onWalkQueueEmptied] only takes the time. *)
Lemma onWalkQueueEmptied_again s :
  Repository._hasCompletedScan (this s) = true →
  _onWalkQueueEmptied s
  = (Ok tt, mkState (Repository.set_lastscan (Some (clock s))
                       (Repository.set_hasCompletedScan true (this s)))
                    (heap s) (trace s) (console s) (Datatypes.S (clock s))
                    (manager_listens s)).
Proof.
  intros Hf. unfold _onWalkQueueEmptied. unfold bind at 1, gets at 1. rewrite Hf. done.
Qed.
(** ** "ready" and [_hasCompletedScan] *)

Lemma ready_exactly_traced s e t :
  event e ≠ "ready" ∨ from_a_repository e = false →
  Forall from_the_manager t →
  ready_exactly s → ready_exactly (traced s (e :: t)).
Proof.
  intros He Ht (Htame & Hn). unfold ready_exactly. simpl.
  rewrite readies_app, (readies_other e t He Ht), app_nil_r. done.
Qed.

Lemma ready_exactly_emit_repository ev a :
  ev ≠ "ready" → stable ready_exactly (emit_repository ev a).
Proof.
  intros Hev s Hs. destruct (emit_repository_run ev a s) as (o & t & -> & Ht).
  apply ready_exactly_traced; auto.
Qed.

Ltac ready_exactly_leaf :=
  let s := fresh "s" in
  intros s (? & ?); unfold ready_exactly; simpl;
  rewrite ?readies_app, ?app_nil_r; simpl; done.

(** The listener of "emptied" while [_hasCompletedScan] is unset: "ready"
    is signalled and passed on by the manager, the flag is set and the
    time taken. *)
Lemma onWalkQueueEmptied_unset s :
  tame (Repository.listeners (this s)) →
  Repository._hasCompletedScan (this s) = false →
  ∃ t, _onWalkQueueEmptied s
       = (Ok tt, mkState (Repository.set_lastscan (Some (clock s))
                            (Repository.set_hasCompletedScan true (this s)))
                         (heap s)
                         (trace s ++ emitted (from_repository (Repository.name (this s)))
                                       "ready" [a_repository (Repository.name (this s))] :: t)
                         (console s) (Datatypes.S (clock s)) (manager_listens s))
       ∧ Forall from_the_manager t.
Proof.
  intros Htame Hf. unfold _onWalkQueueEmptied. unfold bind at 1, gets at 1. rewrite Hf. simpl.
  pose proof (emit_ready_ok s (Repository.name (this s)) Htame) as Hok.
  destruct (emit_repository_run "ready" [a_repository (Repository.name (this s))] s)
    as (o & t & Hrun & Ht).
  rewrite Hrun in Hok. simpl in Hok. subst o.
  exists t. split; [|done]. unfold bind at 1. rewrite Hrun. done.
Qed.

Lemma ready_exactly_onWalkQueueEmptied : stable ready_exactly _onWalkQueueEmptied.
Proof.
  intros s (Htame & Hn).
  destruct (Repository._hasCompletedScan (this s)) eqn:Hf.
  - rewrite onWalkQueueEmptied_again by done. unfold ready_exactly. simpl. done.
  - destruct (onWalkQueueEmptied_unset s Htame Hf) as (t & Hrun & Ht). rewrite Hrun.
    unfold ready_exactly. simpl. split; [done|].
    rewrite readies_app, length_app, Hn.
    unfold readies at 1. rewrite filter_cons_True by done.
    fold (readies t). by rewrite (readies_manager t Ht).
Qed.

Section Exactly.
Context `{Platform}.

Lemma ready_exactly_next : stable ready_exactly next.
Proof.
  pose proof ready_exactly_onWalkQueueEmptied.
  unfold next. stable_walk; ready_exactly_leaf.
Qed.

Lemma ready_exactly_walked fs stack s file o s' :
  ready_exactly s → walked fs stack s file o s' → ready_exactly s'.
Proof.
  assert (Hsig : ∀ t e1 e2 u,
    from_a_repository e1 = false → event e2 ≠ "ready" → Forall from_the_manager u →
    readies (t ++ e1 :: e2 :: u) = readies t).
  { intros t e1 e2 u H1 H2 Hu. rewrite readies_app. unfold readies at 2.
    rewrite filter_cons_False by (intros [? ?]; congruence).
    fold (readies (e2 :: u)). rewrite readies_other by auto. by rewrite app_nil_r. }
  intros (Htame & Hn)
    [e fr Hl|fr o' t Hl Hv Ht|fr o' t Hl Hv Htr Ht|fr o' t Hl Hv Htr Ht
     |fr Hl Hmute|fr Hl Hv Hhw];
    unfold ready_exactly; try destruct o'; simpl; rewrite ?Hsig by done; try done.
  rewrite readies_app, app_nil_r. done.
Qed.

Lemma ready_exactly_perform a : stable ready_exactly (perform a).
Proof.
  assert (Hw : ∀ fs stack dir, stable ready_exactly (_walkPkgDir fs stack dir)).
  { intros fs stack. apply stable_walkPkgDir. intros s file o s' Hs.
    by apply ready_exactly_walked. }
  destruct a as [fs stack| |fs stack dir]; simpl;
    [|pose proof ready_exactly_next; stable_walk|done].
  apply stable_scan; auto using ready_exactly_next.
  - intros a. by apply ready_exactly_emit_repository.
  - stable_walk. ready_exactly_leaf.
  - intros a. by apply ready_exactly_emit_repository.
  - intros item. stable_walk; ready_exactly_leaf.
Qed.

Lemma ready_exactly_after history : ∀ s, ready_exactly s → ready_exactly (after history s).
Proof.
  induction history as [|a history IH]; intros s Hs; [done|].
  simpl. apply IH. by apply ready_exactly_perform.
Qed.
End Exactly.

(** ** A scan whose queue drains *)

Lemma drained_draining s0 s : drained s0 s → draining s0 s.
Proof.
  intros (Htame & Hc & (t & Ht) & Hf & Hl). split; [done|]. split; [done|].
  exists t. split; [done|]. by right.
Qed.

(** What does not signal "emptied" and leaves the flag, the listeners
    and the time of the last scan alone. *)
Lemma draining_step s0 s r' h' u out' c' :
  draining s0 s →
  emptyings u = [] →
  Repository.listeners r' = Repository.listeners (this s) →
  Repository._hasCompletedScan r' = Repository._hasCompletedScan (this s) →
  EEQueue.once_emptied (Repository._walkQueue r')
  = EEQueue.once_emptied (Repository._walkQueue (this s)) →
  Repository.lastscan r' = Repository.lastscan (this s) →
  clock s ≤ c' →
  draining s0 (mkState r' h' (trace s ++ u) out' c' (manager_listens s)).
Proof.
  intros (Htame & Hc & t & Ht & Hl) Hue Hl' Hf' Ho' Hls' Hc'.
  unfold draining. simpl. rewrite Hl', Hf', Ho', Hls'. split; [done|]. split; [lia|].
  exists (t ++ u). rewrite Ht, app_assoc, emptyings_app, Hue, app_nil_r. done.
Qed.

Lemma draining_traced s0 s e t :
  source e ≠ from_queue →
  Forall from_the_manager t →
  draining s0 s → draining s0 (traced s (e :: t)).
Proof.
  intros Hq Ht Hs. destruct s as [r h tr out c ml].
  apply (draining_step s0 (mkState r h tr out c ml)); try done.
  change (e :: t) with ([e] ++ t).
  by rewrite emptyings_app, emptyings_other, emptyings_manager.
Qed.

Lemma draining_emit_repository s0 ev a : stable (draining s0) (emit_repository ev a).
Proof.
  intros s Hs. destruct (emit_repository_run ev a s) as (o & t & -> & Ht).
  apply draining_traced; auto.
Qed.

Lemma drained_onWalkQueueEmptied s0 : stable (drained s0) (detached _onWalkQueueEmptied).
Proof.
  intros s (Htame & Hc & (t & Ht) & Hf & Hl). unfold detached.
  rewrite onWalkQueueEmptied_again by done.
  unfold drained. simpl. split; [done|]. split; [lia|]. split; [by exists t|].
  split; [done|]. exists (clock s). split; [done|lia].
Qed.

(** The first listener of "emptied" that runs since [s0] leaves the
    repository drained, whether "ready" was signalled before or not. *)
Lemma drained_first s0 s :
  tame (Repository.listeners (this s)) →
  clock s0 ≤ clock s →
  (∃ t, trace s = trace s0 ++ t) →
  drained s0 (detached _onWalkQueueEmptied s).2.
Proof.
  intros Htame Hc (t & Ht). unfold detached. cbn [snd].
  destruct (Repository._hasCompletedScan (this s)) eqn:Hf.
  - rewrite onWalkQueueEmptied_again by done.
    unfold drained. simpl. split; [done|]. split; [lia|]. split; [by exists t|].
    split; [done|]. exists (clock s). split; [done|lia].
  - destruct (onWalkQueueEmptied_unset s Htame Hf) as (u & Hrun & Hu). rewrite Hrun.
    unfold drained. simpl. split; [done|]. split; [lia|].
    split; [eexists; by rewrite Ht, <- app_assoc|].
    split; [done|]. exists (clock s). split; [done|lia].
Qed.

Lemma draining_emptied s0 : stable (draining s0) (emit_queue "emptied" []).
Proof.
  intros s (Htame & Hc & t & Ht & Hl). unfold emit_queue.
  rewrite (bind_ok _ _ _ _ _ (record_run _ s)). simpl.
  unfold bind at 1, gets at 1. simpl.
  unfold bind at 1, update_walkQueue at 1, update_this at 1, modify at 1. simpl.
  set (n := EEQueue.once_emptied _) in *.
  set (u := set_this _ _).
  assert (Hu : tame (Repository.listeners (this u)) ∧ clock s0 ≤ clock u
               ∧ (∃ t, trace u = trace s0 ++ t)
               ∧ Repository._hasCompletedScan (this u) = Repository._hasCompletedScan (this s)
               ∧ Repository.lastscan (this u) = Repository.lastscan (this s)).
  { unfold u. simpl. split; [done|]. split; [done|]. split; [|done].
    exists (t ++ [emitted from_queue "emptied" []]). by rewrite Ht, app_assoc. }
  destruct Hu as (Hutame & Huc & Hut & Huf & Hul).
  apply drained_draining.
  destruct Hl as [[He Hn]|[Hf Hlast]].
  - destruct n as [|n]; [lia|]. simpl.
    unfold bind at 1.
    pose proof (drained_first s0 u Hutame Huc Hut) as Hfirst.
    destruct (detached _onWalkQueueEmptied u) as [[[]|e] u1] eqn:Hrun; [|done].
    simpl in Hfirst.
    apply stable_times; [apply drained_onWalkQueueEmptied|done].
  - apply stable_times; [apply drained_onWalkQueueEmptied|].
    unfold drained. rewrite Huf, Hul. done.
Qed.

Section Draining.
Context `{Platform}.

Lemma draining_next s0 : stable (draining s0) next.
Proof.
  unfold next.
  apply stable_bind; [apply stable_gets|]. intros item.
  apply stable_bind.
  { apply stable_modify. intros [r h t out c ml] Hs.
    change (set_this _ _) with
      (mkState (Repository.set_walkQueue
                  (EEQueue.mk (tail (EEQueue.queue (Repository._walkQueue r)))
                              (EEQueue.once_emptied (Repository._walkQueue r))) r)
               h t out c ml).
    rewrite <- (app_nil_r t).
    by apply (draining_step s0 (mkState r h t out c ml)). }
  intros _. apply stable_bind.
  { intros [r h t out c ml] Hs.
    change (emit_queue "dequeued" [] (mkState r h t out c ml)).2
      with (mkState r h (t ++ [emitted from_queue "dequeued" []]) out c ml).
    by apply (draining_step s0 (mkState r h t out c ml)). }
  intros _. apply stable_bind; [apply stable_gets|]. intros len.
  apply stable_bind; [|intros; apply stable_ret].
  apply stable_when. apply draining_emptied.
Qed.

Lemma draining_push s0 item : stable (draining s0) (push item).
Proof.
  intros [r h t out c ml] Hs.
  change (push item (mkState r h t out c ml)).2
    with (mkState (Repository.set_walkQueue
                     (EEQueue.mk (EEQueue.queue (Repository._walkQueue r) ++ [item])
                                 (EEQueue.once_emptied (Repository._walkQueue r))) r)
                  h (t ++ [emitted from_queue "enqueued" [an_item item]]) out c ml).
  by apply (draining_step s0 (mkState r h t out c ml)).
Qed.

Lemma draining_walked s0 fs stack s file o s' :
  draining s0 s → walked fs stack s file o s' → draining s0 s'.
Proof.
  assert (Hsig : ∀ e1 e2 u,
    source e1 ≠ from_queue → source e2 ≠ from_queue →
    Forall from_the_manager u → emptyings (e1 :: e2 :: u) = []).
  { intros e1 e2 u H3 H4 Hu.
    change (e1 :: e2 :: u) with ([e1] ++ [e2] ++ u).
    by rewrite !emptyings_app, !emptyings_other, emptyings_manager. }
  intros Hs [e fr Hl|fr o' t Hl Hv Ht|fr o' t Hl Hv Htr Ht|fr o' t Hl Hv Htr Ht
     |fr Hl Hmute|fr Hl Hv Hhw].
  - unfold located. rewrite <- (app_nil_r (trace s)).
    by apply draining_step.
  - apply draining_step; try done; by apply Hsig.
  - destruct o'; simpl; apply draining_step; try done; try lia; by apply Hsig.
  - destruct o'; simpl; apply draining_step; try done; try lia; by apply Hsig.
  - unfold located. rewrite <- (app_nil_r (trace s)).
    by apply draining_step.
  - simpl. apply draining_step; try done; lia.
Qed.

(** A scan, with the listeners a repository can have: when the queue
    has signalled "emptied" during it, [_hasCompletedScan] is set and
    the time of the last scan is a time of this scan. *)
Lemma draining_scan fs stack s0 :
  tame (Repository.listeners (this s0)) →
  draining s0 (scan fs stack s0).2.
Proof.
  intros Htame. unfold scan. unfold bind at 1, gets at 1.
  pose proof (emit_repository_ok s0 "scanning" [a_repository (Repository.name (this s0))]
                Htame ltac:(done) ltac:(done)) as Hemit.
  destruct (emit_repository_run "scanning" [a_repository (Repository.name (this s0))] s0)
    as (o & t & Hrun & Ht).
  rewrite Hrun in Hemit. simpl in Hemit. subst o.
  unfold bind at 1. rewrite Hrun.
  assert (Hrest : ∀ r, stable (draining s0)
    (_populateWalkQueue (resolve fs (Repository.dir r)) (Repository.dir r) ;;;
     _processWalkQueue fs stack)).
  { intros r. apply stable_bind.
    - apply stable_populateWalkQueue.
      + intros a. by apply draining_emit_repository.
      + apply draining_push.
    - intros _. unfold _processWalkQueue.
      apply stable_bind; [apply stable_gets|]. intros len.
      apply stable_bind; [|intros; apply stable_ret].
      apply stable_while_walkQueue; [apply draining_next|].
      apply stable_walkPkgDir. intros s file o s' Hs. by apply draining_walked. }
  unfold bind at 1, once_emptied at 1, update_walkQueue at 1, update_this at 1, modify at 1.
  apply Hrest. unfold draining. simpl. split; [done|]. split; [done|].
  eexists. split; [reflexivity|]. left. split; [|lia].
  match goal with |- emptyings (?e :: t) = [] => change (e :: t) with ([e] ++ t) end.
  by rewrite emptyings_app, emptyings_other, emptyings_manager.
Qed.

(** C9. A repository with the listeners it can have signals "ready" at
    most once, whatever it does and in whatever order. A scan during
    which the queue signals "emptied" sets [_hasCompletedScan] and makes
    the time of the last scan a time of that scan, and "ready" has then
    been signalled exactly once; and once [_hasCompletedScan] is set, a
    scan signals no "ready". *)
Theorem ready_signalled_at_most_once options table listens history fs stack :
  tame table →
  let s := after history (fresh options table listens) in
  let s' := (scan fs stack s).2 in
  length (readies (trace s)) ≤ 1
  ∧ (emptyings (appended (scan fs stack) s) ≠ [] →
       Repository._hasCompletedScan (this s') = true
       ∧ length (readies (trace s')) = 1
       ∧ ∃ c, Repository.lastscan (this s') = Some c ∧ clock s ≤ c)
  ∧ (Repository._hasCompletedScan (this s) = true →
       readies (appended (scan fs stack) s) = []).
Proof.
  intros Htame s s'.
  assert (Hs : ready_exactly s).
  { apply ready_exactly_after. unfold ready_exactly, fresh, initial. simpl. done. }
  assert (Hs' : ready_exactly s').
  { apply (ready_exactly_perform (a_scan fs stack)), Hs. }
  destruct Hs as (Htame_s & Hn). destruct Hs' as (_ & Hn').
  split; [rewrite Hn; destruct (Repository._hasCompletedScan _); lia|]. split.
  - intros Hne.
    destruct (draining_scan fs stack s Htame_s) as (_ & _ & t & Ht & Hl).
    fold s' in Ht, Hl. rewrite (appended_app _ _ _ Ht) in Hne.
    destruct Hl as [[He _]|[Hf Hl]]; [done|].
    rewrite Hn', Hf. done.
  - intros Hf. destruct (draining_scan fs stack s Htame_s) as (_ & _ & t & Ht & _).
    fold s' in Ht. rewrite (appended_app _ _ _ Ht).
    rewrite Ht, readies_app, length_app, Hn, Hf in Hn'.
    apply length_zero_iff_nil. destruct (Repository._hasCompletedScan (this s')); lia.
Qed.
End Draining.

(** ** Two runs *)

Section Rel.
Context {St : Type}.
Implicit Types R : St → St → Prop.

Lemma rel_ret {A} R (a : A) : rel R (ret a).
Proof. by intros s t. Qed.

Lemma rel_throw {A} R e : rel R (throw e : M St A).
Proof. by intros s t. Qed.

Lemma rel_gets {A} R (f : St → A) : (∀ s t, R s t → f s = f t) → rel R (gets f).
Proof. intros Hf s t Hst. unfold gets. simpl. by rewrite (Hf s t Hst). Qed.

Lemma rel_modify R (f : St → St) : (∀ s t, R s t → R (f s) (f t)) → rel R (modify f).
Proof. intros Hf s t Hst. split; [done|]. by apply Hf. Qed.

Lemma rel_bind {A B} R (m : M St A) (k : A → M St B) :
  rel R m → (∀ a, rel R (k a)) → rel R (bind m k).
Proof.
  intros Hm Hk s t Hst. unfold bind. destruct (Hm s t Hst) as [Ho Hr].
  destruct (m s) as [[a|e] s'], (m t) as [[a'|e'] t']; simpl in *;
    try discriminate Ho; injection Ho as <-; [by apply Hk | done].
Qed.

Lemma rel_try_catch {A} R (m : M St A) h :
  rel R m → (∀ e, rel R (h e)) → rel R (try_catch m h).
Proof.
  intros Hm Hh s t Hst. unfold try_catch. destruct (Hm s t Hst) as [Ho Hr].
  destruct (m s) as [[a|e] s'], (m t) as [[a'|e'] t']; simpl in *;
    try discriminate Ho; injection Ho as <-; [done | by apply Hh].
Qed.

Lemma rel_for_of {A} R (xs : list A) body :
  (∀ x, x ∈ xs → rel R (body x)) → rel R (for_of xs body).
Proof.
  induction xs as [|x xs IH]; intros Hb; [apply rel_ret|].
  rewrite for_of_cons. apply rel_bind.
  - apply Hb. by left.
  - intros _. apply IH. intros y Hy. apply Hb. by right.
Qed.

Lemma rel_when R b (m : M St unit) : rel R m → rel R (when b m).
Proof. destruct b; [done | intros _; apply rel_ret]. Qed.

(** What does not touch the state *)
Lemma rel_pure {A} R (m : M St A) :
  (∀ s, (m s).2 = s) → (∀ s t, (m s).1 = (m t).1) → rel R m.
Proof. intros Hs Ho s t Hst. by rewrite !Hs, (Ho s t). Qed.

Lemma rel_isDirectory R n : rel R (isDirectory n).
Proof. apply rel_pure; by destruct n. Qed.

Lemma rel_doesPathExist R n : rel R (doesPathExist n).
Proof. apply rel_pure; by destruct n. Qed.

Lemma rel_readdirAsync R n : rel R (readdirAsync n).
Proof. apply rel_pure; by destruct n. Qed.

Lemma rel_readFileAsync R n : rel R (readFileAsync n).
Proof. apply rel_pure; by destruct n. Qed.

Lemma rel_String_match `{Platform} R subject pattern :
  rel R (String_match subject pattern).
Proof. apply rel_pure; unfold String_match; by destruct (new_RegExp _ _). Qed.
End Rel.

Create HintDb rel discriminated.
#[export] Hint Resolve rel_ret rel_throw rel_isDirectory rel_doesPathExist
  rel_readdirAsync rel_readFileAsync rel_String_match : rel.

Ltac rel_step :=
  lazymatch goal with
  | |- rel _ (bind _ _) => apply rel_bind; [| intros ?]
  | |- rel _ (try_catch _ _) => apply rel_try_catch; [| intros ?]
  | |- rel _ (when _ _) => apply rel_when
  | |- rel _ (for_of _ _) => apply rel_for_of; intros ? ?
  | |- rel _ (modify _) => apply rel_modify
  | |- rel same_self (gets self) => apply rel_gets; by intros ? ? ?
  | |- rel _ (gets _) => apply rel_gets
  | |- rel _ (if ?b then _ else _) =>
      first [ let v := eval vm_compute in b in
              lazymatch v with
              | true => change b with true
              | false => change b with false
              end; cbv iota
            | destruct b ]
  | |- rel _ (match ?x with _ => _ end) => destruct x
  | |- rel _ _ => solve [auto with rel]
  end.

(** *** The methods of a package do not read the console *)

Section RelPackage.
Context `{Platform}.
Variable fs : Node.

Lemma same_self_update_self f : rel same_self (update_self f).
Proof. apply rel_modify. intros [p out] [q out'] Hpq. unfold same_self in *. simpl in *. by subst. Qed.

Lemma same_self_console_log e : rel same_self (console_log e).
Proof. by apply rel_modify. Qed.

Lemma same_self_gets : rel same_self (gets self).
Proof. by apply rel_gets. Qed.

Lemma same_self_method {A} key (m : M Frame A) :
  rel same_self m → rel same_self (method key m).
Proof.
  intros Hm. unfold method. apply rel_bind; [apply same_self_gets|]. intros p.
  case_bool_decide; [apply rel_throw | exact Hm].
Qed.

Lemma same_self_assign_to property v : rel same_self (assign_to property v).
Proof.
  unfold assign_to. case_bool_decide; [apply rel_throw | apply same_self_update_self].
Qed.

#[local] Hint Resolve same_self_update_self same_self_console_log same_self_gets
  same_self_assign_to : rel.

Lemma same_self_readConfigFile : rel same_self (_readConfigFile fs).
Proof. unfold _readConfigFile. repeat rel_step. Qed.

Lemma same_self_parse depth rules : rel same_self (_parse depth rules).
Proof.
  induction depth as [|n IH]; [apply rel_throw|].
  simpl. apply rel_for_of. intros [property rule] _. destruct rule.
  - repeat rel_step.
  - apply rel_bind; [apply same_self_method, IH|]. intros _. apply same_self_assign_to.
Qed.

Lemma same_self_items_push item : rel same_self (items_push item).
Proof. unfold items_push. repeat rel_step. Qed.

Lemma same_self_search node : ∀ directory filter,
  rel same_self (_search node directory filter).
Proof.
  induction node as [c|c|files IH|c| |c] using Node_induction; intros directory filter;
    simpl; (apply rel_bind; [apply same_self_update_self|]); intros _;
    (apply rel_try_catch; [|intros; apply same_self_console_log]);
    try (by intros s t).
  apply rel_for_of. intros [file child] Hin.
  apply rel_bind; [apply rel_isDirectory|]. intros [|].
  - rewrite Forall_forall in IH. apply (IH _ Hin).
  - apply rel_bind; [apply rel_String_match|]. intros [m|]; [|apply rel_ret].
    apply rel_bind; [apply same_self_gets|]. intros q. apply same_self_items_push.
Qed.

Lemma same_self_extraction_and_listing depth rules :
  rel same_self (extraction_and_listing fs depth rules).
Proof.
  unfold extraction_and_listing.
  apply rel_bind; [apply same_self_readConfigFile|]. intros _.
  apply rel_bind; [apply same_self_parse|]. intros _.
  unfold _search0. apply same_self_method.
  apply rel_bind; [apply same_self_gets|]. intros q.
  apply same_self_search.
Qed.
End RelPackage.

(** *** What [_populateWalkQueue] pushes depends on the settings only *)

Lemma agree_record e : rel agree (record e).
Proof. unfold record. by apply rel_modify. Qed.

Lemma agree_emit_manager ev a : rel agree (emit_manager ev a).
Proof.
  unfold emit_manager. apply rel_bind; [apply agree_record|]. intros _.
  apply rel_bind; [apply rel_gets; by intros s t (_ & _ & _ & _ & ? & _)|]. intros listens.
  unfold dispatch. repeat rel_step.
Qed.

Lemma agree_call_listener l a : rel agree (call_listener l a).
Proof.
  pose proof agree_emit_manager.
  unfold call_listener, _onRepoError, _onRepoReady, _onPackageAdded. repeat rel_step.
Qed.

Lemma agree_emit_repository ev a : rel agree (emit_repository ev a).
Proof.
  intros s t Hst.
  assert (Hrel : rel agree
    (record (emitted (from_repository (Repository.name (this t))) ev a) ;;;
     dispatch ev a (Repository.listeners (this t)) call_listener)).
  { apply rel_bind; [apply agree_record|]. intros _. unfold dispatch.
    pose proof agree_call_listener. repeat rel_step. }
  rewrite !emit_repository_this.
  destruct Hst as (Hn & Hd & Hp & Hl & Hm & Hq) eqn:E. rewrite Hn, Hl. by apply Hrel.
Qed.

Lemma agree_push item : rel agree (push item).
Proof.
  unfold push, update_walkQueue, update_this, emit_queue.
  apply rel_bind.
  - apply rel_modify. intros s t (Hn & Hd & Hp & Hl & Hm & Hq).
    unfold agree, walkQueue in *. simpl. by rewrite Hq.
  - intros _. apply rel_bind; [apply agree_record|]. intros _. apply rel_ret.
Qed.

Section RelScan.
Context `{Platform}.

Lemma populateWalkQueue_Dir files directory s :
  _populateWalkQueue (Dir files) directory s
  = try_catch (populate_entries (metadata_filter (this s)) files directory)
              (fun err => emit_repository "error" [an_error err]) s.
Proof. reflexivity. Qed.

Lemma agree_populateWalkQueue node : ∀ directory,
  rel agree (_populateWalkQueue node directory).
Proof.
  assert (Hfilter : ∀ s t, agree s t → metadata_filter (this s) = metadata_filter (this t)).
  { intros s t (_ & _ & Hp & _). unfold metadata_filter. by rewrite Hp. }
  induction node as [c|c|files IH|c| |c] using Node_induction; intros directory;
    try (intros s t Hst;
         by apply (agree_emit_repository "error" [an_error (IOError _)] s t Hst)).
  assert (Hrel : ∀ filter, rel agree
    (try_catch (populate_entries filter files directory)
               (fun err => emit_repository "error" [an_error err]))).
  2:{ intros s t Hst. rewrite !populateWalkQueue_Dir, (Hfilter s t Hst). by apply Hrel. }
  intros filter. apply rel_try_catch; [|intros; apply agree_emit_repository].
  unfold populate_entries.
  apply rel_for_of. intros [file child] Hin.
  apply rel_bind; [apply rel_isDirectory|]. intros [|].
  - rewrite Forall_forall in IH. apply (IH _ Hin).
  - apply rel_bind; [apply rel_String_match|]. intros [m|]; [apply agree_push|apply rel_ret].
Qed.
End RelScan.

(** ** A scan that leaves the repository idle *)

Lemma idle_refl s : idle s s.
Proof. unfold idle. repeat split. exists []. by rewrite app_nil_r. Qed.

Lemma idle_step s0 s r' h' u out' c' :
  idle s0 s →
  readies u = [] → emptyings u = [] →
  Repository.packages r' = Repository.packages (this s) →
  Repository.lastscan r' = Repository.lastscan (this s) →
  Repository._hasCompletedScan r' = Repository._hasCompletedScan (this s) →
  idle s0 (mkState r' h' (trace s ++ u) out' c' (manager_listens s)).
Proof.
  intros (Hp & Hl & Hf & t & Ht & Hr & He) Hur Hue Hp' Hl' Hf'.
  unfold idle. simpl. rewrite Hp', Hl', Hf'. repeat split; try done.
  exists (t ++ u). rewrite Ht, app_assoc, readies_app, emptyings_app, Hr, Hur, He, Hue. done.
Qed.

Lemma idle_emit_repository s0 ev a :
  ev ≠ "ready" → stable (idle s0) (emit_repository ev a).
Proof.
  intros Hev [r h tr out c ml] Hs.
  destruct (emit_repository_run ev a (mkState r h tr out c ml)) as (o & t & -> & Ht).
  apply (idle_step s0 (mkState r h tr out c ml)); try done.
  - apply readies_other; auto.
  - match goal with |- emptyings (?e :: t) = [] => change (e :: t) with ([e] ++ t) end.
    by rewrite emptyings_app, emptyings_other, emptyings_manager.
Qed.

Lemma idle_push s0 item : stable (idle s0) (push item).
Proof.
  intros [r h t out c ml] Hs.
  change (push item (mkState r h t out c ml)).2
    with (mkState (Repository.set_walkQueue
                     (EEQueue.mk (EEQueue.queue (Repository._walkQueue r) ++ [item])
                                 (EEQueue.once_emptied (Repository._walkQueue r))) r)
                  h (t ++ [emitted from_queue "enqueued" [an_item item]]) out c ml).
  by apply (idle_step s0 (mkState r h t out c ml)).
Qed.

Section Nothing.
Context `{Platform}.

Lemma processWalkQueue_empty fs stack s :
  walkQueue s = [] → _processWalkQueue fs stack s = (Ok tt, s).
Proof.
  intros Hq. unfold _processWalkQueue, walkQueue_length, bind, gets. unfold walkQueue in Hq.
  rewrite Hq. simpl. unfold bind, gets. simpl. rewrite Hq. done.
Qed.
End Nothing.

(** ** What the queue and the walk of the tree leave alone *)

Lemma quiet_step_refl s : quiet_step s s.
Proof. unfold quiet_step. repeat split. exists []. by rewrite app_nil_r. Qed.

Lemma quiet_step_trans s1 s2 s3 : quiet_step s1 s2 → quiet_step s2 s3 → quiet_step s1 s3.
Proof.
  intros (Hp & Hi & Hn & Hd & Hpd & Hl & Hm & Hh & Hc & u & Hu & Hcu)
         (Hp' & Hi' & Hn' & Hd' & Hpd' & Hl' & Hm' & Hh' & Hc' & v & Hv & Hcv).
  unfold quiet_step. rewrite Hp', Hi', Hn', Hd', Hpd', Hl', Hm', Hh', Hc'.
  repeat (split; [done|]). exists (u ++ v). rewrite Hv, Hu, app_assoc. split; [done|].
  by apply Forall_app.
Qed.

(** One assignment that keeps those fields, with the events it records. *)
Lemma quiet_step_to s0 s r' u c' :
  quiet_step s0 s →
  Repository.packages r' = Repository.packages (this s) →
  Repository.invalidPackages r' = Repository.invalidPackages (this s) →
  Repository.name r' = Repository.name (this s) →
  Repository.dir r' = Repository.dir (this s) →
  Repository.packageDefinition r' = Repository.packageDefinition (this s) →
  Repository.listeners r' = Repository.listeners (this s) →
  Forall calm u →
  quiet_step s0 (mkState r' (heap s) (trace s ++ u) (console s) c' (manager_listens s)).
Proof.
  intros Hs H1 H2 H3 H4 H5 H6 Hu. apply (quiet_step_trans s0 s); [done|].
  unfold quiet_step. simpl. repeat (split; [done|]). by exists u.
Qed.

Lemma calm_manager t : Forall from_the_manager t → Forall calm t.
Proof.
  intros Ht. eapply Forall_impl; [exact Ht|].
  intros e He. unfold calm. unfold from_the_manager in He. by rewrite He.
Qed.

Ltac quiet_leaf s0 :=
  let r := fresh "r" in let h := fresh "h" in let t := fresh "t" in
  let out := fresh "out" in let c := fresh "c" in let ml := fresh "ml" in
  let Hs := fresh "Hs" in
  intros [r h t out c ml] Hs;
  first
    [ apply (quiet_step_to s0 (mkState r h t out c ml)); try done; by repeat constructor
    | unfold set_this, set_clock; simpl; rewrite <- (app_nil_r t);
      apply (quiet_step_to s0 (mkState r h t out c ml)); try done ].

Lemma quiet_emit_repository s0 ev a :
  ev ≠ "packageAdded" → stable (quiet_step s0) (emit_repository ev a).
Proof.
  intros Hev [r h tr out c ml] Hs.
  destruct (emit_repository_run ev a (mkState r h tr out c ml)) as (o & t & -> & Ht).
  apply (quiet_step_to s0 (mkState r h tr out c ml)); try done.
  constructor; [done | by apply calm_manager].
Qed.

Lemma quiet_onWalkQueueEmptied s0 : stable (quiet_step s0) _onWalkQueueEmptied.
Proof.
  unfold _onWalkQueueEmptied.
  apply stable_bind; [apply stable_gets|]. intros r.
  apply stable_bind; [apply stable_when; by apply quiet_emit_repository|]. intros _.
  stable_walk; quiet_leaf s0.
Qed.

Lemma quiet_emit_queue s0 ev a : stable (quiet_step s0) (emit_queue ev a).
Proof.
  pose proof (quiet_onWalkQueueEmptied s0).
  unfold emit_queue. stable_walk; quiet_leaf s0.
Qed.

Lemma quiet_push s0 item : stable (quiet_step s0) (push item).
Proof.
  pose proof (quiet_emit_queue s0).
  unfold push. stable_walk; quiet_leaf s0.
Qed.

Lemma quiet_once_emptied s0 : stable (quiet_step s0) once_emptied.
Proof. stable_walk; quiet_leaf s0. Qed.

Lemma quiet_next s0 : stable (quiet_step s0) next.
Proof.
  pose proof (quiet_emit_queue s0).
  unfold next. stable_walk; quiet_leaf s0.
Qed.

Lemma times_detached_ok {St} n (m : M St unit) s : (times n (detached m) s).1 = Ok tt.
Proof.
  revert s. induction n as [|n IH]; intros s; [done|].
  simpl. unfold bind at 1, detached at 1. apply IH.
Qed.

Lemma emit_queue_ok ev a s : (emit_queue ev a s).1 = Ok tt.
Proof.
  unfold emit_queue. rewrite (bind_ok _ _ _ _ _ (record_run _ s)).
  destruct (String.eqb ev "emptied"); [|done].
  unfold bind at 1, gets at 1. unfold bind at 1, update_walkQueue, update_this, modify.
  apply times_detached_ok.
Qed.

(** The queue keeps its candidates while "emptied" is delivered. *)
Lemma walkQueue_emit_queue q ev a : stable (fun s => walkQueue s = q) (emit_queue ev a).
Proof.
  assert (stable (fun s => walkQueue s = q) _onWalkQueueEmptied)
    by (by apply stable_onWalkQueueEmptied).
  unfold emit_queue. stable_frame.
Qed.

(** [next] on a queue that is not empty: the head is returned and what
    stays is the tail. *)
Lemma next_run s x rest :
  walkQueue s = x :: rest →
  ∃ s', next s = (Ok (Some x), s') ∧ walkQueue s' = rest ∧ quiet_step s s'.
Proof.
  intros Hq.
  pose proof (quiet_next s s (quiet_step_refl s)) as Hquiet.
  destruct (next s) as [o s'] eqn:Hn. exists s'. simpl in Hquiet.
  revert Hn. unfold next. unfold bind at 1, gets at 1.
  unfold walkQueue in Hq. rewrite Hq. simpl.
  unfold bind at 1, update_walkQueue at 1, update_this at 1, modify at 1. rewrite Hq. simpl.
  set (s1 := set_this _ s).
  assert (Hq1 : walkQueue s1 = rest) by done.
  pose proof (emit_queue_ok "dequeued" [] s1) as Hok.
  pose proof (walkQueue_emit_queue rest "dequeued" [] s1 Hq1) as Hq2.
  unfold bind at 1.
  destruct (emit_queue "dequeued" [] s1) as [o2 s2]. simpl in *. subst o2.
  unfold bind at 1, walkQueue_length at 1, gets at 1.
  unfold bind at 1.
  destruct (bool_decide _); simpl.
  - pose proof (emit_queue_ok "emptied" [] s2) as Hok3.
    pose proof (walkQueue_emit_queue rest "emptied" [] s2 Hq2) as Hq3.
    destruct (emit_queue "emptied" [] s2) as [o3 s3]. simpl in *. subst o3.
    intros [= <- <-]. done.
  - intros [= <- <-]. done.
Qed.

Section QuietScan.
Context `{Platform}.

Lemma quiet_populateWalkQueue s0 node directory :
  stable (quiet_step s0) (_populateWalkQueue node directory).
Proof.
  apply stable_populateWalkQueue; [|apply quiet_push].
  intros a. by apply quiet_emit_repository.
Qed.

Lemma scan_discovery fs stack s :
  scan fs stack s =
  match discovery fs s with
  | (Ok _, s') => _processWalkQueue fs stack s'
  | (Throw e, s') => (Throw e, s')
  end.
Proof.
  unfold scan, discovery. unfold bind, gets. simpl.
  destruct (emit_repository _ _ s) as [[[]|e] s1]; [|done].
  reflexivity.
Qed.

Lemma quiet_discovery s0 fs : stable (quiet_step s0) (discovery fs).
Proof.
  unfold discovery.
  apply stable_bind; [apply stable_gets|]. intros r.
  apply stable_bind; [by apply quiet_emit_repository|]. intros _.
  apply stable_bind; [apply quiet_once_emptied|]. intros _.
  apply quiet_populateWalkQueue.
Qed.
End QuietScan.

(** ** The loop over the queue, one iteration at a time *)

Lemma truthy_at_insert {V} (table : gmap string V) k v key :
  truthy_at table key = true → truthy_at (<[k := v]> table) key = true.
Proof.
  unfold truthy_at. intros [Hk | Hk]%orb_true_iff; apply orb_true_iff; [left | by right].
  apply bool_decide_eq_true in Hk. apply bool_decide_eq_true.
  apply lookup_insert_is_Some. destruct (decide (k = key)); [by left | by right].
Qed.

Lemma truthy_at_insert_eq {V} (table : gmap string V) k v :
  truthy_at (<[k := v]> table) k = true.
Proof.
  unfold truthy_at. apply orb_true_iff. left. apply bool_decide_eq_true.
  apply lookup_insert_is_Some. by left.
Qed.

Lemma configured_refl s : configured s s.
Proof. by unfold configured. Qed.

Lemma configured_trans s1 s2 s3 : configured s1 s2 → configured s2 s3 → configured s1 s3.
Proof.
  intros (Hn & Hd & Hp & Hl & Hm) (Hn' & Hd' & Hp' & Hl' & Hm').
  unfold configured. by rewrite Hn', Hd', Hp', Hl', Hm'.
Qed.

Lemma plainly_configured_configured s s' :
  configured s s' → plainly_configured s → plainly_configured s'.
Proof. intros (_ & _ & Hpd & _). unfold plainly_configured. by rewrite Hpd. Qed.

Lemma quiet_step_configured s s' : quiet_step s s' → configured s s'.
Proof. intros (_ & _ & Hn & Hd & Hp & Hl & Hm & _). by unfold configured. Qed.

Lemma grown_refl s : grown (Repository.packages (this s)) s.
Proof. by intros key. Qed.

Section Loop.
Context `{Platform}.
Variable fs : Node.
Variable stack : nat.

(** A walk leaves the queue and the settings alone, and no key of the
    index stops reading as taken. *)
Lemma walked_configured s file o s' :
  walked fs stack s file o s' →
  walkQueue s' = walkQueue s ∧ configured s s' ∧ grown (Repository.packages (this s)) s'.
Proof.
  intros Hw.
  destruct Hw as [e fr Hl | fr o t Hl Hv Ht | fr o t Hl Hv Hk Ht | fr o t Hl Hv Hk Ht
     | fr Hl Hmute | fr Hl Hv Hhw];
    try destruct o; simpl; (split; [done|]); (split; [done|]);
    intros key Hkey; simpl; try done; by apply truthy_at_insert.
Qed.

Lemma while_walkQueue_nil fuel s :
  walkQueue s = [] → while_walkQueue fs stack fuel s = (Ok true, s).
Proof.
  intros Hq. unfold walkQueue in Hq.
  destruct fuel; simpl; unfold bind, walkQueue_length, gets; simpl; by rewrite Hq.
Qed.

Lemma while_walkQueue_out s x rest :
  walkQueue s = x :: rest → while_walkQueue fs stack 0 s = (Ok false, s).
Proof.
  intros Hq. unfold walkQueue in Hq.
  simpl; unfold bind, walkQueue_length, gets; simpl; by rewrite Hq.
Qed.

(** One iteration: the head leaves the queue, quietly, and is walked. *)
Lemma while_walkQueue_step fuel s x rest :
  walkQueue s = x :: rest →
  ∃ s1 o s2,
    quiet_step s s1 ∧ walkQueue s1 = rest ∧ walked fs stack s1 x o s2
    ∧ while_walkQueue fs stack (Datatypes.S fuel) s
      = match o with
        | Ok _ => while_walkQueue fs stack fuel s2
        | Throw e => (Throw e, s2)
        end.
Proof.
  intros Hq. destruct (next_run s x rest Hq) as (s1 & Hn & Hq1 & Hquiet).
  pose proof (walkPkgDir_walked fs stack s1 x) as Hw.
  destruct (_walkPkgDir fs stack (Some x) s1) as [o s2] eqn:Hrun. simpl in Hw.
  exists s1, o, s2. repeat (split; [done|]).
  unfold walkQueue in Hq. simpl. unfold bind at 1, walkQueue_length, gets. simpl.
  rewrite Hq. simpl. unfold bind at 1. rewrite Hn. unfold bind at 1. rewrite Hrun.
  by destruct o as [[]|e].
Qed.

(** The bound of [_processWalkQueue] is never the reason the loop ends. *)
Lemma processWalkQueue_bound fuel : ∀ s,
  length (walkQueue s) ≤ fuel → (while_walkQueue fs stack fuel s).1 ≠ Ok false.
Proof.
  induction fuel as [|fuel IH]; intros s Hlen; destruct (walkQueue s) as [|x rest] eqn:Hq;
    try (by rewrite while_walkQueue_nil).
  - simpl in Hlen. lia.
  - destruct (while_walkQueue_step fuel s x rest Hq) as (s1 & o & s2 & _ & Hq1 & Hw & ->).
    destruct o as [[]|e]; [|done]. apply IH.
    destruct (walked_configured _ _ _ _ Hw) as (-> & _). rewrite Hq1. simpl in Hlen. lia.
Qed.

Lemma processWalkQueue_run s :
  _processWalkQueue fs stack s =
  match while_walkQueue fs stack (length (walkQueue s)) s with
  | (Ok _, s') => (Ok tt, s')
  | (Throw e, s') => (Throw e, s')
  end.
Proof.
  unfold _processWalkQueue. unfold bind at 1, walkQueue_length, gets. simpl.
  unfold bind, walkQueue. by destruct (while_walkQueue _ _ _ s) as [[b|e] s'].
Qed.

Lemma grown_while table fuel : stable (grown table) (while_walkQueue fs stack fuel).
Proof.
  apply stable_while_walkQueue.
  - intros s Hs. destruct (quiet_next s s (quiet_step_refl s)) as (Hp & _).
    intros key Hk. rewrite Hp. by apply Hs.
  - apply stable_walkPkgDir. intros s file o s' Hs Hw.
    destruct (walked_configured _ _ _ _ Hw) as (_ & _ & Hg).
    intros key Hk. by apply Hg, Hs.
Qed.

Lemma configured_while s0 fuel : stable (configured s0) (while_walkQueue fs stack fuel).
Proof.
  apply stable_while_walkQueue.
  - intros s Hs. apply (configured_trans _ s); [done|].
    apply quiet_step_configured, quiet_next, quiet_step_refl.
  - apply stable_walkPkgDir. intros s file o s' Hs Hw.
    destruct (walked_configured _ _ _ _ Hw) as (_ & Hc & _).
    by apply (configured_trans _ s).
Qed.

(** The console has no part in what a package makes of its directory. *)
Lemma local_phase_verdict s file :
  ((local_phase fs stack s file).1, self (local_phase fs stack s file).2)
  = verdict_in fs stack s file.
Proof.
  unfold local_phase, verdict_in, verdict.
  destruct (same_self_extraction_and_listing fs stack
              (configParseRules (Repository.packageDefinition (this s)))
              (mkFrame (discovered (Repository.dir (this s)) file) (console s))
              (mkFrame (discovered (Repository.dir (this s)) file) [])
              eq_refl) as [-> Hself].
  unfold same_self in Hself. by rewrite Hself.
Qed.

Lemma verdict_in_configured s0 s file :
  configured s0 s → verdict_in fs stack s file = verdict_in fs stack s0 file.
Proof. intros (_ & Hd & Hp & _). unfold verdict_in. by rewrite Hd, Hp. Qed.
End Loop.

(** ** A scan after a scan *)

Lemma events_of_app src ev t u :
  events_of src ev (t ++ u) = events_of src ev t ++ events_of src ev u.
Proof. unfold events_of. apply filter_app. Qed.

Lemma events_of_other src ev e t :
  ¬ (source e = src ∧ event e = ev) → events_of src ev (e :: t) = events_of src ev t.
Proof. intros He. unfold events_of. rewrite filter_cons. by rewrite decide_False. Qed.

Lemma events_of_calm n t :
  Forall calm t → events_of (from_repository n) "packageAdded" t = [].
Proof.
  induction 1 as [|e t He Ht IH]; [done|].
  rewrite events_of_other; [done|]. intros [Hsrc Hev]. unfold calm in He.
  rewrite Hsrc in He. done.
Qed.

Lemma created_calm pkg t : Forall calm t → created pkg ∉ t.
Proof. intros Ht Hin. rewrite Forall_forall in Ht. apply (Ht _ Hin). Qed.

Lemma updated_calm pkg a t : Forall calm t → emitted (from_package pkg) "updated" a ∉ t.
Proof. intros Ht Hin. rewrite Forall_forall in Ht. apply (Ht _ Hin). Qed.

Lemma collisions_refl s : collisions s s.
Proof.
  split; [done|]. split; [apply configured_refl|]. exists [].
  rewrite app_nil_r. split; [done|]. split; [done|].
  split; [by intros pkg a ?%elem_of_nil | by intros pkg ?%elem_of_nil].
Qed.

(** What a step has to show for [collisions] to go on holding. *)
Lemma collisions_step s0 s s' v :
  collisions s0 s →
  Repository.packages (this s') = Repository.packages (this s) →
  configured s s' →
  trace s' = trace s ++ v →
  (∀ pkg, pkg ∈ Repository.invalidPackages (this s) →
          pkg ∈ Repository.invalidPackages (this s')) →
  events_of (from_repository (Repository.name (this s0))) "packageAdded" v = [] →
  (∀ pkg a, emitted (from_package pkg) "updated" a ∉ v) →
  (∀ pkg, created pkg ∈ v →
     pkg ∈ Repository.invalidPackages (this s')
     ∧ collision (Repository.name (this s0)) pkg ∈ v) →
  collisions s0 s'.
Proof.
  intros (Hp & Hc & u & Hu & Hnone & Hupd & Hall) Hp' Hc' Hv Hinv Hnone' Hupd' Hall'.
  split; [by rewrite Hp'|]. split; [by apply (configured_trans _ s)|].
  exists (u ++ v). split; [by rewrite Hv, Hu, app_assoc|].
  split; [by rewrite events_of_app, Hnone, Hnone'|].
  split.
  { intros pkg a [Hin | Hin]%elem_of_app; [by apply (Hupd pkg a) | by apply (Hupd' pkg a)]. }
  intros pkg [Hin | Hin]%elem_of_app.
  - destruct (Hall pkg Hin) as [Hi Hcol]. split; [by apply Hinv|].
    apply elem_of_app. by left.
  - destruct (Hall' pkg Hin) as [Hi Hcol]. split; [done|]. apply elem_of_app. by right.
Qed.

Lemma collisions_quiet s0 s s' : collisions s0 s → quiet_step s s' → collisions s0 s'.
Proof.
  intros Hs Hq. pose proof (quiet_step_configured _ _ Hq) as Hc.
  destruct Hq as (Hp & Hi & _ & _ & _ & _ & _ & _ & _ & v & Hv & Hcalm).
  apply (collisions_step s0 s s' v); try done.
  - intros pkg. by rewrite Hi.
  - by apply events_of_calm.
  - intros pkg a. by apply updated_calm.
  - intros pkg Hin. by destruct (created_calm pkg v Hcalm).
Qed.

Section Again.
Context `{Platform}.
Variable fs : Node.
Variable stack : nat.

(** A walk of a file whose valid package has a taken identifier, the
    rules being plain. *)
Lemma collisions_walked s0 s file o s' :
  plainly_configured s →
  collisions s0 s →
  walked fs stack s file o s' →
  known (Repository.packages (this s)) (verdict_in fs stack s file) →
  collisions s0 s'.
Proof.
  intros Hplain Hs Hw Hknown. pose proof Hs as (_ & (Hn & _) & _).
  rewrite <- local_phase_verdict in Hknown. unfold known in Hknown. simpl in Hknown.
  destruct Hw as [e fr Hl | fr o t Hl Hv Ht | fr o t Hl Hv Hk Ht | fr o t Hl Hv Hk Ht
     | fr Hl Hmute | fr Hl Hv Hhw].
  - apply (collisions_step s0 s _ []); try done.
    + simpl. by rewrite app_nil_r.
    + by intros pkg a ?%elem_of_nil.
    + by intros pkg ?%elem_of_nil.
  - eapply (collisions_step s0 s); try done; simpl; try reflexivity.
    + intros pkg Hin. apply elem_of_app. by left.
    + rewrite !events_of_other by (intros [? ?]; done).
      by apply events_of_calm, calm_manager.
    + intros pkg a Hin.
      apply elem_of_cons in Hin as [Hin | Hin]; [done|].
      apply elem_of_cons in Hin as [Hin | Hin]; [done|].
      by apply (updated_calm pkg a t (calm_manager t Ht)).
    + intros pkg Hin. exfalso.
      apply elem_of_cons in Hin as [Hin | Hin]; [done|].
      apply elem_of_cons in Hin as [Hin | Hin]; [done|].
      by apply (created_calm pkg t (calm_manager t Ht)).
  - assert (Hinv : ∀ o', Repository.invalidPackages
               (this (finished o' s (push_invalid (length (heap s)) (this s))
                  (Package.set_hasWalked true (self fr))
                  (created (length (heap s))
                   :: collision (Repository.name (this s)) (length (heap s)) :: t)
                  (stdout fr)))
             = Repository.invalidPackages (this s) ++ [length (heap s)])
      by (by intros [[]|?]).
    eapply (collisions_step s0 s); try done.
    + by destruct o.
    + by destruct o.
    + by destruct o.
    + intros pkg Hin. fold (created (length (heap s))).
      fold (collision (Repository.name (this s)) (length (heap s))).
      rewrite Hinv. apply elem_of_app. by left.
    + rewrite !events_of_other by (intros [? ?]; done).
      by apply events_of_calm, calm_manager.
    + intros pkg a Hin.
      apply elem_of_cons in Hin as [Hin | Hin]; [done|].
      apply elem_of_cons in Hin as [Hin | Hin]; [done|].
      by apply (updated_calm pkg a t (calm_manager t Ht)).
    + intros pkg Hin. fold (created (length (heap s))).
      fold (collision (Repository.name (this s)) (length (heap s))).
      rewrite Hinv.
      apply elem_of_cons in Hin as [Hin | Hin].
      * injection Hin as ->. split; [apply elem_of_app; right; apply elem_of_cons; by left|].
        rewrite <- Hn. apply elem_of_cons. right. apply elem_of_cons. by left.
      * apply elem_of_cons in Hin as [Hin | Hin]; [done|].
        by destruct (created_calm pkg t (calm_manager t Ht)).
  - rewrite Hl in Hknown. simpl in Hknown. rewrite (Hknown eq_refl Hv) in Hk. done.
  - by destruct (local_phase_plain fs stack s file _ _ Hplain Hl) as [Hemit _].
  - destruct (local_phase_plain fs stack s file _ _ Hplain Hl) as [_ Hunwalked].
    congruence.
Qed.

(** The first loop: when it ends with the queue empty, every file it was
    given that holds a valid package has its identifier taken. *)
Lemma first_while fuel : ∀ s sf,
  plainly_configured s →
  while_walkQueue fs stack fuel s = (Ok true, sf) →
  walkQueue sf = []
  ∧ ∀ file, file ∈ walkQueue s →
      known (Repository.packages (this sf)) (verdict_in fs stack s file).
Proof.
  induction fuel as [|fuel IH]; intros s sf Hplain;
    destruct (walkQueue s) as [|x rest] eqn:Hq;
    try (rewrite while_walkQueue_nil by done; intros [= <-]; split; [done|];
         by intros file ?%elem_of_nil).
  - by rewrite (while_walkQueue_out fs stack s x rest).
  - destruct (while_walkQueue_step fs stack fuel s x rest Hq)
      as (s1 & o & s2 & Hquiet & Hq1 & Hw & ->).
    destruct o as [[]|e]; [|done]. intros Hrun.
    destruct (walked_configured _ _ _ _ _ _ Hw) as (Hq2 & Hc2 & Hg2).
    pose proof (quiet_step_configured _ _ Hquiet) as Hc1.
    pose proof (plainly_configured_configured _ _ Hc1 Hplain) as Hplain1.
    pose proof (plainly_configured_configured _ _ Hc2 Hplain1) as Hplain2.
    destruct (IH s2 sf Hplain2 Hrun) as (Hqf & Hrest). split; [done|].
    pose proof (grown_while fs stack (Repository.packages (this s2)) fuel s2 (grown_refl s2))
      as Hmono. rewrite Hrun in Hmono. simpl in Hmono.
    intros file [-> | Hin]%elem_of_cons.
    + rewrite <- (verdict_in_configured fs stack s s1 x Hc1).
      rewrite <- local_phase_verdict. unfold known. simpl. intros Ho Hvalid.
      apply Hmono. clear Hmono Hrun Hrest IH.
      inversion Hw as [e fr Hl | fr o t Hl Hv Ht | fr o t Hl Hv Hk Ht | fr o t Hl Hv Hk Ht
     | fr Hl Hmute | fr Hl Hv Hhw];
        subst; rewrite Hl in *; simpl in *.
      * congruence.
      * done.
      * apply truthy_at_insert_eq.
      * destruct (local_phase_plain fs stack s1 x _ _ Hplain1 Hl) as [_ Hunwalked].
        simpl in Hunwalked. congruence.
    + rewrite Hq2, Hq1 in Hrest.
      rewrite <- (verdict_in_configured fs stack s s2 file (configured_trans _ _ _ Hc1 Hc2)).
      by apply Hrest.
Qed.

(** The loop of a later scan, over files of which that is known. *)
Lemma again_while s0 fuel : ∀ s,
  plainly_configured s0 →
  collisions s0 s →
  (∀ file, file ∈ walkQueue s →
     known (Repository.packages (this s0)) (verdict_in fs stack s0 file)) →
  collisions s0 (while_walkQueue fs stack fuel s).2.
Proof.
  induction fuel as [|fuel IH]; intros s Hplain Hs Hknown;
    destruct (walkQueue s) as [|x rest] eqn:Hq;
    try (by rewrite while_walkQueue_nil).
  - by rewrite (while_walkQueue_out fs stack s x rest).
  - destruct (while_walkQueue_step fs stack fuel s x rest Hq)
      as (s1 & o & s2 & Hquiet & Hq1 & Hw & ->).
    pose proof (collisions_quiet _ _ _ Hs Hquiet) as Hs1.
    assert (Hplain1 : plainly_configured s1).
    { destruct Hs1 as (_ & Hc & _). by apply (plainly_configured_configured s0). }
    assert (Hs2 : collisions s0 s2).
    { apply (collisions_walked s0 s1 x o s2 Hplain1 Hs1 Hw).
      destruct Hs1 as (-> & Hc & _). rewrite (verdict_in_configured fs stack s0 s1 x Hc).
      apply Hknown, elem_of_cons. by left. }
    destruct o as [[]|e]; [|done]. apply IH; [done|done|].
    destruct (walked_configured _ _ _ _ _ _ Hw) as (-> & _). rewrite Hq1.
    intros file Hin. apply Hknown, elem_of_cons. by right.
Qed.
End Again.

Section Rescan.
Context `{Platform}.
Variable fs : Node.
Variable stack : nat.

Lemma agree_discovery : rel agree (discovery fs).
Proof.
  intros s t Hst. pose proof Hst as (Hn & Hd & _).
  assert (Hrel : rel agree
    (emit_repository "scanning" [a_repository (Repository.name (this t))] ;;;
     once_emptied ;;;
     _populateWalkQueue (resolve fs (Repository.dir (this t))) (Repository.dir (this t)))).
  { apply rel_bind; [apply agree_emit_repository|]. intros _.
    apply rel_bind; [|intros _; apply agree_populateWalkQueue].
    unfold once_emptied, update_walkQueue, update_this. apply rel_modify.
    intros s' t' (? & ? & ? & ? & ? & Hq). unfold agree, walkQueue in *. simpl. done. }
  assert (Hrun : ∀ x, discovery fs x =
    (emit_repository "scanning" [a_repository (Repository.name (this x))] ;;;
     once_emptied ;;;
     _populateWalkQueue (resolve fs (Repository.dir (this x))) (Repository.dir (this x))) x)
    by reflexivity.
  rewrite (Hrun s), (Hrun t), Hn, Hd. by apply Hrel.
Qed.

(** After a scan that returned, the next one keeps [collisions]. *)
Lemma collisions_scan s s1 :
  plainly_configured s →
  walkQueue s = [] →
  scan fs stack s = (Ok tt, s1) →
  collisions s1 (scan fs stack s1).2.
Proof.
  intros Hplain Hq Hscan. rewrite scan_discovery in Hscan.
  pose proof (quiet_discovery s fs s (quiet_step_refl s)) as Hquiet.
  pose proof (plainly_configured_configured _ _ (quiet_step_configured _ _ Hquiet) Hplain)
    as Hplain_d.
  destruct (discovery fs s) as [[[]|e] sd] eqn:Hd; [|done]. simpl in Hquiet.
  rewrite processWalkQueue_run in Hscan.
  pose proof (processWalkQueue_bound fs stack (length (walkQueue sd)) sd (le_n _)) as Hbound.
  pose proof (configured_while fs stack sd (length (walkQueue sd)) sd (configured_refl sd))
    as Hconf.
  destruct (while_walkQueue fs stack (length (walkQueue sd)) sd) as [[[|]|e'] sf] eqn:Hloop;
    simpl in *; try done.
  injection Hscan as ->.
  destruct (first_while fs stack _ _ _ Hplain_d Hloop) as (Hq1 & Hknown).
  assert (Hagree : agree s s1).
  { destruct (configured_trans _ _ _ (quiet_step_configured _ _ Hquiet) Hconf)
      as (Hn & Hdir & Hp & Hl & Hm).
    unfold agree. by rewrite Hn, Hdir, Hp, Hl, Hm, Hq, Hq1. }
  destruct (agree_discovery s s1 Hagree) as [Ho Hagree']. rewrite Hd in *. simpl in *.
  rewrite scan_discovery.
  pose proof (quiet_discovery s1 fs s1 (quiet_step_refl s1)) as Hquiet2.
  destruct (discovery fs s1) as [o2 sd2] eqn:Hd2. simpl in *. subst o2.
  rewrite processWalkQueue_run.
  assert (Hplain1 : plainly_configured s1).
  { apply (plainly_configured_configured sd); [|done]. by destruct Hloop. }
  pose proof (again_while fs stack s1 (length (walkQueue sd2)) sd2 Hplain1
                (collisions_quiet _ _ _ (collisions_refl s1) Hquiet2)) as Hagain.
  assert (Hall : ∀ file, file ∈ walkQueue sd2 →
            known (Repository.packages (this s1)) (verdict_in fs stack s1 file)).
  { intros file Hin. destruct Hagree' as (_ & _ & _ & _ & _ & Hqq). rewrite <- Hqq in Hin.
    rewrite (verdict_in_configured fs stack sd s1 file Hconf). by apply Hknown. }
  specialize (Hagain Hall).
  by destruct (while_walkQueue fs stack (length (walkQueue sd2)) sd2) as [[b|e2] s2].
Qed.

(** C3. After a scan that returned, having found the queue empty, a
    second scan of the same tree leaves the index as it is; no package is
    announced as added and none signals "updated"; and every package that
    signals "created" in the second scan is a collision: it goes to
    [invalidPackages] and the error of a taken identifier is signalled
    for it. The rules are plain ones: a rule whose key names a member of
    the package, such as _hasWalked, is not covered. *)
Theorem second_scan_only_collides s s1 :
  plainly_configured s →
  walkQueue s = [] →
  scan fs stack s = (Ok tt, s1) →
  Repository.packages (this (scan fs stack s1).2) = Repository.packages (this s1)
  ∧ events_of (from_repository (Repository.name (this s1))) "packageAdded"
      (appended (scan fs stack) s1) = []
  ∧ (∀ pkg a, emitted (from_package pkg) "updated" a ∉ appended (scan fs stack) s1)
  ∧ ∀ pkg, created pkg ∈ appended (scan fs stack) s1 →
      pkg ∈ Repository.invalidPackages (this (scan fs stack s1).2)
      ∧ collision (Repository.name (this s1)) pkg ∈ appended (scan fs stack) s1.
Proof.
  intros Hplain Hq Hscan.
  destruct (collisions_scan s s1 Hplain Hq Hscan) as (Hp & _ & u & Hu & Hnone & Hupd & Hall).
  unfold appended. rewrite Hu, drop_app_length. done.
Qed.
End Rescan.

(** ** I/O errors under [walk] *)

Section Read.
Context `{Platform}.


End Read.

(** ** Who hears an error *)

Lemma for_of_ret {St A} (xs : list A) (s : St) : for_of xs (fun _ => ret tt) s = (Ok tt, s).
Proof. induction xs as [|x xs IH]; [done|]. by rewrite for_of_cons. Qed.

Lemma listeners_for_listens ev (listens : list string) :
  listeners_for ev (map (fun e => (e, tt)) listens) = [] ↔ ev ∉ listens.
Proof.
  unfold listeners_for. induction listens as [|l listens IH]; simpl.
  - split; [intros _ ?%elem_of_nil | ]; done.
  - rewrite filter_cons. simpl. destruct (String.eqb_spec l ev) as [-> | Hne].
    + rewrite decide_True by done. split; [done|]. intros Hnot. destruct Hnot. by left.
    + rewrite decide_False by done. rewrite IH. split.
      * intros Hnot [Heq | Hin]%elem_of_cons; [by subst | done].
      * intros Hnot Hin. apply Hnot. by right.
Qed.

(** The manager's [emit] of "error" throws the error back when nobody
    listens for it. *)
Lemma emit_manager_error e s :
  (emit_manager "error" [an_error e] s).1
  = if bool_decide ("error" ∈ manager_listens s) then Ok tt else Throw e.
Proof.
  unfold emit_manager. rewrite (bind_ok _ _ _ _ _ (record_run _ s)).
  unfold bind, gets, dispatch. simpl.
  destruct (listeners_for _ _) as [|l ls] eqn:E.
  - apply listeners_for_listens in E. by rewrite bool_decide_eq_false_2.
  - rewrite bool_decide_eq_true_2; [by rewrite for_of_ret|].
    destruct (decide ("error" ∈ manager_listens s)) as [|Hnot]; [done|].
    apply listeners_for_listens in Hnot. simpl in Hnot. congruence.
Qed.

Lemma emit_repository_error_managed e rest s :
  Repository.listeners (this s) = managed_listeners →
  (emit_repository "error" (an_error e :: rest) s).1
  = if bool_decide ("error" ∈ manager_listens s) then Ok tt else Throw e.
Proof.
  intros Hl. rewrite emit_repository_this, Hl.
  rewrite (bind_ok _ _ _ _ _ (record_run _ s)).
  unfold dispatch. simpl. rewrite for_of_cons, for_of_nil. simpl.
  unfold _onRepoError. unfold bind.
  pose proof (emit_manager_error e (traced s [emitted (from_repository (Repository.name (this s)))
                                               "error" (an_error e :: rest)])) as Hm.
  simpl in Hm. by destruct (emit_manager _ _ _) as [[[]|e'] s'].
Qed.

Lemma emit_repository_unheard ev a s :
  Repository.listeners (this s) = managed_listeners →
  ev ≠ "error" → ev ≠ "ready" → ev ≠ "addedPackage" →
  (emit_repository ev a s).1 = Ok tt.
Proof.
  intros Hl H1 H2 H3. rewrite emit_repository_this, Hl.
  rewrite (bind_ok _ _ _ _ _ (record_run _ s)).
  assert (Hnone : listeners_for ev managed_listeners = []).
  { unfold listeners_for, managed_listeners. rewrite !filter_cons, filter_nil. cbn [fst].
    rewrite !decide_False; [done|..]; intros Heq%String.eqb_eq; congruence. }
  unfold dispatch. rewrite Hnone.
  destruct (String.eqb_spec ev "error"); [congruence|done].
Qed.

Lemma attentive_quiet s s' : attentive s → quiet_step s s' → attentive s'.
Proof.
  intros [Hl Hm] (_ & _ & _ & _ & _ & Hl' & Hm' & _). unfold attentive. by rewrite Hl', Hm'.
Qed.

Lemma attentive_traced s t : attentive (traced s t) → attentive s.
Proof. by intros [Hl Hm]. Qed.

Section HeardWalk.
Context `{Platform}.

(** The walk of the tree returns whenever the errors it meets are
    heard. *)
Lemma populateWalkQueue_ok node directory s :
  attentive s → (_populateWalkQueue node directory s).1 = Ok tt.
Proof.
  intros Hs.
  pose proof (quiet_populateWalkQueue s node directory s (quiet_step_refl s)) as Hq.
  apply (attentive_quiet _ _ Hs) in Hq. revert Hq.
  assert (Hcatch : ∀ (body : M State unit) s0,
            attentive (try_catch body (fun err => emit_repository "error" [an_error err]) s0).2 →
            (try_catch body (fun err => emit_repository "error" [an_error err]) s0).1 = Ok tt).
  { intros body s0. unfold try_catch. destruct (body s0) as [[[]|e] s'] eqn:Hb; [done|].
    destruct (emit_repository_run "error" [an_error e] s') as (o & t & Hrun & _).
    rewrite Hrun. simpl. intros Hatt%attentive_traced.
    pose proof (emit_repository_error_managed e [] s' (proj1 Hatt)) as Ho.
    rewrite Hrun in Ho. simpl in Ho. rewrite Ho. by rewrite bool_decide_eq_true_2 by apply Hatt. }
  assert (Hgets : ∀ (k : Repository.t → M State unit) s0,
            (r <- gets this ;; k r) s0 = k (this s0) s0) by reflexivity.
  destruct node; simpl; rewrite Hgets; apply Hcatch.
Qed.
End HeardWalk.

(** ** A scan that finds no candidate, and how it ends *)

Section NoCandidate.
Context `{Platform}.

(** C10. A scan that finds the queue empty and whose walk of the tree
    pushes no candidate, with the listeners a repository can have.
    However the scan ends, the queue signals no "emptied" and the
    repository no "ready", and the time of the last scan,
    [_hasCompletedScan] and the index are as they were (unset and empty
    for a repository that has not scanned before). The scan ends as its
    walk of the tree ends: it returns when the errors of the walk are
    heard, and it fails with the error of the listing when the directory
    of the repository cannot be listed and nobody listens for the
    manager's "error". *)
Theorem scan_without_candidates fs stack s :
  tame (Repository.listeners (this s)) →
  walkQueue s = [] →
  walkQueue
    (_populateWalkQueue (resolve fs (Repository.dir (this s))) (Repository.dir (this s)) s).2
  = [] →
  let s' := (scan fs stack s).2 in
  (emptyings (appended (scan fs stack) s) = []
   ∧ readies (appended (scan fs stack) s) = []
   ∧ Repository.lastscan (this s') = Repository.lastscan (this s)
   ∧ Repository._hasCompletedScan (this s') = Repository._hasCompletedScan (this s)
   ∧ Repository.packages (this s') = Repository.packages (this s))
  ∧ (scan fs stack s).1
    = (_populateWalkQueue (resolve fs (Repository.dir (this s)))
         (Repository.dir (this s)) s).1
  ∧ (attentive s → (scan fs stack s).1 = Ok tt)
  ∧ (∀ code,
       Repository.listeners (this s) = managed_listeners →
       "error" ∉ manager_listens s →
       resolve fs (Repository.dir (this s)) = UnreadableDir code →
       (scan fs stack s).1 = Throw (IOError code)).
Proof.
  intros Htame Hq Hnone s'.
  set (populate := _populateWalkQueue (resolve fs (Repository.dir (this s)))
                     (Repository.dir (this s))) in *.
  assert (Hscan : ∃ s1, scan fs stack s = ((populate s).1, s1) ∧ idle s s1).
  { unfold scan. unfold bind at 1, gets at 1.
    pose proof (emit_repository_ok s "scanning" [a_repository (Repository.name (this s))]
                  Htame ltac:(done) ltac:(done)) as Hemit.
    destruct (emit_repository_run "scanning" [a_repository (Repository.name (this s))] s)
      as (o & t & Ea & Ht).
    rewrite Ea in Hemit. simpl in Hemit. subst o.
    rewrite (bind_ok _ _ _ _ _ Ea).
    set (sa := traced s _).
    set (sb := (once_emptied sa).2).
    rewrite (bind_ok _ _ sa tt sb) by reflexivity.
    assert (Hidle_b : idle s sb).
    { destruct s as [r h tr out c ml].
      apply (idle_step _ (mkState r h tr out c ml)); try done; [apply idle_refl| |].
      - apply readies_other; auto.
      - match goal with |- emptyings (?e :: t) = [] => change (e :: t) with ([e] ++ t) end.
        by rewrite emptyings_app, emptyings_other, emptyings_manager. }
    assert (Hagree_b : agree s sb) by done.
    fold populate.
    destruct (agree_populateWalkQueue (resolve fs (Repository.dir (this s)))
                (Repository.dir (this s)) s sb Hagree_b) as [Ho Hagree_c].
    fold populate in Ho, Hagree_c.
    assert (Hidle_c : idle s (populate sb).2).
    { apply stable_populateWalkQueue; [|apply idle_push|done].
      intros a. by apply idle_emit_repository. }
    rewrite Ho.
    destruct (populate sb) as [[[]|e] sc] eqn:Ec; simpl in *.
    - rewrite (bind_ok _ _ sb tt sc Ec).
      rewrite processWalkQueue_empty; [by exists sc|].
      destruct Hagree_c as (_ & _ & _ & _ & _ & Hqc). by rewrite <- Hqc.
    - rewrite (bind_throw _ _ sb e sc Ec). by exists sc. }
  destruct Hscan as (s1 & Hrun & (Hp & Hl & Hf & t & Ht & Hr & He)).
  assert (Happ : appended (scan fs stack) s = t) by (apply appended_app; by rewrite Hrun).
  unfold s'. rewrite Happ, Hrun. simpl. split; [done|]. split; [done|]. split.
  - intros Hatt. by apply populateWalkQueue_ok.
  - intros code Hl' Hdeaf Hdir. unfold populate. rewrite Hdir. simpl.
    unfold bind at 1, gets at 1. unfold try_catch. simpl.
    rewrite (emit_repository_error_managed (IOError code) [] s Hl').
    by rewrite bool_decide_eq_false_2.
Qed.
End NoCandidate.

(** ** Worked examples *)

Lemma index_valid_fresh_main : index_valid fresh_main.
Proof.
  intros key pkg Hkey. change (Repository.packages (this fresh_main)) with (∅ : gmap string nat) in Hkey.
  by rewrite lookup_empty in Hkey.
Qed.

Lemma tame_managed_listeners : tame managed_listeners.
Proof. intros ev l Hin. by right. Qed.

Lemma plainly_configured_fresh_main : plainly_configured fresh_main.
Proof. reflexivity. Qed.


(** /repo/anon/PACKAGE declares an identifier and no name. *)
Lemma missing_requirement_is_signalled_once_witness :
  let s' := (_walkPkgDir (H:=Toy.platform) tree_nameless 100
               (Some (metadata_of "anon")) fresh_main).2 in
  (local_phase (H:=Toy.platform) tree_nameless 100 fresh_main (metadata_of "anon")).1 = Ok tt
  ∧ Repository.invalidPackages (this s') = [0]
  ∧ Repository.packages (this s') = ∅.
Proof.
  intros s'.
  destruct (missing_requirement_is_signalled_once (H:=Toy.platform) tree_nameless 100
              fresh_main (metadata_of "anon")
              (local_phase (H:=Toy.platform) tree_nameless 100 fresh_main
                 (metadata_of "anon")).2
              plainly_configured_fresh_main index_valid_fresh_main)
    as (_ & _ & Hinv & Hpk & _).
  - vm_compute. reflexivity.
  - left. vm_compute. reflexivity.
  - split; [vm_compute; reflexivity|]. split; [exact Hinv | exact Hpk].
Defined.


(** A first scan of [tree_alpha_beta] by the repository of [addRepository]:
    its queue drains. *)
Lemma ready_signalled_at_most_once_witness :
  let s' := (scan (H:=Toy.platform) tree_alpha_beta 100 fresh_main).2 in
  tame managed_listeners
  ∧ emptyings (appended (scan (H:=Toy.platform) tree_alpha_beta 100) fresh_main) ≠ []
  ∧ Repository._hasCompletedScan (this s') = true
  ∧ length (readies (trace s')) = 1
  ∧ Repository.lastscan (this s') = Some 1.
Proof.
  intros s'.
  destruct (ready_signalled_at_most_once (H:=Toy.platform) (settings_main rules_name_guid)
              managed_listeners ["error"] [] tree_alpha_beta 100
              tame_managed_listeners) as (_ & Hdrain & _).
  assert (Hne : emptyings (appended (scan (H:=Toy.platform) tree_alpha_beta 100) fresh_main)
                ≠ []) by (vm_compute; discriminate).
  destruct (Hdrain Hne) as (Hf & Hone & _).
  split; [exact tame_managed_listeners|]. split; [exact Hne|]. split; [exact Hf|].
  split; [exact Hone|]. vm_compute. reflexivity.
Defined.

(** A tree without any PACKAGE file, scanned by the repository of
    [addRepository] while somebody listens for the manager's "error". *)
Lemma scan_without_candidates_witness :
  tame (Repository.listeners (this fresh_main))
  ∧ walkQueue fresh_main = []
  ∧ attentive fresh_main
  ∧ (scan (H:=Toy.platform) tree_no_candidate 100 fresh_main).1 = Ok tt
  ∧ Repository.lastscan (this (scan (H:=Toy.platform) tree_no_candidate 100 fresh_main).2)
    = None.
Proof.
  assert (Hatt : attentive fresh_main).
  { split; [reflexivity|]. apply elem_of_cons. by left. }
  split; [exact tame_managed_listeners|]. split; [reflexivity|]. split; [exact Hatt|].
  destruct (scan_without_candidates (H:=Toy.platform) tree_no_candidate 100 fresh_main)
    as ((_ & _ & Hlast & _) & _ & Hok & _).
  - exact tame_managed_listeners.
  - reflexivity.
  - vm_compute. reflexivity.
  - split; [exact (Hok Hatt) | exact Hlast].
Defined.

(** [tree_alpha_beta] scanned twice. *)
Lemma second_scan_only_collides_witness :
  plainly_configured fresh_main
  ∧ walkQueue fresh_main = []
  ∧ (scan (H:=Toy.platform) tree_alpha_beta 100 fresh_main).1 = Ok tt
  ∧ Repository.packages
      (this (scan (H:=Toy.platform) tree_alpha_beta 100 scanned_alpha_beta).2)
    = Repository.packages (this scanned_alpha_beta).
Proof.
  split; [reflexivity|]. split; [reflexivity|]. split; [vm_compute; reflexivity|].
  destruct (second_scan_only_collides (H:=Toy.platform) tree_alpha_beta 100 fresh_main
              scanned_alpha_beta) as (Hsame & _).
  - reflexivity.
  - reflexivity.
  - vm_compute. reflexivity.
  - exact Hsame.
Defined.


(** Scanning [tree_alpha_beta] twice: the first scan indexes both packages
    and turns none away; the second creates two more objects, signals the
    not-unique error for each and appends both to [invalidPackages]; nothing
    is ever signalled as updated. *)
Lemma second_scan_raises_collisions :
  let first := scan (H:=Toy.platform) tree_alpha_beta 100 fresh_main in
  let second := scan (H:=Toy.platform) tree_alpha_beta 100 first.2 in
  first.1 = Ok tt
  ∧ Repository.invalidPackages (this first.2) = []
  ∧ second.1 = Ok tt
  ∧ Repository.invalidPackages (this second.2) = [2; 3]
  ∧ events_of (from_repository "main") "error"
      (appended (scan (H:=Toy.platform) tree_alpha_beta 100) first.2)
    = [collision "main" 2; collision "main" 3]
  ∧ filter (fun e => event e = "updated") (trace second.2) = [].
Proof. vm_compute. done. Qed.


(** The directory of the repository cannot be listed and nobody listens
    for the manager's "error": the scan finds the queue empty and pushes
    no candidate, and it fails with the error of the listing. *)
Lemma scan_without_candidates_fails_unheard :
  let run := scan (H:=Toy.platform) tree_unlistable 100 deaf_main in
  walkQueue deaf_main = []
  ∧ walkQueue run.2 = []
  ∧ filter (fun e => event e = "enqueued") (trace run.2) = []
  ∧ emptyings (trace run.2) = []
  ∧ readies (trace run.2) = []
  ∧ Repository.lastscan (this run.2) = None
  ∧ Repository.packages (this run.2) = ∅
  ∧ run.1 = Throw (IOError "EACCES").
Proof. vm_compute. done. Qed.

(** /repo/anon/PACKAGE declares an identifier and no name, and the rules
    have a rule keyed emit that matches: the package reads, extracts and
    lists, and is left without a name; its walk then fails with a
    TypeError at the call of [emit], nothing is signalled and the package
    is neither in [invalidPackages] nor in the index. *)
Lemma rule_keyed_emit_silences_the_package :
  let run := _walkPkgDir (H:=Toy.platform) tree_nameless 100
               (Some (metadata_of "anon")) fresh_emit in
  let local := local_phase (H:=Toy.platform) tree_nameless 100 fresh_emit
                 (metadata_of "anon") in
  local.1 = Ok tt
  ∧ Package.name (self local.2) = None
  ∧ Package.guid (self local.2) = Some "N0"
  ∧ Package.others (self local.2) !! "emit" = Some (Some "N0")
  ∧ run.1 = Throw (TypeError "this.emit is not a function")
  ∧ trace run.2 = []
  ∧ Repository.invalidPackages (this run.2) = []
  ∧ Repository.packages (this run.2) = ∅.
Proof. vm_compute. done. Qed.

(** ** Invariants of every history *)

(** An invariant that quiet steps and walks keep is kept by whatever the
    repository does. *)
Lemma stable_perform `{Platform} (I : State → Prop) :
  (∀ s s', I s → quiet_step s s' → I s') →
  (∀ fs stack s file o s', I s → walked fs stack s file o s' → I s') →
  ∀ a, stable I (perform a).
Proof.
  intros Hq Hw.
  assert (Hstep : ∀ A (m : M State A), (∀ s0, stable (quiet_step s0) m) → stable I m).
  { intros A m Hm s Hs. apply (Hq s); [done|]. apply Hm, quiet_step_refl. }
  intros [fs stack| |fs stack dir]; simpl.
  - apply stable_scan.
    + intros a. apply Hstep. intros s0. by apply quiet_emit_repository.
    + apply Hstep. intros s0. apply quiet_once_emptied.
    + intros a. apply Hstep. intros s0. by apply quiet_emit_repository.
    + intros item. apply Hstep. intros s0. apply quiet_push.
    + apply Hstep. intros s0. apply quiet_next.
    + apply stable_walkPkgDir. intros s file o s' Hs. by apply Hw.
  - apply stable_bind; [apply Hstep; intros s0; apply quiet_next|]. intros. apply stable_ret.
  - apply stable_walkPkgDir. intros s file o s' Hs. by apply Hw.
Qed.

Lemma stable_after `{Platform} (I : State → Prop) :
  (∀ s s', I s → quiet_step s s' → I s') →
  (∀ fs stack s file o s', I s → walked fs stack s file o s' → I s') →
  ∀ history s, I s → I (after history s).
Proof.
  intros Hq Hw. induction history as [|a history IH]; intros s Hs; [done|].
  simpl. apply IH. by apply stable_perform.
Qed.

Lemma truthy_at_lookup {V} (table : gmap string V) key v :
  table !! key = Some v → truthy_at table key = true.
Proof.
  intros Hk. unfold truthy_at. apply orb_true_iff. left. apply bool_decide_eq_true. by exists v.
Qed.

Lemma truthy_at_false {V} (table : gmap string V) key :
  truthy_at table key = false → table !! key = None.
Proof.
  unfold truthy_at. intros [Hk _]%orb_false_iff. apply bool_decide_eq_false in Hk.
  by apply eq_None_not_Some.
Qed.

Lemma kept_walked `{Platform} fs stack key pkg p s file o s' :
  kept key pkg p s → walked fs stack s file o s' → kept key pkg p s'.
Proof.
  intros [Hk Hp] Hw. pose proof (lookup_lt_Some _ _ _ Hp) as Hlt.
  pose proof (truthy_at_lookup _ _ _ Hk) as Htaken.
  destruct Hw as [e fr Hl | fr o t Hl Hv Ht | fr o t Hl Hv Htr Ht | fr o t Hl Hv Htr Ht
     | fr Hl Hmute | fr Hl Hv Hhw];
    try destruct o; split; simpl; try (by rewrite lookup_app_l); try done.
  all: rewrite lookup_insert_ne; [done|]; intros Heq; rewrite Heq in Htr; congruence.
Qed.

(** An indexed package stays in the index under its key, and the object
    itself is never written to again, whatever the repository does
    afterwards. *)
Theorem indexed_package_stays `{Platform} key pkg p history s :
  kept key pkg p s → kept key pkg p (after history s).
Proof.
  apply stable_after.
  - intros s1 s2 [Hk Hp] (Hpk & _ & _ & _ & _ & _ & _ & Hh & _).
    split; [by rewrite Hpk | by rewrite Hh].
  - intros fs stack s1 file o s2. apply kept_walked.
Qed.

Lemma indexed_package_stays_witness :
  kept "DUP" 0 (nth 0 (heap after_first_of_dup) (new_Package [] []))  after_first_of_dup
  ∧ Repository.packages
      (this (after (H:=Toy.platform) [a_scan tree_dup 100] after_first_of_dup)) !! "DUP"
    = Some 0.
Proof.
  assert (Hk : kept "DUP" 0 (nth 0 (heap after_first_of_dup) (new_Package [] []))
                 after_first_of_dup) by (split; vm_compute; reflexivity).
  split; [exact Hk|].
  apply (indexed_package_stays (H:=Toy.platform) "DUP" 0 _ [a_scan tree_dup 100] _ Hk).
Defined.

Lemma sorted_out_walked `{Platform} fs stack s file o s' :
  sorted_out s → walked fs stack s file o s' → sorted_out s'.
Proof.
  intros (Hidx & Hinv & Hnd & Hdis & Hinj) Hw.
  rewrite Forall_forall in Hinv.
  assert (Hfresh : length (heap s) ∉ Repository.invalidPackages (this s)).
  { intros Hin. specialize (Hinv _ Hin). lia. }
  assert (Hpush : ∀ (r : Repository.t) (q : Package.t),
            Repository.packages r = Repository.packages (this s) →
            Repository.invalidPackages r
            = Repository.invalidPackages (this s) ++ [length (heap s)] →
            ∀ t c k, sorted_out (mkState r (heap s ++ [q]) t c k (manager_listens s))).
  { intros r q Hp Hi t c k. unfold sorted_out. simpl. rewrite Hp, Hi, length_app. simpl.
    split; [intros key pkg Hk; specialize (Hidx _ _ Hk); lia|].
    split.
    { apply Forall_app. split; [|by repeat constructor; lia].
      apply Forall_forall. intros x Hx. specialize (Hinv _ Hx). lia. }
    split.
    { apply NoDup_app. split; [done|]. split; [|by apply NoDup_singleton].
      intros x Hx ->%list_elem_of_singleton. done. }
    split; [|done].
    intros key pkg Hk [Hin | ->%list_elem_of_singleton]%elem_of_app.
    - by apply (Hdis key pkg).
    - specialize (Hidx _ _ Hk). lia. }
  assert (Hgrow : ∀ (q : Package.t) t c k,
            sorted_out (mkState (this s) (heap s ++ [q]) t c k (manager_listens s))).
  { intros q t c k. unfold sorted_out. simpl. rewrite length_app. simpl.
    split; [intros key pkg Hk; specialize (Hidx _ _ Hk); lia|].
    split; [apply Forall_forall; intros x Hx; specialize (Hinv _ Hx); lia|]. done. }
  destruct Hw as [e fr Hl | fr o t Hl Hv Ht | fr o t Hl Hv Htr Ht | fr o t Hl Hv Htr Ht
     | fr Hl Hmute | fr Hl Hv Hhw]; try apply Hgrow.
  - by apply Hpush.
  - destruct o; by apply Hpush.
  - assert (Hadd : ∀ (q : Package.t) t c k,
              sorted_out (mkState (index (property_key (Package.guid (self fr)))
                                     (length (heap s)) (this s))
                            (heap s ++ [q]) t c k (manager_listens s))).
    { intros q t' c k. unfold sorted_out. simpl. rewrite length_app. simpl.
      split.
      { intros key pkg [[_ <-] | [_ Hk]]%lookup_insert_Some; [lia|].
        specialize (Hidx _ _ Hk). lia. }
      split; [apply Forall_forall; intros x Hx; specialize (Hinv _ Hx); lia|].
      split; [done|].
      split.
      { intros key pkg [[_ <-] | [_ Hk]]%lookup_insert_Some; [done|]. by apply (Hdis key). }
      intros key1 key2 pkg [[<- <-] | [Hne1 Hk1]]%lookup_insert_Some
                           [[<- Heq] | [Hne2 Hk2]]%lookup_insert_Some; try done.
      - specialize (Hidx _ _ Hk2). lia.
      - specialize (Hidx _ _ Hk1). lia.
      - by apply (Hinj key1 key2 pkg). }
    destruct o; apply Hadd.
Qed.

(** Whatever a repository has done, every object it has filed is filed
    once: in the index under one key, or once in [invalidPackages], never
    in both. *)
Theorem every_package_is_filed_once `{Platform} options table listens history :
  sorted_out (after history (fresh options table listens)).
Proof.
  apply stable_after.
  - intros s1 s2 (Hidx & Hinv & Hnd & Hdis & Hinj) (Hpk & Hi & _ & _ & _ & _ & _ & Hh & _).
    unfold sorted_out. rewrite Hpk, Hi, Hh. done.
  - intros fs stack s1 file o s2. apply sorted_out_walked.
  - unfold sorted_out, fresh, initial. simpl.
    split; [intros key pkg Hk; by rewrite lookup_empty in Hk|].
    split; [constructor|]. split; [constructor|].
    split; intros key; intros; by rewrite lookup_empty in *.
Qed.

(** A valid package whose identifier is the name of a member that every
    object inherits, such as toString or constructor, is turned away as a
    duplicate, even by an index that holds nothing under that
    identifier. The rules are plain ones. *)
Theorem inherited_identifier_is_a_collision `{Platform} fs stack s file fr g :
  plainly_configured s →
  local_phase fs stack s file = (Ok tt, fr) →
  isValid (self fr) = true →
  Package.guid (self fr) = Some g →
  g ∈ Object_prototype →
  let pkg := length (heap s) in
  let s' := (_walkPkgDir fs stack (Some file) s).2 in
  Repository.packages (this s') = Repository.packages (this s)
  ∧ Repository.invalidPackages (this s') = Repository.invalidPackages (this s) ++ [pkg]
  ∧ collision (Repository.name (this s)) pkg ∈ appended (_walkPkgDir fs stack (Some file)) s.
Proof.
  intros Hplain Hl Hv Hg Hin pkg s'.
  destruct (local_phase_plain fs stack s file _ _ Hplain Hl) as [Hemit Hunwalked].
  assert (Htaken : truthy_at (Repository.packages (this s))
                     (property_key (Package.guid (self fr))) = true).
  { rewrite Hg. unfold truthy_at. apply orb_true_iff. right. by apply bool_decide_eq_true. }
  pose proof (walkPkgDir_walked fs stack s file) as Hw. fold s' in Hw.
  assert (Happ : ∀ t, trace s' = trace s ++ t →
                 appended (_walkPkgDir fs stack (Some file)) s = t).
  { intros t Ht. by apply appended_app. }
  destruct Hw as [e fr' Hl'|fr' o' t Hl' Hv' Ht|fr' o' t Hl' Hv' Htr Ht|fr' o' t Hl' Hv' Htr Ht
     |fr' Hl' Hmute|fr' Hl' Hv' Hhw];
    rewrite Hl in Hl'; try discriminate Hl'; injection Hl' as <-; try congruence.
  destruct o'; simpl in *; rewrite (Happ _ eq_refl);
    (split; [done|]); (split; [done|]); apply elem_of_cons; right; apply elem_of_cons; by left.
Qed.

Lemma inherited_identifier_is_a_collision_witness :
  let s' := (_walkPkgDir (H:=Toy.platform) tree_inherited 100
               (Some (metadata_of "odd")) fresh_main).2 in
  Repository.packages (this fresh_main) = ∅
  ∧ "toString" ∈ Object_prototype
  ∧ Repository.packages (this s') = ∅
  ∧ Repository.invalidPackages (this s') = [0].
Proof.
  intros s'.
  destruct (inherited_identifier_is_a_collision (H:=Toy.platform) tree_inherited 100
              fresh_main (metadata_of "odd")
              (local_phase (H:=Toy.platform) tree_inherited 100 fresh_main
                 (metadata_of "odd")).2
              "toString") as (Hpk & Hinv & _).
  - reflexivity.
  - vm_compute. reflexivity.
  - vm_compute. reflexivity.
  - vm_compute. reflexivity.
  - by vm_compute; repeat constructor.
  - split; [reflexivity|]. split; [by vm_compute; repeat constructor|].
    split; [exact Hpk | exact Hinv].
Defined.

(** ** What a loop over the queue leaves *)

Section Accounting.
Context `{Platform}.
Variable fs : Node.
Variable stack : nat.

Lemma filed_walked pkg s file o s' :
  filed pkg s → walked fs stack s file o s' → filed pkg s'.
Proof.
  intros Hf Hw.
  destruct Hw as [e fr Hl | fr o t Hl Hv Ht | fr o t Hl Hv Htr Ht | fr o t Hl Hv Htr Ht
     | fr Hl Hmute | fr Hl Hv Hhw];
    try destruct o; simpl; try done;
    destruct Hf as [Hin | [key Hk]];
    try (left; simpl; apply elem_of_app; by left);
    try (by left); try (right; by exists key).
  all: right; exists key; simpl; rewrite lookup_insert_ne; [done|];
    intros Heq; rewrite Heq in Htr; by rewrite (truthy_at_lookup _ _ _ Hk) in Htr.
Qed.

Lemma filed_quiet pkg s s' : filed pkg s → quiet_step s s' → filed pkg s'.
Proof. intros Hf (Hp & Hi & _). unfold filed. by rewrite Hp, Hi. Qed.

Lemma package_of_walked file0 pkg s file o s' :
  package_of file0 pkg s → walked fs stack s file o s' → package_of file0 pkg s'.
Proof.
  intros (p & Hp & Hd & Hf) Hw. exists p. split; [|done].
  pose proof (lookup_lt_Some _ _ _ Hp) as Hlt.
  destruct Hw as [e fr Hl | fr o t Hl Hv Ht | fr o t Hl Hv Htr Ht | fr o t Hl Hv Htr Ht
     | fr Hl Hmute | fr Hl Hv Hhw];
    try destruct o; simpl; by rewrite lookup_app_l.
Qed.

Lemma package_of_quiet file0 pkg s s' :
  package_of file0 pkg s → quiet_step s s' → package_of file0 pkg s'.
Proof.
  intros Hf (_ & _ & _ & _ & _ & _ & _ & Hh & _). unfold package_of. by rewrite Hh.
Qed.

(** A walk that returns has allocated the package of its file and filed
    it. *)
Lemma walked_filed s file s' :
  plainly_configured s →
  walked fs stack s file (Ok tt) s' →
  length (heap s') = Datatypes.S (length (heap s))
  ∧ package_of file (length (heap s)) s'
  ∧ filed (length (heap s)) s'.
Proof.
  intros Hplain Hw. pose proof (local_phase_untouched fs stack s file) as Hun.
  assert (Hlast : ∀ (h : list Package.t) q, (h ++ [q]) !! length h = Some q).
  { intros h q. by rewrite lookup_app_r, Nat.sub_diag by lia. }
  inversion Hw as [e fr Hl | fr o t Hl Hv Ht | fr o t Hl Hv Htr Ht | fr o t Hl Hv Htr Ht
     | fr Hl Hmute | fr Hl Hv Hhw];
    subst; destruct (local_phase_plain fs stack s file _ _ Hplain Hl) as [_ Hunwalked];
    rewrite Hl in Hun; destruct Hun as (_ & _ & Hd & Hf & _); simpl in *;
    [| | |congruence].
  - rewrite length_app. simpl. split; [lia|]. split.
    + eexists. split; [apply Hlast|]. done.
    + left. simpl. apply elem_of_app. right. by apply list_elem_of_singleton.
  - rewrite length_app. simpl. split; [lia|]. split.
    + eexists. split; [apply Hlast|]. done.
    + left. simpl. apply elem_of_app. right. by apply list_elem_of_singleton.
  - rewrite length_app. simpl. split; [lia|]. split.
    + eexists. split; [apply Hlast|]. done.
    + right. eexists. simpl. apply lookup_insert_eq.
Qed.

Lemma while_accounts fuel : ∀ s s',
  plainly_configured s →
  while_walkQueue fs stack fuel s = (Ok true, s') →
  walkQueue s' = []
  ∧ length (heap s') = length (heap s) + length (walkQueue s)
  ∧ ∀ i file, walkQueue s !! i = Some file →
      package_of file (length (heap s) + i) s' ∧ filed (length (heap s) + i) s'.
Proof.
  induction fuel as [|fuel IH]; intros s s' Hplain;
    destruct (walkQueue s) as [|x rest] eqn:Hq;
    try (rewrite while_walkQueue_nil by done; intros [= <-]; split; [done|];
         split; [simpl; lia|]; by intros i file ?).
  - by rewrite (while_walkQueue_out fs stack s x rest).
  - destruct (while_walkQueue_step fs stack fuel s x rest Hq)
      as (s1 & o & s2 & Hquiet & Hq1 & Hw & ->).
    destruct o as [[]|e]; [|done]. intros Hrun.
    destruct (walked_configured _ _ _ _ _ _ Hw) as (Hq2 & Hc2 & _).
    pose proof (plainly_configured_configured _ _ (quiet_step_configured _ _ Hquiet) Hplain)
      as Hplain1.
    pose proof (plainly_configured_configured _ _ Hc2 Hplain1) as Hplain2.
    destruct (walked_filed _ _ _ Hplain1 Hw) as (Hlen & Hpk & Hfiled).
    destruct Hquiet as (_ & _ & _ & _ & _ & _ & _ & Hh & _). rewrite Hh in *.
    destruct (IH s2 s' Hplain2 Hrun) as (Hqf & Hlen' & Hrest).
    rewrite Hq2, Hq1 in Hlen', Hrest.
    split; [done|]. split; [simpl; lia|].
    assert (Hkeep : ∀ I : State → Prop, I s2 →
              (∀ a b, I a → quiet_step a b → I b) →
              (∀ a file o b, I a → walked fs stack a file o b → I b) → I s').
    { intros I Hs2 HIq HIw.
      assert (Hst : stable I (while_walkQueue fs stack fuel)).
      { apply stable_while_walkQueue.
        - intros a Ha. apply (HIq a); [done|]. apply quiet_next, quiet_step_refl.
        - apply stable_walkPkgDir. intros a file o b Ha. by apply HIw. }
      specialize (Hst s2 Hs2). by rewrite Hrun in Hst. }
    intros [|i] file Hi; simpl in Hi.
    + injection Hi as <-. rewrite Nat.add_0_r. split.
      * apply (Hkeep (package_of x (length (heap s))) Hpk);
          [apply package_of_quiet | intros a file o b; apply package_of_walked].
      * apply (Hkeep (filed (length (heap s))) Hfiled);
          [apply filed_quiet | intros a file o b; apply filed_walked].
    + specialize (Hrest i file Hi). rewrite Hlen in Hrest.
      by replace (length (heap s) + Datatypes.S i) with (Datatypes.S (length (heap s)) + i) by lia.
Qed.

(** When [_processWalkQueue] returns, the queue is empty and every
    candidate that was in it has been walked, in the order of the queue:
    the objects allocated since are the packages of the candidates, one
    each, and each is in the index or in [invalidPackages]. The rules
    are plain ones. *)
Theorem processed_candidates_are_filed s s' :
  plainly_configured s →
  _processWalkQueue fs stack s = (Ok tt, s') →
  walkQueue s' = []
  ∧ length (heap s') = length (heap s) + length (walkQueue s)
  ∧ ∀ i file, walkQueue s !! i = Some file →
      package_of file (length (heap s) + i) s' ∧ filed (length (heap s) + i) s'.
Proof.
  intros Hplain. rewrite processWalkQueue_run.
  pose proof (processWalkQueue_bound fs stack (length (walkQueue s)) s (le_n _)) as Hbound.
  destruct (while_walkQueue fs stack (length (walkQueue s)) s) as [[[|]|e] sf] eqn:Hloop;
    simpl in *; try done.
  intros [= <-]. by apply (while_accounts _ _ _ Hplain Hloop).
Qed.
End Accounting.

Lemma processed_candidates_are_filed_witness :
  let s' := (_processWalkQueue (H:=Toy.platform) tree_alpha_beta 100 candidates_alpha_beta).2 in
  walkQueue candidates_alpha_beta = [metadata_of "alpha"; metadata_of "beta"]
  ∧ walkQueue s' = []
  ∧ length (heap s') = 2
  ∧ filed 1 s'.
Proof.
  intros s'.
  destruct (processed_candidates_are_filed (H:=Toy.platform) tree_alpha_beta 100
              candidates_alpha_beta s') as (Hq & Hlen & Hall).
  - vm_compute. reflexivity.
  - vm_compute. reflexivity.
  - split; [vm_compute; reflexivity|]. split; [exact Hq|]. split; [exact Hlen|].
    apply (Hall 1 (metadata_of "beta")). vm_compute. reflexivity.
Defined.

(** ** Looking up what a scan has found *)

Lemma member_at_truthy {V} (table : gmap string V) key :
  truthy_at table key = true → key ∉ Object_prototype → ∃ pkg, member_at table key = own pkg.
Proof.
  unfold truthy_at, member_at. intros [Hk | Hk]%orb_true_iff Hnot.
  - apply bool_decide_eq_true in Hk as [pkg Hk]. exists pkg. by rewrite Hk.
  - by apply bool_decide_eq_true in Hk.
Qed.

Section Retrieval.
Context `{Platform}.
Variable fs : Node.
Variable stack : nat.

(** After a scan that returned, every candidate that holds a valid
    package has its identifier in the index, unless the identifier is the
    name of an inherited member: [getPackage] gives a valid package with
    that identifier. The rules are plain ones. *)
Theorem valid_candidates_are_retrievable s s1 file p g :
  plainly_configured s →
  index_valid s →
  scan fs stack s = (Ok tt, s1) →
  file ∈ walkQueue (discovery fs s).2 →
  verdict_in fs stack s file = (Ok tt, p) →
  isValid p = true →
  Package.guid p = Some g →
  g ∉ Object_prototype →
  ∃ pkg q, getPackage g s1 = (Ok (own pkg), s1)
           ∧ heap s1 !! pkg = Some q
           ∧ isValid q = true
           ∧ Package.guid q = Some g.
Proof.
  intros Hplain Hvalid Hscan Hin Hverdict Hv Hg Hnot.
  pose proof (index_valid_scan fs stack s Hvalid) as Hvalid1. rewrite Hscan in Hvalid1.
  simpl in Hvalid1.
  rewrite scan_discovery in Hscan.
  pose proof (quiet_discovery s fs s (quiet_step_refl s)) as Hquiet.
  destruct (discovery fs s) as [[[]|e] sd] eqn:Hd; [|done]. simpl in *.
  rewrite processWalkQueue_run in Hscan.
  pose proof (processWalkQueue_bound fs stack (length (walkQueue sd)) sd (le_n _)) as Hbound.
  destruct (while_walkQueue fs stack (length (walkQueue sd)) sd) as [[[|]|e'] sf] eqn:Hloop;
    simpl in *; try done.
  injection Hscan as ->.
  pose proof (plainly_configured_configured _ _ (quiet_step_configured _ _ Hquiet) Hplain)
    as Hplain_d.
  destruct (first_while fs stack _ _ _ Hplain_d Hloop) as (_ & Hknown).
  specialize (Hknown file Hin).
  rewrite (verdict_in_configured fs stack s sd file (quiet_step_configured _ _ Hquiet)) in Hknown.
  rewrite Hverdict in Hknown. unfold known in Hknown. simpl in Hknown.
  specialize (Hknown eq_refl Hv). rewrite Hg in Hknown. simpl in Hknown.
  destruct (member_at_truthy _ _ Hknown Hnot) as [pkg Hm].
  assert (Hk : Repository.packages (this s1) !! g = Some pkg).
  { unfold member_at in Hm. destruct (Repository.packages (this s1) !! g); [congruence|].
    by destruct (bool_decide _). }
  destruct (Hvalid1 g pkg Hk) as (q & Hq & Hvq & Hgq).
  exists pkg, q. unfold getPackage, gets. simpl. by rewrite Hm.
Qed.
End Retrieval.

Lemma valid_candidates_are_retrievable_witness :
  metadata_of "beta" ∈ walkQueue (discovery (H:=Toy.platform) tree_alpha_beta fresh_main).2
  ∧ ∃ pkg, getPackage "B2" scanned_alpha_beta = (Ok (own pkg), scanned_alpha_beta).
Proof.
  assert (Hin : metadata_of "beta"
                ∈ walkQueue (discovery (H:=Toy.platform) tree_alpha_beta fresh_main).2).
  { vm_compute. apply elem_of_cons. right. apply elem_of_cons. by left. }
  split; [exact Hin|].
  destruct (valid_candidates_are_retrievable (H:=Toy.platform) tree_alpha_beta 100
              fresh_main scanned_alpha_beta (metadata_of "beta")
              (verdict_in (H:=Toy.platform) tree_alpha_beta 100 fresh_main
                 (metadata_of "beta")).2 "B2" plainly_configured_fresh_main
              index_valid_fresh_main)
    as (pkg & q & Hget & _).
  - vm_compute. reflexivity.
  - exact Hin.
  - vm_compute. reflexivity.
  - vm_compute. reflexivity.
  - vm_compute. reflexivity.
  - vm_compute. intros Hin'. repeat (apply elem_of_cons in Hin' as [Hin' | Hin']; [discriminate Hin'|]).
    by apply elem_of_nil in Hin'.
  - by exists pkg.
Defined.

(** ** Errors that nobody hears *)

Lemma alike_record e e' s t : alike s t → alike (record e s).2 (record e' t).2.
Proof. by intros [? ?]. Qed.

Lemma alike_emit_manager ev a : rel alike (emit_manager ev a).
Proof.
  unfold emit_manager. apply rel_bind; [by apply rel_modify|]. intros _.
  apply rel_bind; [apply rel_gets; by intros s t [_ ?]|]. intros listens.
  unfold dispatch. repeat rel_step.
Qed.

Lemma alike_call_listener l a : rel alike (call_listener l a).
Proof.
  pose proof alike_emit_manager.
  unfold call_listener, _onRepoError, _onRepoReady, _onPackageAdded. repeat rel_step.
Qed.

(** How [emit] of the repository ends depends on who listens, and on
    nothing else. *)
Lemma emit_repository_outcome ev a s t :
  alike s t → (emit_repository ev a s).1 = (emit_repository ev a t).1.
Proof.
  intros Hst. pose proof Hst as [Hl Hm].
  assert (Hrel : rel alike (dispatch ev a (Repository.listeners (this t)) call_listener)).
  { unfold dispatch. pose proof alike_call_listener. repeat rel_step. }
  rewrite !emit_repository_this.
  rewrite (bind_ok _ _ _ _ _ (record_run _ s)), (bind_ok _ _ _ _ _ (record_run _ t)).
  rewrite Hl. apply Hrel. by split.
Qed.

Section Outcome.
Context `{Platform}.
Variable fs : Node.
Variable stack : nat.

(** How the walk of a candidate ends, once its package has read,
    extracted and listed with plain rules: as the [emit] of the
    repository that it leads to. *)
Lemma walkPkgDir_outcome s file fr :
  plainly_configured s →
  local_phase fs stack s file = (Ok tt, fr) →
  (_walkPkgDir fs stack (Some file) s).1
  = if isValid (self fr) then
      if truthy_at (Repository.packages (this s)) (property_key (Package.guid (self fr)))
      then (emit_repository "error"
              [an_error RepositoryNotUniquePackageError; a_package (length (heap s))] s).1
      else (emit_repository "packageAdded"
              [details false (Some (Repository.name (this s))) (Some (length (heap s)))] s).1
    else (emit_repository "error" [an_error PackageMissingRequirementError] s).1.
Proof.
  intros Hplain Hl. rewrite walkPkgDir_local.
  pose proof (local_phase_untouched fs stack s file) as Hun.
  destruct (local_phase_plain fs stack s file _ _ Hplain Hl) as [Hemit Hhw].
  apply (bool_decide_eq_false_2 _) in Hemit.
  rewrite Hl in *.
  destruct fr as [p out]. destruct Hun as (Hlis & _). simpl in *.
  set (pkg := length (heap s)) in *.
  assert (Hpkg : ∀ q o' t' c' k',
    heap (mkState o' (heap s ++ [q]) t' c' k' (manager_listens s)) !! pkg = Some q).
  { intros. simpl. by rewrite lookup_app_r, Nat.sub_diag by (unfold pkg; lia). }
  unfold settle, located.
  rewrite (bind_ok _ _ _ _ _ (deref_run _ pkg p (Hpkg _ _ _ _ _))).
  destruct (isValid p) eqn:Hv; simpl.
  - rewrite Hhw. simpl.
    unfold bind at 1. unfold bind at 1.
    rewrite (on_package_last _ _ (heap s) p) by done. simpl.
    rewrite (emit_package_run _ (Package.set_hasWalked true p)) by apply Hpkg.
    simpl. rewrite Hemit.
    unfold traced, set_trace, set_console, set_heap. simpl.
    rewrite Hlis. unfold dispatch. simpl.
    rewrite for_of_cons, for_of_nil.
    unfold bind at 1. unfold call_repository_listener, _onPkgCreated.
    rewrite (addPkg_run _ (Package.set_hasWalked true p)) by apply Hpkg.
    simpl.
    destruct (truthy_at _ _) eqn:Htr.
    + unfold set_this. simpl.
      match goal with |- context [emit_repository ?ev ?a ?s0] =>
        rewrite <- (emit_repository_outcome ev a s0 s) by done;
        destruct (emit_repository_run ev a s0) as (o & t & -> & Ht) end.
      unfold traced, set_trace. simpl.
      destruct o as [[]|e]; simpl; [|done].
      unfold bind at 1, new_Date at 1. simpl.
      by rewrite (on_package_last _ _ (heap s) (Package.set_hasWalked true p)).
    + unfold set_this. simpl.
      unfold bind at 1.
      match goal with |- context [emit_repository ?ev ?a ?s0] =>
        rewrite <- (emit_repository_outcome ev a s0 s) by done;
        destruct (emit_repository_run ev a s0) as (o & t & -> & Ht) end.
      unfold traced, set_trace. simpl.
      destruct o as [[]|e]; simpl; [|done].
      unfold bind at 1, new_Date at 1. simpl.
      by rewrite (on_package_last _ _ (heap s) (Package.set_hasWalked true p)).
  - rewrite (emit_package_run _ p) by apply Hpkg. rewrite Hemit.
    unfold traced, set_trace. simpl.
    rewrite Hlis. unfold dispatch. simpl.
    rewrite for_of_cons, for_of_nil.
    unfold bind at 1. unfold call_repository_listener.
    rewrite (onPkgError_run _ _ p) by apply Hpkg. rewrite Hv.
    unfold set_this. simpl.
    match goal with |- context [emit_repository ?ev ?a ?s0] =>
      rewrite <- (emit_repository_outcome ev a s0 s) by done;
      destruct (emit_repository_run ev a s0) as (o & t & -> & Ht) end.
    by destruct o as [[]|e].
Qed.
End Outcome.

Section Unheard.
Context `{Platform}.
Variable fs : Node.
Variable stack : nat.

(** With the listeners of [addRepository] and plain rules, the walk of a
    candidate whose package has read, extracted and listed fails exactly
    when the package is turned away and nobody listens for the manager's
    "error": the walk then fails with the error of the package, after the
    package has gone to [invalidPackages]. *)
Theorem walk_fails_when_the_error_is_unheard s file fr :
  plainly_configured s →
  Repository.listeners (this s) = managed_listeners →
  local_phase fs stack s file = (Ok tt, fr) →
  (_walkPkgDir fs stack (Some file) s).1
  = if bool_decide ("error" ∈ manager_listens s) then Ok tt
    else if negb (isValid (self fr)) then Throw PackageMissingRequirementError
    else if truthy_at (Repository.packages (this s))
                      (property_key (Package.guid (self fr)))
         then Throw RepositoryNotUniquePackageError
         else Ok tt.
Proof.
  intros Hplain Hlis Hl. rewrite (walkPkgDir_outcome fs stack s file fr Hplain Hl).
  rewrite !emit_repository_error_managed by done.
  rewrite emit_repository_unheard by done.
  destruct (isValid (self fr)), (truthy_at _ _), (bool_decide _); done.
Qed.
End Unheard.

Lemma walk_fails_when_the_error_is_unheard_witness :
  Repository.listeners (this deaf_main) = managed_listeners
  ∧ (_walkPkgDir (H:=Toy.platform) tree_nameless 100 (Some (metadata_of "anon")) deaf_main).1
    = Throw PackageMissingRequirementError.
Proof.
  split; [reflexivity|].
  rewrite (walk_fails_when_the_error_is_unheard (H:=Toy.platform) tree_nameless 100 deaf_main
             (metadata_of "anon")
             (local_phase (H:=Toy.platform) tree_nameless 100 deaf_main (metadata_of "anon")).2).
  - vm_compute. reflexivity.
  - reflexivity.
  - reflexivity.
  - vm_compute. reflexivity.
Defined.

(** ** Errors that are heard *)

Section Heard.
Context `{Platform}.
Variable fs : Node.
Variable stack : nat.

Lemma attentive_walked s file o s' :
  attentive s → walked fs stack s file o s' → attentive s'.
Proof.
  intros [Hl Hm] Hw. destruct (walked_configured _ _ _ _ _ _ Hw) as (_ & (_ & _ & _ & Hl' & Hm') & _).
  unfold attentive. by rewrite Hl', Hm'.
Qed.

Lemma discovery_ok s :
  attentive s → (discovery fs s).1 = Ok tt.
Proof.
  intros Hs. unfold discovery. unfold bind at 1, gets at 1.
  pose proof (emit_repository_unheard "scanning" [a_repository (Repository.name (this s))] s
                (proj1 Hs) ltac:(done) ltac:(done) ltac:(done)) as Hok.
  pose proof (quiet_emit_repository s "scanning" [a_repository (Repository.name (this s))]
                ltac:(done) s (quiet_step_refl s)) as Hq.
  unfold bind at 1.
  destruct (emit_repository "scanning" _ s) as [o s1]. simpl in *. subst o.
  pose proof (quiet_once_emptied s1 s1 (quiet_step_refl s1)) as Hq1.
  unfold bind at 1.
  destruct (once_emptied s1) as [[[]|e] s2] eqn:Ho; [|done]. simpl in Hq1.
  apply populateWalkQueue_ok.
  eapply attentive_quiet; [|exact Hq1]. by eapply attentive_quiet.
Qed.

Lemma while_walkQueue_unfold fuel s x rest :
  walkQueue s = x :: rest →
  ∃ s1,
    quiet_step s s1 ∧ walkQueue s1 = rest
    ∧ while_walkQueue fs stack (Datatypes.S fuel) s
      = match _walkPkgDir fs stack (Some x) s1 with
        | (Ok _, s2) => while_walkQueue fs stack fuel s2
        | (Throw e, s2) => (Throw e, s2)
        end.
Proof.
  intros Hq. destruct (next_run s x rest Hq) as (s1 & Hn & Hq1 & Hquiet).
  exists s1. repeat (split; [done|]).
  unfold walkQueue in Hq. simpl. unfold bind at 1, walkQueue_length, gets. simpl.
  rewrite Hq. simpl. unfold bind at 1. rewrite Hn. unfold bind at 1.
  reflexivity.
Qed.

Lemma while_ok fuel : ∀ s,
  plainly_configured s →
  attentive s →
  (∀ file, file ∈ walkQueue s → (verdict_in fs stack s file).1 = Ok tt) →
  length (walkQueue s) ≤ fuel →
  (while_walkQueue fs stack fuel s).1 = Ok true.
Proof.
  induction fuel as [|fuel IH]; intros s Hplain Hs Hall Hlen;
    destruct (walkQueue s) as [|x rest] eqn:Hq;
    try (by rewrite while_walkQueue_nil).
  - simpl in Hlen. lia.
  - destruct (while_walkQueue_unfold fuel s x rest Hq) as (s1 & Hquiet & Hq1 & ->).
    pose proof (attentive_quiet _ _ Hs Hquiet) as Hs1.
    pose proof (quiet_step_configured _ _ Hquiet) as Hc1.
    pose proof (plainly_configured_configured _ _ Hc1 Hplain) as Hplain1.
    pose proof (walkPkgDir_walked fs stack s1 x) as Hw.
    assert (Hx : (local_phase fs stack s1 x).1 = Ok tt).
    { pose proof (local_phase_verdict fs stack s1 x) as Hv.
      rewrite (verdict_in_configured fs stack s s1 x Hc1) in Hv.
      rewrite <- (Hall x) by (apply elem_of_cons; by left). by rewrite <- Hv. }
    destruct (local_phase fs stack s1 x) as [o fr] eqn:Hl. simpl in Hx. subst o.
    pose proof (walk_outcome := walkPkgDir_outcome fs stack s1 x fr Hplain1 Hl).
    rewrite !emit_repository_error_managed in walk_outcome by apply Hs1.
    rewrite emit_repository_unheard in walk_outcome by (done || apply Hs1).
    rewrite bool_decide_eq_true_2 in walk_outcome by apply Hs1.
    destruct (_walkPkgDir fs stack (Some x) s1) as [o s2]. simpl in walk_outcome, Hw.
    assert (o = Ok tt) as ->.
    { rewrite walk_outcome.
      by destruct (isValid (self fr)),
           (truthy_at (Repository.packages (this s1)) (property_key (Package.guid (self fr)))). }
    destruct (walked_configured _ _ _ _ _ _ Hw) as (Hq2 & Hc2 & _).
    apply IH.
    + by apply (plainly_configured_configured s1).
    + by apply (attentive_walked s1 x (Ok tt)).
    + rewrite Hq2, Hq1. intros file Hin.
      rewrite (verdict_in_configured fs stack s s2 file (configured_trans _ _ _ Hc1 Hc2)).
      apply Hall, elem_of_cons. by right.
    + rewrite Hq2, Hq1. simpl in Hlen. lia.
Qed.

(** With the listeners of [addRepository], somebody listening for the
    manager's "error" and plain rules, a scan returns whenever every
    candidate's package reads, extracts and lists: the errors of the walk
    of the tree, the invalid packages and the duplicates are all
    signalled and none ends the scan. *)
Theorem scan_returns_when_errors_are_heard s :
  plainly_configured s →
  attentive s →
  (∀ file, file ∈ walkQueue (discovery fs s).2 → (verdict_in fs stack s file).1 = Ok tt) →
  (scan fs stack s).1 = Ok tt.
Proof.
  intros Hplain Hs Hall. rewrite scan_discovery.
  pose proof (discovery_ok s Hs) as Hok.
  pose proof (quiet_discovery s fs s (quiet_step_refl s)) as Hquiet.
  destruct (discovery fs s) as [o sd]. simpl in *. subst o.
  rewrite processWalkQueue_run.
  rewrite (surjective_pairing (while_walkQueue fs stack (length (walkQueue sd)) sd)).
  rewrite while_ok; [done| |by eapply attentive_quiet| |done].
  { apply (plainly_configured_configured s); [by apply quiet_step_configured | done]. }
  intros file Hin.
  rewrite (verdict_in_configured fs stack s sd file (quiet_step_configured _ _ Hquiet)).
  by apply Hall.
Qed.
End Heard.

Lemma scan_returns_when_errors_are_heard_witness :
  attentive fresh_main
  ∧ (scan (H:=Toy.platform) tree_dup 100 fresh_main).1 = Ok tt.
Proof.
  assert (Hatt : attentive fresh_main).
  { split; [reflexivity|]. apply elem_of_cons. by left. }
  split; [exact Hatt|].
  apply (scan_returns_when_errors_are_heard (H:=Toy.platform) tree_dup 100 fresh_main
           plainly_configured_fresh_main Hatt).
  intros file Hin. vm_compute in Hin.
  apply elem_of_cons in Hin as [-> | Hin]; [vm_compute; reflexivity|].
  apply elem_of_cons in Hin as [-> | Hin]; [vm_compute; reflexivity|].
  by apply elem_of_nil in Hin.
Defined.

(** ** A metadata path that is no file *)

Section NoFile.
Context `{Platform}.
Variable fs : Node.
Variable stack : nat.


(** When the metadata path is there and is no regular file, a directory
    for instance, nothing is read and the contents stay undefined; the
    guard of [_parse] compares them with [null] and lets them through, so
    that the first rule, a pattern that compiles, fails on them with a
    TypeError, which ends the walk: the package is not reported as
    invalid. *)
Theorem walk_of_metadata_that_is_no_file s pkg p rules property source re rest :
  heap s !! pkg = Some p →
  Package._rawConfigContents p = None →
  (∀ code, resolve fs (path_join (Package._absoluteDirPath p) (Package._configFile p))
           ≠ Broken code) →
  stats_isFile (resolve fs (path_join (Package._absoluteDirPath p) (Package._configFile p)))
  = false →
  rules = (property, Pattern source) :: rest →
  new_RegExp source "i" = Some re →
  walk fs (Datatypes.S stack) pkg rules s
  = (Throw (TypeError "Cannot read property 'match' of undefined"), s).
Proof.
  intros Hheap Hraw Hthere Hfile -> Hre.
  assert (Hstat : stat (St:=Frame)
            (resolve fs (path_join (Package._absoluteDirPath p) (Package._configFile p)))
            (mkFrame p (console s))
          = (Ok (resolve fs (path_join (Package._absoluteDirPath p) (Package._configFile p))),
             mkFrame p (console s))).
  { destruct (resolve fs _) eqn:Hn; try done. by destruct (Hthere code). }
  unfold walk. unfold bind at 1. unfold on_package at 1. rewrite Hheap.
  unfold _readConfigFile. unfold bind at 1, gets at 1. simpl.
  unfold bind at 1. unfold doesPathExist, try_catch. unfold bind at 1. rewrite Hstat. simpl.
  rewrite Hfile, andb_false_r. simpl.
  rewrite list_insert_id by done.
  unfold bind at 1. unfold on_package at 1. simpl. rewrite Hheap.
  rewrite for_of_cons. unfold bind at 1. rewrite Hre. unfold bind at 1, gets at 1. simpl.
  rewrite Hraw. simpl. rewrite list_insert_id by done. by destruct s.
Qed.
End NoFile.


Lemma walk_of_metadata_that_is_no_file_witness :
  heap (allocated "pkg") !! 0 = Some (discovered ["repo"] (metadata_of "pkg"))
  ∧ walk (H:=Toy.platform) tree_PACKAGE_is_a_directory 100 0 rules_name_guid (allocated "pkg")
    = (Throw (TypeError "Cannot read property 'match' of undefined"), allocated "pkg").
Proof.
  split; [reflexivity|].
  eapply (walk_of_metadata_that_is_no_file (H:=Toy.platform) tree_PACKAGE_is_a_directory 99
            (allocated "pkg") 0 (discovered ["repo"] (metadata_of "pkg")) rules_name_guid
            name "name=(.*)");
    try reflexivity.
  intros code. vm_compute. discriminate.
Defined.

(** ** The manager and its repositories *)

(** [addRepository] under a name other than __proto__, in a manager
    whose table holds nothing under __proto__: the repository is registered as
    the constructor and the three [on] calls leave it, under the name of
    the settings and in place of whatever was registered under it, with
    an empty index and empty [invalidPackages]. What the other names
    give, the packages and the events of the manager are as they were. *)
Theorem addRepository_registers options m :
  rs_name options ≠ "__proto__" →
  ordinary m →
  let m' := (addRepository options m).2 in
  (addRepository options m).1 = Ok tt
  ∧ ordinary m'
  ∧ (getRepository (rs_name options) m').1 = Ok (own (managed options))
  ∧ (_doesRepoExist (rs_name options) m').1 = Ok true
  ∧ (getRepositoryInvalidPackages (rs_name options) m').1 = Ok (Some [])
  ∧ (∀ guid, (getRepositoryPackage guid (rs_name options) m').1
             = Ok (member_at (∅ : gmap string nat) guid))
  ∧ (∀ other, other ≠ rs_name options →
       (getRepository other m').1 = (getRepository other m).1)
  ∧ PackageManager.heap m' = PackageManager.heap m
  ∧ PackageManager.trace m' = PackageManager.trace m.
Proof.
  intros Hname Hm m'.
  assert (Hl : PackageManager._repos m' !! rs_name options = Some (managed options))
    by apply lookup_insert_eq.
  assert (Hget : ∀ repo, getRepository repo m'
                         = (Ok (member_at (PackageManager._repos m') repo), m'))
    by reflexivity.
  split; [done|].
  split; [unfold ordinary, m'; simpl; by rewrite lookup_insert_ne|].
  split; [rewrite Hget; unfold member_at; by rewrite Hl|].
  split.
  { change ((_doesRepoExist (rs_name options) m').1)
      with (Ok (truthy_at (PackageManager._repos m') (rs_name options)) : Result bool).
    by rewrite (truthy_at_lookup _ _ _ Hl). }
  split; [unfold getRepositoryInvalidPackages, bind; rewrite Hget; unfold member_at;
          by rewrite Hl|].
  split; [intros guid; unfold getRepositoryPackage, bind; rewrite Hget; unfold member_at;
          by rewrite Hl|].
  split; [|done].
  intros other Hne. rewrite Hget. simpl. unfold getRepository, gets, member_at. simpl.
  by rewrite lookup_insert_ne.
Qed.

Lemma addRepository_registers_witness :
  ordinary (new_PackageManager ["error"])
  ∧ (getRepositoryInvalidPackages "main" manager_main).1 = Ok (Some [])
  ∧ (getRepository "other" manager_main).1 = Ok undefined.
Proof.
  assert (Hm : ordinary (new_PackageManager ["error"])) by reflexivity.
  split; [exact Hm|].
  destruct (addRepository_registers (settings_main rules_name_guid)
              (new_PackageManager ["error"])) as (_ & _ & _ & _ & Hinv & _ & Hother & _).
  - discriminate.
  - exact Hm.
  - split; [exact Hinv|].
    transitivity ((getRepository "other" (new_PackageManager ["error"])).1);
      [apply (Hother "other"); discriminate | reflexivity].
Defined.

Section ManagerScan.
Context `{Platform}.
Variable fs : Node.
Variable stack : nat.

(** [scanRepository] of a name that is not registered, in a manager that
    has no repository named __proto__: it does nothing and returns,
    unless the name is that of a member every object inherits, such as
    constructor: [_doesRepoExist] takes the member for a repository and
    the call of its [scan] fails with a TypeError. *)
Theorem scanRepository_of_an_unknown_name repo m :
  ordinary m →
  PackageManager._repos m !! repo = None →
  scanRepository fs stack repo m
  = if bool_decide (repo ∈ Object_prototype)
    then (Throw (TypeError "this._repos[repo].scan is not a function"), m)
    else (Ok tt, m).
Proof.
  intros _ Hr. unfold scanRepository, _doesRepoExist, getRepository.
  unfold bind at 1, gets at 1. simpl. unfold truthy_at. rewrite Hr.
  rewrite (bool_decide_eq_false_2 (is_Some None)) by (by intros [? ?]). simpl.
  destruct (bool_decide _) eqn:Hin; [|done].
  unfold bind, gets, member_at. simpl. by rewrite Hr, Hin.
Qed.
End ManagerScan.

Lemma scanRepository_of_an_unknown_name_witness :
  ordinary manager_main
  ∧ (scanRepository (H:=Toy.platform) tree_alpha_beta 100 "other" manager_main).1 = Ok tt
  ∧ (scanRepository (H:=Toy.platform) tree_alpha_beta 100 "constructor" manager_main).1
    = Throw (TypeError "this._repos[repo].scan is not a function").
Proof.
  assert (Hm : ordinary manager_main) by (vm_compute; reflexivity).
  split; [exact Hm|]. split.
  - rewrite (scanRepository_of_an_unknown_name (H:=Toy.platform) tree_alpha_beta 100 "other"
               manager_main Hm); [reflexivity|]. vm_compute. reflexivity.
  - rewrite (scanRepository_of_an_unknown_name (H:=Toy.platform) tree_alpha_beta 100
               "constructor" manager_main Hm); [reflexivity|]. vm_compute. reflexivity.
Defined.

(** ** Rules that leave a required field out *)

Section Unset.
Context `{Platform}.
Variable fs : Node.

Lemma required_assign which v property w :
  key_of property ≠ required_key which →
  stable (fun fr => required which (self fr) = v) (assign_to property w).
Proof.
  intros Hne. unfold assign_to. case_bool_decide; [apply stable_throw|].
  apply stable_update_self. intros [p out] Hp. simpl in *. unfold assign.
  repeat match goal with
         | |- context [String.eqb (key_of property) ?k] =>
             destruct (String.eqb_spec (key_of property) k)
         end;
    destruct which; simpl in *; congruence.
Qed.

Lemma required_parse which v depth rules :
  required_key which ∉ rule_keys rules →
  stable (fun fr => required which (self fr) = v) (_parse depth rules).
Proof.
  intros Hnot. induction depth as [|n IH]; [apply stable_throw|].
  simpl. apply stable_for_of. intros [property rule] Hin.
  assert (Hne : key_of property ≠ required_key which).
  { intros Heq. apply Hnot. unfold rule_keys. apply list_elem_of_fmap.
    by exists (property, rule). }
  destruct rule.
  - repeat stable_step. by apply required_assign.
  - apply stable_bind; [apply stable_method, IH|]. intros _. by apply required_assign.
Qed.

Lemma required_extraction_and_listing which v depth rules :
  required_key which ∉ rule_keys rules →
  stable (fun fr => required which (self fr) = v) (extraction_and_listing fs depth rules).
Proof.
  intros Hnot.
  assert (Hset : ∀ f, (∀ p, required which (f p) = required which p) →
            stable (fun fr => required which (self fr) = v) (update_self f)).
  { intros f Hf. apply stable_update_self. intros [p out] Hp. simpl in *. by rewrite Hf. }
  assert (Hlog : ∀ e, stable (fun fr => required which (self fr) = v) (console_log e)).
  { intros e. by apply stable_modify. }
  unfold extraction_and_listing.
  apply stable_bind.
  { unfold _readConfigFile. repeat stable_step; try (apply Hset; by destruct which). }
  intros _. apply stable_bind; [by apply required_parse|]. intros _.
  unfold _search0. apply stable_method. apply stable_bind; [apply stable_gets|]. intros q.
  generalize (Package._absoluteDirPath q) at 2. generalize ".+".
  generalize (resolve fs (Package._absoluteDirPath q)). clear q.
  intros node.
  induction node as [c|c|files IH|c| |c] using Node_induction; intros filter directory;
    simpl; (apply stable_bind; [apply Hset; by destruct which|]); intros _;
    (apply stable_try_catch; [|intros; apply Hlog]);
    try (by intros s).
  apply stable_for_of. intros [file child] Hin.
  apply stable_bind; [apply stable_isDirectory|]. intros [|].
  - rewrite Forall_forall in IH. apply (IH _ Hin).
  - apply stable_bind; [apply stable_String_match|]. intros [m|]; [|apply stable_ret].
    apply stable_bind; [apply stable_gets|]. intros q.
    unfold items_push. repeat stable_step; try (apply Hset; by destruct which).
Qed.
End Unset.

(** A repository whose rules have no rule for the name, or none for the
    identifier, never indexes a package: whatever it scans, its index
    stays empty. *)
Theorem index_stays_empty_without_both_rules `{Platform} options table listens history :
  ("name" ∉ rule_keys (configParseRules (rs_packageDefinition options)))
  ∨ ("guid" ∉ rule_keys (configParseRules (rs_packageDefinition options))) →
  Repository.packages (this (after history (fresh options table listens))) = ∅.
Proof.
  intros Hnot.
  assert (Hwhich : ∃ which, required_key which
                            ∉ rule_keys (configParseRules (rs_packageDefinition options)))
    by (destruct Hnot; [by exists true | by exists false]).
  destruct Hwhich as [which Hwhich].
  pose (I := fun s => Repository.packageDefinition (this s) = rs_packageDefinition options
                      ∧ Repository.packages (this s) = ∅).
  assert (HI : I (after history (fresh options table listens))); [|apply HI].
  apply stable_after.
  - intros s1 s2 [Hpd Hpk] (Hpk' & _ & _ & _ & Hpd' & _). split; congruence.
  - intros fs stack s file o s' [Hpd Hpk] Hw.
    pose proof (required_extraction_and_listing fs which None stack
                  (configParseRules (Repository.packageDefinition (this s)))) as Hst.
    rewrite Hpd in Hst. specialize (Hst Hwhich).
    specialize (Hst (mkFrame (discovered (Repository.dir (this s)) file) (console s))).
    rewrite <- Hpd in Hst. fold (local_phase fs stack s file) in Hst.
    assert (Hinvalid : isValid (self (local_phase fs stack s file).2) = false).
    { unfold isValid. specialize (Hst ltac:(by destruct which)).
      destruct which; simpl in Hst; rewrite Hst; simpl; [by rewrite andb_false_r|done]. }
    destruct Hw as [e fr Hl | fr o t Hl Hv Ht | fr o t Hl Hv Htr Ht | fr o t Hl Hv Htr Ht
     | fr Hl Hmute | fr Hl Hv Hhw];
      rewrite Hl in Hinvalid; simpl in Hinvalid; try congruence; by split.
  - by split.
Qed.

Lemma index_stays_empty_without_both_rules_witness :
  ("name" ∉ rule_keys rules_guid_only)
  ∧ Repository.packages
      (this (after (H:=Toy.platform) [a_scan tree_alpha_beta 100]
               (fresh (settings_main rules_guid_only) managed_listeners ["error"])))
    = ∅.
Proof.
  assert (Hnot : "name" ∉ rule_keys rules_guid_only).
  { intros Hin. apply elem_of_cons in Hin as [Hin | Hin]; [discriminate Hin|].
    by apply elem_of_nil in Hin. }
  split; [exact Hnot|].
  apply (index_stays_empty_without_both_rules (H:=Toy.platform)
           (settings_main rules_guid_only) managed_listeners ["error"]
           [a_scan tree_alpha_beta 100]).
  left. exact Hnot.
Defined.

(** ** Extraction with rules for the name and the identifier *)

Section Flat.
Context `{Platform}.

Lemma parse_unfold stack rules :
  _parse (Datatypes.S stack) rules = for_of rules (parse_rule stack rules).
Proof. reflexivity. Qed.

(** One pattern rule with a plain key, on contents that were read. *)
Lemma parse_rule_run stack rules property source rest c p out :
  plain property = true →
  Package._rawConfigContents p = Some c →
  for_of ((property, Pattern source) :: rest) (parse_rule stack rules) (mkFrame p out)
  = match extract c source with
    | Throw e => (Throw e, mkFrame p out)
    | Ok v =>
        for_of rest (parse_rule stack rules)
          (mkFrame (match v with Some v => assign property (Some v) p | None => p end) out)
    end.
Proof.
  intros Hkey Hc. rewrite for_of_cons. unfold bind at 1. unfold extract.
  unfold parse_rule at 1.
  destruct (new_RegExp source "i") as [pattern|]; [|done].
  unfold bind at 1, gets at 1. simpl. rewrite Hc.
  destruct (pattern c) as [matches|]; [|done].
  destruct (matches !! 1) as [[group|]|]; try done.
  unfold assign_to. by rewrite (plain_no_getter _ Hkey).
Qed.

Lemma parse_flat_run stack rules c : ∀ xs p out,
  Package._rawConfigContents p = Some c →
  flat xs →
  let run := for_of xs (parse_rule stack rules) (mkFrame p out) in
  (run.1 = Ok tt ↔
   Forall (fun r => ∃ source v, r.2 = Pattern source ∧ extract c source = Ok v) xs)
  ∧ (run.1 = Ok tt →
     (∀ which, required which (self run.2) = last_extracted c xs which (required which p))
     ∧ Package._rawConfigContents (self run.2) = Some c
     ∧ Package.items (self run.2) = Package.items p
     ∧ stdout run.2 = out).
Proof.
  induction xs as [|[property rule] xs IH]; intros p out Hc Hflat.
  - simpl. split; [done|]. intros _. split; [by intros which|done].
  - inversion Hflat as [|? ? [Hkey [source Hrule]] Hflat']; subst. simpl in Hkey, Hrule.
    subst rule. cbv zeta.
    assert (Hplain : plain property = true) by (by destruct Hkey as [-> | ->]).
    rewrite (parse_rule_run stack rules property source xs c p out Hplain Hc).
    destruct (extract c source) as [v|e] eqn:Hex.
    + assert (Hc' : Package._rawConfigContents
                      (match v with Some v => assign property (Some v) p | None => p end)
                    = Some c).
      { destruct v; [|done]. by destruct Hkey as [-> | ->]. }
      specialize (IH _ out Hc' Hflat'). cbv zeta in IH. destruct IH as [IHok IHval].
      split.
      * rewrite IHok. split.
        -- intros Hall. constructor; [by exists source, v|done].
        -- by intros [_ Hall]%Forall_cons_1.
      * intros Hok. destruct (IHval Hok) as (Hreq & Hraw & Hitems & Hout).
        split; [|split; [done|split; [|done]]].
        -- intros which. rewrite Hreq. unfold last_extracted. simpl. rewrite Hex.
           f_equal. destruct v as [v|]; [|by destruct (bool_decide _)].
           destruct Hkey as [-> | ->], which; simpl; done.
        -- rewrite Hitems. destruct v; [|done]. by destruct Hkey as [-> | ->].
    + simpl. split; [|done]. split; [done|].
      intros [[source' [v [[= <-] Hv]]] _]%Forall_cons_1. congruence.
Qed.

(** With contents read and rules that are patterns for the name or the
    identifier, [_parse] returns exactly when every pattern compiles and
    every match has a first group; each of the two fields is then what
    the last of its rules that matched captured, trimmed, and is as it
    was when none of them matched; nothing else of the listing or the
    console changes. *)
Theorem parse_of_flat_rules stack rules c fr :
  Package._rawConfigContents (self fr) = Some c →
  flat rules →
  let run := _parse (Datatypes.S stack) rules fr in
  (run.1 = Ok tt ↔
   Forall (fun r => ∃ source v, r.2 = Pattern source ∧ extract c source = Ok v) rules)
  ∧ (run.1 = Ok tt →
     Package.name (self run.2) = last_extracted c rules true (Package.name (self fr))
     ∧ Package.guid (self run.2) = last_extracted c rules false (Package.guid (self fr))
     ∧ Package.items (self run.2) = Package.items (self fr)
     ∧ stdout run.2 = stdout fr).
Proof.
  intros Hc Hflat. destruct fr as [p out]. simpl in Hc.
  pose proof (parse_flat_run stack rules c rules p out Hc Hflat) as Hrun.
  cbv zeta in *. rewrite parse_unfold. destruct Hrun as [Hok Hval]. split; [exact Hok|].
  intros Hret. destruct (Hval Hret) as (Hreq & _ & Hitems & Hout).
  split; [apply (Hreq true)|]. split; [apply (Hreq false)|]. done.
Qed.
End Flat.

Lemma parse_of_flat_rules_witness :
  let fr := frame_read ("Name=Alpha" +:+ nl +:+ "Guid= A1 " +:+ nl) in
  let run := _parse (H:=Toy.platform) 100 rules_name_guid fr in
  run.1 = Ok tt
  ∧ Package.name (self run.2) = Some "Alpha"
  ∧ Package.guid (self run.2) = Some "A1".
Proof.
  intros fr run.
  destruct (parse_of_flat_rules (H:=Toy.platform) 99 rules_name_guid
              ("Name=Alpha" +:+ nl +:+ "Guid= A1 " +:+ nl) fr) as [Hok Hval].
  - reflexivity.
  - unfold flat, rules_name_guid.
    constructor; [split; [by left | by eexists]|].
    constructor; [split; [by right | by eexists]|]. constructor.
  - assert (Hret : run.1 = Ok tt).
    { apply Hok. repeat constructor; simpl; eexists _, _; (split; [reflexivity|]);
        vm_compute; reflexivity. }
    split; [exact Hret|]. destruct (Hval Hret) as (Hn & Hg & _).
    split; (etransitivity; [first [exact Hn | exact Hg]|]); vm_compute; reflexivity.
Defined.

(** ** The candidates of a scan *)

Lemma push_run item s : push item s = (Ok tt, pushed s item).
Proof. by destruct s. Qed.

Lemma walkQueue_pushed items : ∀ s,
  walkQueue (foldl pushed s items) = walkQueue s ++ items.
Proof.
  induction items as [|item items IH]; intros s; simpl; [by rewrite app_nil_r|].
  rewrite IH. unfold walkQueue. simpl. by rewrite <- app_assoc.
Qed.

Lemma trace_pushed items : ∀ s,
  trace (foldl pushed s items)
  = trace s ++ map (fun item => emitted from_queue "enqueued" [an_item item]) items.
Proof.
  induction items as [|item items IH]; intros s; simpl; [by rewrite app_nil_r|].
  rewrite IH. simpl. by rewrite <- app_assoc.
Qed.

Lemma metadata_filter_pushed items : ∀ s,
  metadata_filter (this (foldl pushed s items)) = metadata_filter (this s).
Proof. induction items as [|item items IH]; intros s; simpl; [done|]. by rewrite IH. Qed.

Section Discovery.
Context `{Platform}.

Lemma isDirectory_run {St} node (s : St) :
  (∀ code, node ≠ Broken code) → isDirectory node s = (Ok (stats_isDirectory node), s).
Proof. intros Hn. destruct node; try done. by destruct (Hn code). Qed.

Lemma String_match_run {St} subject pattern re (s : St) :
  new_RegExp pattern "" = Some re → String_match subject pattern s = (Ok (re subject), s).
Proof. intros Hre. unfold String_match. by rewrite Hre. Qed.

Lemma accepted_Some re subject m : re subject = Some m → accepted re subject = true.
Proof. intros Hm. unfold accepted. rewrite Hm. by apply bool_decide_eq_true_2. Qed.

Lemma accepted_None re subject : re subject = None → accepted re subject = false.
Proof. intros Hm. unfold accepted. rewrite Hm. apply bool_decide_eq_false_2. by intros [? ?]. Qed.

Lemma listable_stat node : listable node = true → ∀ code, node ≠ Broken code.
Proof. by destruct node. Qed.

(** On a tree that can be walked without an error, and with a filter
    that compiles, [_populateWalkQueue] is the same as pushing the
    candidates one after the other. *)
Lemma populateWalkQueue_run re node : ∀ directory s,
  stats_isDirectory node = true →
  listable node = true →
  new_RegExp (metadata_filter (this s)) "" = Some re →
  _populateWalkQueue node directory s
  = (Ok tt, foldl pushed s (candidates (accepted re) node directory)).
Proof.
  induction node as [c|c|files IH|c| |c] using Node_induction;
    intros directory s Hdir Hlist Hre; try done.
  simpl in Hlist. simpl. unfold bind at 1, gets at 1. unfold try_catch.
  assert (Hloop : ∀ s0,
    metadata_filter (this s0) = metadata_filter (this s) →
    for_of files
      (fun '(file, child) =>
         is_dir <- isDirectory child ;;
         if is_dir : bool then _populateWalkQueue child (path_resolve directory file)
         else
           m <- String_match (render (path_resolve directory file)) (metadata_filter (this s)) ;;
           match m with
           | None => ret tt
           | Some _ => push (path_resolve directory file)
           end) s0
    = (Ok tt, foldl pushed s0
                (flat_map (fun '(file, child) =>
                             if stats_isDirectory child
                             then candidates (accepted re) child (directory ++ [file])
                             else if accepted re (render (directory ++ [file]))
                                  then [directory ++ [file]] else [])
                          files))).
  { clear Hdir. induction files as [|[file child] files IHfiles]; intros s0 Hf; [done|].
    simpl in Hlist. apply andb_true_iff in Hlist as [Hchild Hrest].
    apply Forall_cons_1 in IH as [IHchild IHrest]. simpl in IHchild.
    rewrite for_of_cons. unfold bind at 1. cbv beta iota. unfold bind at 1.
    rewrite (isDirectory_run child s0 (listable_stat child Hchild)).
    simpl. rewrite foldl_app.
    destruct (stats_isDirectory child) eqn:Hd.
    - unfold path_resolve.
      rewrite (IHchild (directory ++ [file]) s0 eq_refl Hchild) by (by rewrite Hf).
      apply IHfiles; [done|done|]. by rewrite metadata_filter_pushed.
    - unfold bind at 1. rewrite (String_match_run _ _ re s0 Hre). cbv beta iota.
      change (path_resolve directory file) with (directory ++ [file]).
      destruct (re (render (directory ++ [file]))) as [m|] eqn:Hm.
      + rewrite (accepted_Some re _ m Hm). rewrite push_run. by apply IHfiles.
      + rewrite (accepted_None re _ Hm). by apply IHfiles. }
  by rewrite (Hloop s eq_refl).
Qed.

(** On a tree in which [stat] succeeds everywhere and every directory
    can be listed, and with a filter that compiles, the walk of the tree
    returns with the queue extended by every path that is no directory
    and whose full name the filter matches, depth first, in the order of
    [readdir]; it signals "enqueued" for each and nothing else. *)
Theorem populateWalkQueue_finds_the_candidates re node directory s :
  stats_isDirectory node = true →
  listable node = true →
  new_RegExp (metadata_filter (this s)) "" = Some re →
  let run := _populateWalkQueue node directory s in
  run.1 = Ok tt
  ∧ walkQueue run.2 = walkQueue s ++ candidates (accepted re) node directory
  ∧ appended (_populateWalkQueue node directory) s
    = map (fun item => emitted from_queue "enqueued" [an_item item])
          (candidates (accepted re) node directory).
Proof.
  intros Hdir Hlist Hre run. unfold run, appended.
  rewrite (populateWalkQueue_run re node directory s Hdir Hlist Hre). simpl.
  split; [done|]. split; [apply walkQueue_pushed|].
  by rewrite trace_pushed, drop_app_length.
Qed.
End Discovery.

Lemma populateWalkQueue_finds_the_candidates_witness :
  listable (resolve tree_alpha_beta ["repo"]) = true
  ∧ walkQueue (_populateWalkQueue (H:=Toy.platform) (resolve tree_alpha_beta ["repo"])
                 ["repo"] fresh_main).2
    = [metadata_of "alpha"; metadata_of "beta"].
Proof.
  split; [reflexivity|].
  edestruct (populateWalkQueue_finds_the_candidates (H:=Toy.platform)
               (default (fun _ => None) (new_RegExp (Platform:=Toy.platform) "PACKAGE" ""))
               (resolve tree_alpha_beta ["repo"]) ["repo"] fresh_main)
    as (_ & Hq & _); [reflexivity|reflexivity|reflexivity|].
  rewrite Hq. reflexivity.
Defined.

(** ** The listing of a directory without sub-directories *)

Section FlatListing.
Context `{Platform}.

Lemma set_items_twice l l' p :
  Package.set_items l' (Package.set_items l p) = Package.set_items l' p.
Proof. by destruct p. Qed.

(** In a directory whose entries are no directories, [_search] with a
    filter that compiles leaves in [items] exactly the entries whose full
    name the filter matches, in the order of [readdir], each with the
    first occurrence of the package directory removed from its full
    name; nothing is logged. *)
Theorem search_of_a_flat_directory re files directory pattern p out :
  Forall (fun e => stats_isDirectory e.2 = false ∧ ∀ code, e.2 ≠ Broken code) files →
  new_RegExp pattern "" = Some re →
  _search (Dir files) directory pattern (mkFrame p out)
  = (Ok tt,
     mkFrame
       (Package.set_items
          (Some (map (fun e => replace_first (render (Package._absoluteDirPath p))
                                             (render (directory ++ [e.1])))
                     (List.filter (fun e => accepted re (render (directory ++ [e.1]))) files)))
          p)
       out).
Proof.
  intros Hfiles Hre. simpl. unfold bind at 1, update_self at 1, modify at 1. simpl.
  unfold try_catch.
  assert (Hloop : ∀ acc,
    for_of files
      (fun '(file, child) =>
         is_dir <- isDirectory child ;;
         if is_dir : bool then _search child (path_resolve directory file) pattern
         else
           m <- String_match (render (path_resolve directory file)) pattern ;;
           match m with
           | None => ret tt
           | Some _ =>
               p <- gets self ;;
               items_push (replace_first (render (Package._absoluteDirPath p))
                                         (render (path_resolve directory file)))
           end)
      (mkFrame (Package.set_items (Some acc) p) out)
    = (Ok tt,
       mkFrame
         (Package.set_items
            (Some (acc ++
                   map (fun e => replace_first (render (Package._absoluteDirPath p))
                                               (render (directory ++ [e.1])))
                       (List.filter (fun e => accepted re (render (directory ++ [e.1]))) files)))
            p)
         out)).
  { induction files as [|[file child] files IH]; intros acc.
    - simpl. by rewrite app_nil_r.
    - apply Forall_cons_1 in Hfiles as [[Hd Hthere] Hrest]. simpl in Hd, Hthere.
      rewrite for_of_cons. unfold bind at 1. cbv beta iota. unfold bind at 1.
      rewrite (isDirectory_run child _ Hthere), Hd. cbv beta iota.
      unfold bind at 1. rewrite (String_match_run _ _ re _ Hre). cbv beta iota.
      change (path_resolve directory file) with (directory ++ [file]).
      cbn [List.filter fst].
      destruct (re (render (directory ++ [file]))) as [m|] eqn:Hm.
      + rewrite (accepted_Some re _ m Hm).
        unfold bind at 1, gets at 1. cbn [self].
        unfold items_push. unfold bind at 1, gets at 1. cbn [self].
        replace (Package.items (Package.set_items (Some acc) p)) with (Some acc)
          by (by destruct p).
        unfold update_self at 1, modify at 1. cbn [self stdout].
        rewrite set_items_twice.
        replace (Package._absoluteDirPath (Package.set_items (Some acc) p))
          with (Package._absoluteDirPath p) by (by destruct p).
        rewrite (IH Hrest). simpl. by rewrite <- app_assoc.
      + rewrite (accepted_None re _ Hm). apply (IH Hrest). }
  by rewrite (Hloop []).
Qed.
End FlatListing.

Lemma search_of_a_flat_directory_witness :
  Package.items
    (self (_search0 (H:=Toy.platform) tree_alpha_beta
             (mkFrame (new_Package ["repo"] (metadata_of "beta")) [])).2)
  = Some ["/PACKAGE"; "/notes"].
Proof.
  unfold _search0. rewrite method_run.
  rewrite bool_decide_eq_false_2 by (simpl; rewrite lookup_empty; by intros [? ?]).
  unfold bind, gets. cbn [self].
  change (resolve tree_alpha_beta
            (Package._absoluteDirPath (new_Package ["repo"] (metadata_of "beta"))))
    with (Dir [("PACKAGE", File ("name=Beta" +:+ nl +:+ "guid=B2")); ("notes", File "text")]).
  erewrite (search_of_a_flat_directory (H:=Toy.platform)
              (default (fun _ => None) (new_RegExp (Platform:=Toy.platform) ".+" ""))).
  - vm_compute. reflexivity.
  - repeat constructor; done.
  - reflexivity.
Defined.

(** ** "ready" and the last candidate *)

(** The listener of "emptied" in a repository that has not completed a
    scan. *)
Lemma onWalkQueueEmptied_first s :
  tame (Repository.listeners (this s)) →
  Repository._hasCompletedScan (this s) = false →
  ∃ t, _onWalkQueueEmptied s
       = (Ok tt, mkState (Repository.set_lastscan (Some (clock s))
                            (Repository.set_hasCompletedScan true (this s)))
                         (heap s) (trace s ++ ready (Repository.name (this s)) :: t)
                         (console s) (Datatypes.S (clock s)) (manager_listens s)).
Proof.
  intros Htame Hf. unfold _onWalkQueueEmptied. unfold bind at 1, gets at 1. rewrite Hf. simpl.
  pose proof (emit_ready_ok s (Repository.name (this s)) Htame) as Hok.
  destruct (emit_repository_run "ready" [a_repository (Repository.name (this s))] s)
    as (o & t & Hrun & Ht).
  rewrite Hrun in Hok. simpl in Hok. subst o.
  exists t. unfold bind at 1. rewrite Hrun. done.
Qed.

Lemma announced_again s0 n : stable (announced s0) (times n (detached _onWalkQueueEmptied)).
Proof.
  apply stable_times. intros s (Hf & u & Hu & Hin). unfold detached.
  rewrite onWalkQueueEmptied_again by done. unfold announced. simpl. split; [done|]. by exists u.
Qed.

(** [next] on the last candidate of the queue, in a repository that has
    not completed a scan and whose [scan] waits for "emptied": the
    candidate is returned when "ready" has been signalled and
    [_hasCompletedScan] set, and nothing has been walked for it yet: the
    packages, the index and [invalidPackages] are as before. *)
Theorem ready_is_signalled_before_the_last_walk s x :
  tame (Repository.listeners (this s)) →
  walkQueue s = [x] →
  0 < EEQueue.once_emptied (Repository._walkQueue (this s)) →
  Repository._hasCompletedScan (this s) = false →
  (next s).1 = Ok (Some x)
  ∧ ready (Repository.name (this s)) ∈ appended next s
  ∧ Repository._hasCompletedScan (this (next s).2) = true
  ∧ heap (next s).2 = heap s
  ∧ Repository.packages (this (next s).2) = Repository.packages (this s)
  ∧ Repository.invalidPackages (this (next s).2) = Repository.invalidPackages (this s).
Proof.
  intros Htame Hq Honce Hf.
  destruct (next_run s x [] Hq) as (s1 & Hn & _ & (Hpk & Hinv & _ & _ & _ & _ & _ & Hh & _)).
  assert (Hann : announced s (next s).2).
  { unfold next. unfold bind at 1, gets at 1. unfold walkQueue in Hq. rewrite Hq.
    unfold bind at 1, update_walkQueue at 1, update_this at 1, modify at 1. rewrite Hq.
    cbn [tail fst snd].
    set (s_t := set_this _ s).
    unfold bind at 1.
    change (emit_queue "dequeued" [] s_t)
      with (Ok tt, traced s_t [emitted from_queue "dequeued" []]).
    cbv beta iota.
    unfold bind at 1, walkQueue_length at 1, gets at 1. cbn [fst snd].
    unfold bind at 1.
    change (bool_decide _) with true. unfold when.
    set (s_d := traced s_t _).
    destruct (EEQueue.once_emptied (Repository._walkQueue (this s))) as [|k] eqn:Hk; [lia|].
    assert (Hrun : (emit_queue "emptied" [] s_d).2
                   = (times (Datatypes.S k) (detached _onWalkQueueEmptied)
                        (set_this (Repository.set_walkQueue (EEQueue.mk [] 0) (this s))
                           (traced s_d [emitted from_queue "emptied" []]))).2).
    { unfold emit_queue. rewrite (bind_ok _ _ _ _ _ (record_run _ s_d)).
      change (String.eqb "emptied" "emptied") with true. cbv iota.
      unfold bind at 1, gets at 1. unfold s_d, s_t. simpl. reflexivity. }
    destruct (emit_queue "emptied" [] s_d) as [o s_e] eqn:He. simpl in Hrun.
    assert (announced s s_e) as Hs_e.
    { rewrite Hrun. cbn [times]. unfold bind at 1, detached at 1.
      set (s_w := set_this _ _).
      destruct (onWalkQueueEmptied_first s_w Htame Hf) as [t Hw].
      cbn [fst snd]. apply announced_again. rewrite Hw. unfold announced. simpl.
      split; [done|]. eexists. rewrite <- !app_assoc. split; [reflexivity|].
      simpl. apply elem_of_cons. right. apply elem_of_cons. right. apply elem_of_cons.
      by left. }
    by destruct o. }
  rewrite Hn in *. simpl in *. destruct Hann as (Hflag & u & Hu & Hin).
  split; [done|]. split; [|done].
  unfold appended. rewrite Hn. simpl. by rewrite Hu, drop_app_length.
Qed.

Lemma ready_is_signalled_before_the_last_walk_witness :
  walkQueue candidates_single = [metadata_of "only"]
  ∧ ready "main" ∈ appended next candidates_single
  ∧ heap (next candidates_single).2 = [].
Proof.
  split; [vm_compute; reflexivity|].
  destruct (ready_is_signalled_before_the_last_walk candidates_single (metadata_of "only"))
    as (_ & Hin & _ & Hh & _).
  - intros ev l Hin. by right.
  - vm_compute. reflexivity.
  - vm_compute. lia.
  - vm_compute. reflexivity.
  - split; [exact Hin | exact Hh].
Defined.

(** ** The path of a package *)











(** ** A first scan that finds candidates *)

(** What a walk leaves of the repository and of the clock. *)
Lemma walked_grows `{Platform} fs stack s file o s' :
  walked fs stack s file o s' →
  Repository._hasCompletedScan (this s') = Repository._hasCompletedScan (this s)
  ∧ Repository.lastscan (this s') = Repository.lastscan (this s)
  ∧ Repository._walkQueue (this s') = Repository._walkQueue (this s)
  ∧ Repository.listeners (this s') = Repository.listeners (this s)
  ∧ Repository.name (this s') = Repository.name (this s)
  ∧ clock s ≤ clock s'
  ∧ ∃ t, trace s' = trace s ++ t.
Proof.
  intros Hw.
  destruct Hw as [e fr Hl | fr o t Hl Hv Ht | fr o t Hl Hv Htr Ht | fr o t Hl Hv Htr Ht
     | fr Hl Hmute | fr Hl Hv Hhw];
    try destruct o; simpl; repeat (split; [done || lia|]); try (by eexists).
  all: exists []; by rewrite app_nil_r.
Qed.

Lemma completed_walked `{Platform} fs stack s0 s file o s' :
  completed s0 s → walked fs stack s file o s' → completed s0 s'.
Proof.
  intros (Hf & Hclock & (c & Hc & Hle) & u & Hu & Hin) Hw.
  destruct (walked_grows _ _ _ _ _ _ Hw) as (Hf' & Hl' & _ & _ & _ & Hclock' & t & Ht).
  unfold completed. rewrite Hf', Hl', Ht, Hu. split; [done|]. split; [lia|].
  split; [by exists c|].
  exists (u ++ t). rewrite app_assoc. split; [done|]. apply elem_of_app. by left.
Qed.

(** [next] when more than one candidate is left. *)
Lemma next_more s x y rest :
  walkQueue s = x :: y :: rest →
  next s
  = (Ok (Some x),
     traced (set_this (Repository.set_walkQueue
                         (EEQueue.mk (y :: rest)
                            (EEQueue.once_emptied (Repository._walkQueue (this s))))
                         (this s)) s)
            [emitted from_queue "dequeued" []]).
Proof.
  intros Hq. unfold next. unfold bind at 1, gets at 1. unfold walkQueue in Hq. rewrite Hq.
  unfold bind at 1, update_walkQueue at 1, update_this at 1, modify at 1. rewrite Hq.
  cbn [tail fst snd head].
  unfold bind at 1.
  match goal with |- context [emit_queue "dequeued" [] ?st] =>
    change (emit_queue "dequeued" [] st)
      with (Ok tt, traced st [emitted from_queue "dequeued" []]) end.
  cbv beta iota. reflexivity.
Qed.

Lemma completed_again s0 n : stable (completed s0) (times n (detached _onWalkQueueEmptied)).
Proof.
  apply stable_times. intros s (Hf & Hclock & _ & u & Hu & Hin). unfold detached.
  rewrite onWalkQueueEmptied_again by done. unfold completed. simpl. split; [done|].
  split; [lia|]. split; [exists (clock s); split; [done|lia]|]. by exists u.
Qed.

(** [next] on the last candidate, in a repository that waits. *)
Lemma next_last s x :
  waiting s → walkQueue s = [x] → completed s (next s).2.
Proof.
  intros (Htame & Hf & Honce) Hq.
  unfold next. unfold bind at 1, gets at 1. unfold walkQueue in Hq. rewrite Hq.
  unfold bind at 1, update_walkQueue at 1, update_this at 1, modify at 1. rewrite Hq.
  cbn [tail fst snd].
  set (s_t := set_this _ s).
  unfold bind at 1.
  change (emit_queue "dequeued" [] s_t)
    with (Ok tt, traced s_t [emitted from_queue "dequeued" []]).
  cbv beta iota.
  unfold bind at 1, walkQueue_length at 1, gets at 1. cbn [fst snd].
  unfold bind at 1.
  change (bool_decide _) with true. unfold when.
  set (s_d := traced s_t _).
  destruct (EEQueue.once_emptied (Repository._walkQueue (this s))) as [|k] eqn:Hk; [lia|].
  assert (Hrun : (emit_queue "emptied" [] s_d).2
                 = (times (Datatypes.S k) (detached _onWalkQueueEmptied)
                      (set_this (Repository.set_walkQueue (EEQueue.mk [] 0) (this s))
                         (traced s_d [emitted from_queue "emptied" []]))).2).
  { unfold emit_queue. rewrite (bind_ok _ _ _ _ _ (record_run _ s_d)).
    change (String.eqb "emptied" "emptied") with true. cbv iota.
    unfold bind at 1, gets at 1. unfold s_d, s_t. simpl. reflexivity. }
  destruct (emit_queue "emptied" [] s_d) as [o s_e] eqn:He. simpl in Hrun.
  assert (completed s s_e) as Hs_e.
  { rewrite Hrun. cbn [times]. unfold bind at 1, detached at 1.
    set (s_w := set_this _ _).
    destruct (onWalkQueueEmptied_first s_w Htame Hf) as [t Hw].
    cbn [fst snd]. apply completed_again. rewrite Hw. unfold completed. simpl.
    split; [done|]. split; [lia|]. split; [exists (clock s); by split|].
    eexists. rewrite <- !app_assoc. split; [reflexivity|].
    simpl. apply elem_of_cons. right. apply elem_of_cons. right. apply elem_of_cons.
    by left. }
  by destruct o.
Qed.

Section FirstScan.
Context `{Platform}.
Variable fs : Node.
Variable stack : nat.

Lemma waiting_walked s file o s' : waiting s → walked fs stack s file o s' → waiting s'.
Proof.
  intros (Htame & Hf & Honce) Hw.
  destruct (walked_grows _ _ _ _ _ _ Hw) as (Hf' & _ & Hq' & Hl' & _).
  unfold waiting. by rewrite Hf', Hq', Hl'.
Qed.

Lemma completed_from s0 s s' :
  clock s0 ≤ clock s → Repository.name (this s) = Repository.name (this s0) →
  (∃ t, trace s = trace s0 ++ t) → completed s s' → completed s0 s'.
Proof.
  intros Hclock Hn [t Ht] (Hf & Hclock' & (c & Hc & Hle) & u & Hu & Hin).
  unfold completed. split; [done|]. split; [lia|]. split; [exists c; split; [done|lia]|].
  exists (t ++ u). rewrite Hu, Ht, app_assoc. split; [done|].
  apply elem_of_app. right. by rewrite <- Hn.
Qed.

Lemma while_walkQueue_next fuel s x rest :
  walkQueue s = x :: rest →
  while_walkQueue fs stack (Datatypes.S fuel) s
  = match _walkPkgDir fs stack (Some x) (next s).2 with
    | (Ok _, s2) => while_walkQueue fs stack fuel s2
    | (Throw e, s2) => (Throw e, s2)
    end.
Proof.
  intros Hq. destruct (next_run s x rest Hq) as (s1 & Hn & _).
  unfold walkQueue in Hq. simpl. unfold bind at 1, walkQueue_length, gets. simpl.
  rewrite Hq. simpl. unfold bind at 1. rewrite Hn. unfold bind at 1.
  reflexivity.
Qed.

Lemma while_completes fuel : ∀ s s',
  waiting s → walkQueue s ≠ [] →
  while_walkQueue fs stack fuel s = (Ok true, s') →
  completed s s'.
Proof.
  induction fuel as [|fuel IH]; intros s s' Hs Hne; destruct (walkQueue s) as [|x rest] eqn:Hq;
    try done.
  - by rewrite (while_walkQueue_out fs stack s x rest).
  - rewrite (while_walkQueue_next fuel s x rest Hq).
    pose proof (walkPkgDir_walked fs stack (next s).2 x) as Hw.
    destruct (_walkPkgDir fs stack (Some x) (next s).2) as [[[]|e] s2] eqn:Hrun; [|done].
    simpl in Hw. intros Hloop.
    destruct (walked_configured _ _ _ _ _ _ Hw) as (Hq2 & _).
    destruct (walked_grows _ _ _ _ _ _ Hw) as (_ & _ & _ & _ & Hn2 & Hclock2 & t2 & Ht2).
    destruct rest as [|y rest].
    + pose proof (completed_walked fs stack s _ x _ s2 (next_last s x Hs Hq) Hw) as Hs2.
      destruct (next_run s x [] Hq) as (s1 & Hn & Hq1 & _). rewrite Hn in Hq2. simpl in Hq2.
      rewrite while_walkQueue_nil in Hloop by (by rewrite Hq2). by injection Hloop as <-.
    + rewrite (next_more s x y rest Hq) in *. simpl in *.
      apply (completed_from s s2 s'); [done|done| |].
      * exists ([emitted from_queue "dequeued" []] ++ t2). by rewrite Ht2, app_assoc.
      * apply IH; [|rewrite Hq2; by unfold walkQueue|done].
        eapply waiting_walked; [|exact Hw].
        destruct Hs as (Htame & Hf & Honce). by repeat split.
Qed.

(** A scan of a repository that has not completed one, with the
    listeners it can have: when the scan returns and has found a
    candidate, "ready" has been signalled during it, [_hasCompletedScan]
    is set and the time of the last scan is a time of this scan. *)
Theorem first_scan_with_candidates_completes s s' :
  tame (Repository.listeners (this s)) →
  Repository._hasCompletedScan (this s) = false →
  walkQueue (discovery fs s).2 ≠ [] →
  scan fs stack s = (Ok tt, s') →
  ready (Repository.name (this s)) ∈ appended (scan fs stack) s
  ∧ Repository._hasCompletedScan (this s') = true
  ∧ ∃ c, Repository.lastscan (this s') = Some c ∧ clock s ≤ c.
Proof.
  intros Htame Hf Hne Hscan.
  assert (Hdone : completed s s').
  { rewrite scan_discovery in Hscan.
    pose proof (quiet_discovery s fs s (quiet_step_refl s)) as Hquiet.
    assert (Hwait : waiting (discovery fs s).2 ∧ clock (discovery fs s).2 = clock s).
    { assert (Hst : stable (fun s' => tame (Repository.listeners (this s'))
                                      ∧ Repository._hasCompletedScan (this s') = false
                                      ∧ clock s' = clock s)
                           (discovery fs)).
      { unfold discovery. apply stable_bind; [apply stable_gets|]. intros r.
        apply stable_bind; [by apply stable_emit_repository|]. intros _.
        apply stable_bind; [stable_frame|]. intros _.
        apply stable_populateWalkQueue.
        - intros a. by apply stable_emit_repository.
        - intros item. stable_frame. }
      assert (Honce : stable (fun s' => 0 < EEQueue.once_emptied
                                            (Repository._walkQueue (this s')))
                             (_populateWalkQueue (resolve fs (Repository.dir (this s)))
                                (Repository.dir (this s)))).
      { apply stable_populateWalkQueue.
        - intros a. by apply stable_emit_repository.
        - intros item. stable_frame. }
      destruct (Hst s) as (H1 & H2 & H3); [done|].
      split; [|done]. split; [done|]. split; [done|].
      unfold discovery. unfold bind at 1, gets at 1.
      destruct (emit_repository_run "scanning" [a_repository (Repository.name (this s))] s)
        as (o & t & Hrun & _).
      unfold bind at 1. rewrite Hrun. destruct o as [[]|e]; [|simpl in *].
      - unfold bind at 1. cbn [fst snd]. apply Honce. simpl. lia.
      - unfold discovery in Hne. unfold bind at 1, gets at 1 in Hne.
        unfold bind at 1 in Hne. rewrite Hrun in Hne.
        unfold discovery in Hscan. unfold bind at 1, gets at 1 in Hscan.
        unfold bind at 1 in Hscan. rewrite Hrun in Hscan. done. }
    destruct Hwait as [Hwait Hclock].
    destruct (discovery fs s) as [[[]|e] sd] eqn:Hd; [|done]. simpl in *.
    rewrite processWalkQueue_run in Hscan.
    pose proof (processWalkQueue_bound fs stack (length (walkQueue sd)) sd (le_n _)) as Hbound.
    destruct (while_walkQueue fs stack (length (walkQueue sd)) sd) as [[[|]|e'] sf] eqn:Hloop;
      simpl in *; try done.
    injection Hscan as ->.
    destruct Hquiet as (_ & _ & Hn & _ & _ & _ & _ & _ & _ & u & Hu & _).
    apply (completed_from s sd s'); [lia|done|by exists u|].
    by apply (while_completes _ _ _ Hwait Hne Hloop). }
  destruct Hdone as (Hflag & _ & Hlast & u & Hu & Hin).
  split; [|done]. unfold appended. rewrite Hscan. simpl. by rewrite Hu, drop_app_length.
Qed.
End FirstScan.

Lemma first_scan_with_candidates_completes_witness :
  walkQueue (discovery (H:=Toy.platform) tree_alpha_beta fresh_main).2 ≠ []
  ∧ ready "main" ∈ appended (scan (H:=Toy.platform) tree_alpha_beta 100) fresh_main
  ∧ Repository._hasCompletedScan (this scanned_alpha_beta) = true.
Proof.
  assert (Hne : walkQueue (discovery (H:=Toy.platform) tree_alpha_beta fresh_main).2 ≠ [])
    by (vm_compute; discriminate).
  split; [exact Hne|].
  destruct (first_scan_with_candidates_completes (H:=Toy.platform) tree_alpha_beta 100
              fresh_main scanned_alpha_beta) as (Hin & Hflag & _).
  - intros ev l Hin. by right.
  - reflexivity.
  - exact Hne.
  - vm_compute. reflexivity.
  - split; [exact Hin | exact Hflag].
Defined.

(** ** Walking a package again *)

Lemma bind_run {St A B} (m : M St A) (k : A → M St B) s :
  bind m k s = match m s with
               | (Ok a, s') => k a s'
               | (Throw e, s') => (Throw e, s')
               end.
Proof. unfold bind. by destruct (m s) as [[a|e] s']. Qed.

Lemma on_package_at {A} (m : M Frame A) s pkg p :
  heap s !! pkg = Some p →
  on_package pkg m s
  = ((m (mkFrame p (console s))).1,
     set_console (stdout (m (mkFrame p (console s))).2)
       (set_heap (<[pkg := self (m (mkFrame p (console s))).2]> (heap s)) s)).
Proof. intros Hp. unfold on_package. rewrite Hp. by destruct (m _). Qed.

Lemma on_package_seq_at {A B} (m : M Frame A) (k : M Frame B) s pkg p :
  heap s !! pkg = Some p →
  (on_package pkg m ;;; on_package pkg k) s = on_package pkg (m ;;; k) s.
Proof.
  intros Hp. pose proof (lookup_lt_Some _ _ _ Hp) as Hlt.
  rewrite (on_package_at (m ;;; k) s pkg p Hp).
  unfold bind at 1. rewrite (on_package_at m s pkg p Hp).
  unfold bind. destruct (m _) as [[a|e] [q out]]; simpl; [|reflexivity].
  rewrite (on_package_at k _ pkg q) by (simpl; by rewrite list_lookup_insert_eq).
  simpl. destruct (k _) as [r fr']; simpl. unfold set_console, set_heap. simpl.
  by rewrite list_insert_insert_eq.
Qed.

Section Again.
Context `{Platform}.
Variable fs : Node.
Variable stack : nat.

(** [walk] on a package that has walked before, when it reads, extracts
    and lists again and is valid: the package signals "updated", which
    nobody hears when only the listeners of [_walkPkgDir] are on it, and
    the time of its walk becomes the time of this walk; the repository,
    its index and [invalidPackages] are as they were. The rules are plain
    ones and no data property of the package hides a member. *)
Theorem walking_again_is_an_update s pkg p rules fr :
  plain_rules rules = true →
  unshadowed p →
  heap s !! pkg = Some p →
  Package._hasWalked p = true →
  Package.listeners p = listeners_of_walkPkgDir →
  extraction_and_listing fs stack rules (mkFrame p (console s)) = (Ok tt, fr) →
  isValid (self fr) = true →
  walk fs stack pkg rules s
  = (Ok tt,
     mkState (this s)
       (<[pkg := Package.set_lastWalk (Some (clock s)) (self fr)]> (heap s))
       (trace s ++ [emitted (from_package pkg) "updated" [a_package pkg]])
       (stdout fr) (Datatypes.S (clock s)) (manager_listens s)).
Proof.
  intros Hplain Hunsh Hp Hhw Hlis Hrun Hv. pose proof (lookup_lt_Some _ _ _ Hp) as Hlt.
  pose proof (untouched_extraction_and_listing fs p stack rules (mkFrame p (console s))) as Hun.
  specialize (Hun ltac:(done)). rewrite Hrun in Hun. destruct Hun as (Hlis' & _).
  pose proof (intact_extraction_and_listing fs p stack rules Hplain (mkFrame p (console s)))
    as Hin.
  specialize (Hin ltac:(done)). rewrite Hrun in Hin. destruct Hin as (Hunsh' & Hhw').
  simpl in Hlis', Hhw'.
  assert (Hemit : bool_decide (is_Some (Package.others (self fr) !! "emit")) = false).
  { apply bool_decide_eq_false. intros Hmute. apply Hunsh' in Hmute.
    vm_compute in Hmute. discriminate Hmute. }
  rewrite walk_settle.
  assert (Hlocal : (on_package pkg (_readConfigFile fs) ;;;
                    on_package pkg (_parse stack rules) ;;;
                    on_package pkg (_search0 fs) ;;;
                    settle pkg) s
                   = (on_package pkg (extraction_and_listing fs stack rules) ;;; settle pkg) s).
  { unfold extraction_and_listing.
    rewrite (bind_run (on_package pkg (_readConfigFile fs ;;; _parse stack rules ;;; _search0 fs))).
    rewrite <- (on_package_seq_at (_readConfigFile fs) _ s pkg p Hp).
    rewrite !(bind_run (on_package pkg (_readConfigFile fs))).
    rewrite (on_package_at (_readConfigFile fs) s pkg p Hp).
    destruct (_readConfigFile fs _) as [[b|e] [q out]]; simpl; [|reflexivity].
    set (s1 := set_console _ _).
    assert (Hq : heap s1 !! pkg = Some q) by (simpl; by rewrite list_lookup_insert_eq).
    rewrite <- (on_package_seq_at (_parse stack rules) _ s1 pkg q Hq).
    rewrite !(bind_run (on_package pkg (_parse stack rules))).
    destruct (on_package pkg (_parse stack rules) s1) as [[[]|e] s2]; [|reflexivity].
    rewrite (bind_run (on_package pkg (_search0 fs))). reflexivity. }
  rewrite Hlocal. rewrite bind_run.
  rewrite (on_package_at _ s pkg p Hp), Hrun. cbn [fst snd].
  set (s1 := set_console _ _).
  assert (Hq : heap s1 !! pkg = Some (self fr)) by (simpl; by rewrite list_lookup_insert_eq).
  unfold settle. rewrite bind_run, (deref_run s1 pkg _ Hq).
  rewrite Hv, Hhw', Hhw. cbn [negb]. cbv iota.
  unfold bind at 1. rewrite (emit_package_run pkg (self fr) _ _ s1 Hq), Hemit.
  rewrite Hlis', Hlis. unfold dispatch. simpl.
  unfold bind at 1, new_Date at 1. simpl.
  rewrite (on_package_at _ _ pkg (self fr)) by (simpl; by rewrite list_lookup_insert_eq).
  simpl. unfold set_console, set_heap. simpl. by rewrite list_insert_insert_eq.
Qed.
End Again.

Lemma walking_again_is_an_update_witness :
  let run := walk (H:=Toy.platform) tree_alpha_beta 100 0 rules_name_guid walked_alpha in
  Repository.packages (this walked_alpha) !! "A1" = Some 0
  ∧ run.1 = Ok tt
  ∧ appended (walk (H:=Toy.platform) tree_alpha_beta 100 0 rules_name_guid) walked_alpha
    = [emitted (from_package 0) "updated" [a_package 0]]
  ∧ this run.2 = this walked_alpha.
Proof.
  intros run. split; [vm_compute; reflexivity|].
  unfold run, appended.
  erewrite (walking_again_is_an_update (H:=Toy.platform) tree_alpha_beta 100 walked_alpha 0
              (nth 0 (heap walked_alpha) (new_Package [] [])) rules_name_guid
              (extraction_and_listing (H:=Toy.platform) tree_alpha_beta 100 rules_name_guid
                 (mkFrame (nth 0 (heap walked_alpha) (new_Package [] []))
                    (console walked_alpha))).2).
  - split; [reflexivity|]. split; [|reflexivity]. simpl. by rewrite drop_app_length.
  - reflexivity.
  - intros key [v Hv]. vm_compute in Hv. discriminate Hv.
  - vm_compute. reflexivity.
  - vm_compute. reflexivity.
  - vm_compute. reflexivity.
  - vm_compute. reflexivity.
  - vm_compute. reflexivity.
Defined.
